(** * The progressbar widget of awesome (widgets/progressbar.c)

    A shallow embedding of the bar registry ([progressbar_bar_add],
    [luaA_progressbar_bar_properties_set], [luaA_progressbar_bar_data_add])
    and of the renderer ([progressbar_draw]), followed by the properties
    of the widget's specification.

    Modelling conventions
    - C [int] is a [Z] kept in the 32-bit two's-complement range; every
      arithmetic operation writes its wrap-around out ([CInt.wrap]).
    - C [float] and [double] are IEEE-754 binary32 and binary64 values,
      taken from the standard library's [SpecFloat] (round to nearest,
      ties to even); every operation is evaluated in the format of its
      C type, and the implicit conversions are written out.
    - A conversion of a floating-point value that does not fit an [int],
      and an integer division the processor traps on, are faults of the
      run; the drawing primitives append to the list of commands received
      by the drawing context. *)

From Stdlib Require Import ZArith List String Bool Lia.
From Stdlib Require Import Reals Lra.
From Stdlib Require Import Floats.SpecFloat.
Import ListNotations.

Local Open Scope Z_scope.

(* ------------------------------------------------------------------ *)
(** ** C integers *)

Module CInt.

Definition INT_MIN : Z := - 2 ^ 31.
Definition INT_MAX : Z := 2 ^ 31 - 1.

Definition in_int (z : Z) : Prop := INT_MIN <= z <= INT_MAX.

Definition in_intb (z : Z) : bool := (INT_MIN <=? z) && (z <=? INT_MAX).

(** The value an [int] holds after an operation whose exact result is [z]. *)
Definition wrap (z : Z) : Z := (z + 2 ^ 31) mod 2 ^ 32 - 2 ^ 31.

Definition add (a b : Z) : Z := wrap (a + b).
Definition sub (a b : Z) : Z := wrap (a - b).
Definition mul (a b : Z) : Z := wrap (a * b).
Definition neg (a : Z) : Z := wrap (- a).

(** C truth value of an [int]. *)
Definition truthy (a : Z) : bool := negb (a =? 0).

End CInt.

Declare Scope cint_scope.
Delimit Scope cint_scope with cint.
Arguments CInt.add (a b)%_cint_scope.
Arguments CInt.sub (a b)%_cint_scope.
Arguments CInt.mul (a b)%_cint_scope.
Arguments CInt.neg a%_cint_scope.
Infix "+" := CInt.add : cint_scope.
Infix "-" := CInt.sub : cint_scope.
Infix "*" := CInt.mul : cint_scope.
Notation "- x" := (CInt.neg x) : cint_scope.

(* ------------------------------------------------------------------ *)
(** ** C floating point *)

(** A floating-point format: the precision and the exponent of infinity. *)
Record format : Type := { prec : Z; emax : Z }.

Definition binary32 : format := {| prec := 24; emax := 128 |}.
Definition binary64 : format := {| prec := 53; emax := 1024 |}.

Section FloatFormat.
Variable fmt : format.

Definition fadd := SFadd (prec fmt) (emax fmt).
Definition fsub := SFsub (prec fmt) (emax fmt).
Definition fmul := SFmul (prec fmt) (emax fmt).
Definition fdiv := SFdiv (prec fmt) (emax fmt).
Definition fvalid := valid_binary (prec fmt) (emax fmt).

(** Rounding of the dyadic number [m * 2^e] into the format. *)
Definition fround (m e : Z) (szero : bool) : spec_float :=
  binary_normalize (prec fmt) (emax fmt) m e szero.

(** Conversion of an integer, as in an implicit conversion of an [int]. *)
Definition fof_int (z : Z) : spec_float := fround z 0 false.

(** Conversion of a floating-point value of another format. *)
Definition fof_float (x : spec_float) : spec_float :=
  match x with
  | S754_finite s m e => fround (cond_Zopp s (Zpos m)) e s
  | _ => x
  end.
End FloatFormat.

(** C [float]. *)
Module F32.
Definition add := fadd binary32.
Definition sub := fsub binary32.
Definition mul := fmul binary32.
Definition div := fdiv binary32.
Definition ltb := SFltb.
Definition leb := SFleb.
Definition gtb (x y : spec_float) := SFltb y x.
Definition geb (x y : spec_float) := SFleb y x.
Definition valid := fvalid binary32.
Definition of_int := fof_int binary32.
Definition of_double := fof_float binary32.
End F32.

(** C [double]. *)
Module F64.
Definition add := fadd binary64.
Definition sub := fsub binary64.
Definition mul := fmul binary64.
Definition div := fdiv binary64.
Definition ltb := SFltb.
Definition leb := SFleb.
Definition gtb (x y : spec_float) := SFltb y x.
Definition geb (x y : spec_float) := SFleb y x.
Definition valid := fvalid binary64.
Definition of_int := fof_int binary64.
Definition of_float := fof_float binary64.
End F64.

Definition float := spec_float.
Definition double := spec_float.

(** A decimal constant [n / d] of the source text, as the nearest double. *)
Definition lit (n d : Z) : double := F64.div (F64.of_int n) (F64.of_int d).

(** [0.5] and [0.0001] as they appear in the source. *)
Definition lit_0_5 : double := lit 5 10.
Definition lit_0_0001 : double := lit 1 10000.

(** Faults of a run. *)
Inductive fault : Type :=
| DivisionFault          (* integer division trap *)
| UndefinedConversion    (* floating-point value that fits no [int] *)
| OutOfFuel.             (* the model's loop bound was reached *)

Inductive result (A : Type) : Type :=
| Ok (a : A)
| Fault (f : fault).
Arguments Ok {A} a.
Arguments Fault {A} f.

(** The integer part of a finite value (truncation towards zero). *)
Definition truncate (x : spec_float) : option Z :=
  match x with
  | S754_zero _ => Some 0
  | S754_finite s m e =>
      let a := match e with
               | Z0 => Zpos m
               | Zpos p => Zpos m * 2 ^ e
               | Zneg p => Zpos m / 2 ^ (- e)
               end in
      Some (cond_Zopp s a)
  | _ => None
  end.

(** The cast [(int) x]. *)
Definition int_of_float (x : spec_float) : result Z :=
  match truncate x with
  | Some z => if CInt.in_intb z then Ok z else Fault UndefinedConversion
  | None => Fault UndefinedConversion
  end.

(** The C division [a / b] on [int]. *)
Definition int_div (a b : Z) : result Z :=
  if b =? 0 then Fault DivisionFault
  else if (a =? CInt.INT_MIN) && (b =? -1) then Fault DivisionFault
  else Ok (Z.quot a b).

Definition rbind {A B} (r : result A) (k : A -> result B) : result B :=
  match r with
  | Ok a => k a
  | Fault f => Fault f
  end.

Notation "x <~ r ;; k" := (rbind r (fun x => k))
  (at level 61, r at next level, right associativity).

(* ------------------------------------------------------------------ *)
(** ** Runs that emit draw commands and may fault *)

(** [area_t]: a rectangle in pixels. *)
Record area_t : Type := mk_area {
  area_x : Z;
  area_y : Z;
  area_width : Z;
  area_height : Z
}.

(** What the widget takes from its host: colours and their resolution
    (draw.c), the theme ([globalconf.colors]) and the placement of a widget
    in its bar (widget.c). *)
Class Host : Type := {
  (** [xcolor_t], a resolved colour. *)
  xcolor_t : Type;
  (** The colour held by freshly cleared memory ([p_new] clears what it
      allocates). *)
  xcolor_zero : xcolor_t;
  (** [xcolor_new (connection, screen, colstr, &color)]: resolves a colour
      specification; the result is [true] and the colour written to the
      slot when it succeeds, [false] and what the slot then holds when it
      fails. *)
  xcolor_new : string -> xcolor_t -> bool * xcolor_t;
  (** [globalconf.colors.fg] and [globalconf.colors.bg]. *)
  theme_fg : xcolor_t;
  theme_bg : xcolor_t;
  (** [alignment_t] and [widget_calculate_offset]. *)
  alignment_t : Type;
  widget_calculate_offset : Z -> Z -> Z -> alignment_t -> Z
}.

Section Widget.

Context {host : Host}.

(** What the drawing context receives. *)
Inductive draw_cmd : Type :=
| DrawRectangle (geometry : area_t) (line_width : float) (filled : bool)
                (color : xcolor_t)
| DrawRectangleGradient (geometry : area_t) (line_width : float)
                        (filled : bool) (pattern_rect : area_t)
                        (pcolor : xcolor_t)
                        (pcolor_center pcolor_end : option xcolor_t).

(** The state a draw call works on: the commands emitted so far and the
    area of the widget node ([w->area]). *)
Record draw_state : Type := mk_draw_state {
  emitted : list draw_cmd;
  w_area : area_t
}.

Definition Draw (A : Type) : Type := draw_state -> result (A * draw_state).

Definition ret {A} (a : A) : Draw A := fun st => Ok (a, st).

Definition bind {A B} (c : Draw A) (k : A -> Draw B) : Draw B :=
  fun st => match c st with
            | Ok (a, st') => k a st'
            | Fault f => Fault f
            end.

Definition lift {A} (r : result A) : Draw A :=
  fun st => match r with
            | Ok a => Ok (a, st)
            | Fault f => Fault f
            end.

Definition emit (c : draw_cmd) : Draw unit :=
  fun st => Ok (tt, mk_draw_state (emitted st ++ [c]) (w_area st)).

Definition get_area : Draw area_t := fun st => Ok (w_area st, st).

Definition set_area (a : area_t) : Draw unit :=
  fun st => Ok (tt, mk_draw_state (emitted st) a).

Definition when (b : bool) (c : Draw unit) : Draw unit :=
  if b then c else ret tt.

Notation "x <- c ;; k" := (bind c (fun x => k))
  (at level 61, c at next level, right associativity).
Notation "c ;;; k" := (bind c (fun _ => k))
  (at level 61, right associativity).

(** [draw_rectangle] and [draw_rectangle_gradient] of draw.c. *)
Definition draw_rectangle (geometry : area_t) (line_width : float)
    (filled : bool) (color : xcolor_t) : Draw unit :=
  emit (DrawRectangle geometry line_width filled color).

Definition draw_rectangle_gradient (geometry : area_t) (line_width : float)
    (filled : bool) (pattern_rect : area_t) (pcolor : xcolor_t)
    (pcolor_center pcolor_end : option xcolor_t) : Draw unit :=
  emit (DrawRectangleGradient geometry line_width filled pattern_rect
          pcolor pcolor_center pcolor_end).

(* ---------------------------------------------------------------- *)
(** ** Data *)

(** [bar_t]; the list links are the [list] the bars are kept in, and the
    two optional colours are the pointers [pfg_center] and [pfg_end]. *)
Record bar_t : Type := mk_bar {
  title : string;
  min_value : float;
  max_value : float;
  value : float;
  reverse : bool;
  fg : xcolor_t;
  fg_off : xcolor_t;
  pfg_center : option xcolor_t;
  pfg_end : option xcolor_t;
  bg : xcolor_t;
  bordercolor : xcolor_t
}.

(** [progressbar_data_t]. *)
Record progressbar_data_t : Type := mk_data {
  width : Z;
  gap : Z;
  border_width : Z;
  border_padding : Z;
  ticks_gap : Z;
  ticks_count : Z;
  vertical : bool;
  height : float;
  bars : list bar_t
}.

Definition set_bars (d : progressbar_data_t) (l : list bar_t) :=
  mk_data (width d) (gap d) (border_width d) (border_padding d)
          (ticks_gap d) (ticks_count d) (vertical d) (height d) l.

Definition set_min_value (b : bar_t) (x : float) :=
  mk_bar (title b) x (max_value b) (value b) (reverse b) (fg b) (fg_off b)
         (pfg_center b) (pfg_end b) (bg b) (bordercolor b).
Definition set_max_value (b : bar_t) (x : float) :=
  mk_bar (title b) (min_value b) x (value b) (reverse b) (fg b) (fg_off b)
         (pfg_center b) (pfg_end b) (bg b) (bordercolor b).
Definition set_value (b : bar_t) (x : float) :=
  mk_bar (title b) (min_value b) (max_value b) x (reverse b) (fg b) (fg_off b)
         (pfg_center b) (pfg_end b) (bg b) (bordercolor b).
Definition set_reverse (b : bar_t) (x : bool) :=
  mk_bar (title b) (min_value b) (max_value b) (value b) x (fg b) (fg_off b)
         (pfg_center b) (pfg_end b) (bg b) (bordercolor b).
Definition set_fg (b : bar_t) (c : xcolor_t) :=
  mk_bar (title b) (min_value b) (max_value b) (value b) (reverse b) c
         (fg_off b) (pfg_center b) (pfg_end b) (bg b) (bordercolor b).
Definition set_fg_off (b : bar_t) (c : xcolor_t) :=
  mk_bar (title b) (min_value b) (max_value b) (value b) (reverse b) (fg b)
         c (pfg_center b) (pfg_end b) (bg b) (bordercolor b).
Definition set_pfg_center (b : bar_t) (c : option xcolor_t) :=
  mk_bar (title b) (min_value b) (max_value b) (value b) (reverse b) (fg b)
         (fg_off b) c (pfg_end b) (bg b) (bordercolor b).
Definition set_pfg_end (b : bar_t) (c : option xcolor_t) :=
  mk_bar (title b) (min_value b) (max_value b) (value b) (reverse b) (fg b)
         (fg_off b) (pfg_center b) c (bg b) (bordercolor b).
Definition set_bg (b : bar_t) (c : xcolor_t) :=
  mk_bar (title b) (min_value b) (max_value b) (value b) (reverse b) (fg b)
         (fg_off b) (pfg_center b) (pfg_end b) c (bordercolor b).
Definition set_bordercolor (b : bar_t) (c : xcolor_t) :=
  mk_bar (title b) (min_value b) (max_value b) (value b) (reverse b) (fg b)
         (fg_off b) (pfg_center b) (pfg_end b) (bg b) c.

(* ---------------------------------------------------------------- *)
(** ** The bar registry *)

(** [progressbar_pcolor_set]: the pointer is [None] when null. *)
Definition progressbar_pcolor_set (ppcolor : option xcolor_t)
    (new_color : string) : option xcolor_t :=
  let flag := match ppcolor with None => true | Some _ => false end in
  let slot := match ppcolor with None => xcolor_zero | Some c => c end in
  let '(resolved, slot') := xcolor_new new_color slot in
  if negb resolved && flag then None else Some slot'.

(** The bar [progressbar_bar_add] allocates: cleared memory, then the
    theme colours and [max_value = 100.0]. *)
Definition new_bar (t : string) : bar_t :=
  {| title := t;
     min_value := S754_zero false;
     max_value := F32.of_double (lit 100 1);
     value := S754_zero false;
     reverse := false;
     fg := theme_fg;
     fg_off := theme_bg;
     pfg_center := None;
     pfg_end := None;
     bg := theme_bg;
     bordercolor := theme_fg |}.

(** [progressbar_bar_add]: appends the new bar; returns the list and the
    position of the bar in it. *)
Definition progressbar_bar_add (d : progressbar_data_t) (t : string)
  : progressbar_data_t * nat :=
  (set_bars d (bars d ++ [new_bar t]), List.length (bars d)).

(** The search loop [for(bar = d->bars; bar; bar = bar->next)
    if(!a_strcmp(title, bar->title)) break;]: the position of the first
    bar of that title. *)
Fixpoint bar_find (t : string) (l : list bar_t) : option nat :=
  match l with
  | [] => None
  | b :: l' => if String.eqb t (title b) then Some O
               else option_map S (bar_find t l')
  end.

(** Find the bar of a title, or create it. *)
Definition bar_upsert (d : progressbar_data_t) (t : string)
  : progressbar_data_t * nat :=
  match bar_find t (bars d) with
  | Some i => (d, i)
  | None => progressbar_bar_add d t
  end.

(** Writing through the pointer [bar]. *)
Fixpoint bar_modify (i : nat) (f : bar_t -> bar_t) (l : list bar_t)
  : list bar_t :=
  match l, i with
  | [], _ => []
  | b :: l', O => f b :: l'
  | b :: l', S i' => b :: bar_modify i' f l'
  end.

(** The property table of [bar_properties_set], as read by
    [luaA_getopt_string], [luaA_getopt_number] and [luaA_getopt_boolean]:
    an absent key is [None]. *)
Record bar_properties : Type := mk_bar_properties {
  p_fg : option string;
  p_bg : option string;
  p_fg_off : option string;
  p_border_color : option string;
  p_fg_center : option string;
  p_fg_end : option string;
  p_min_value : option double;
  p_max_value : option double;
  p_reverse : option bool
}.

(** [luaA_getopt_number (L, idx, name, def)] and its boolean sibling. *)
Definition luaA_getopt {A} (field : option A) (def : A) : A :=
  match field with Some x => x | None => def end.

(** [if((buf = luaA_getopt_string(...))) xcolor_new(..., buf, &color)]. *)
Definition color_set (field : option string) (c : xcolor_t) : xcolor_t :=
  match field with
  | Some buf => snd (xcolor_new buf c)
  | None => c
  end.

Definition pcolor_set (field : option string) (pc : option xcolor_t)
  : option xcolor_t :=
  match field with
  | Some buf => progressbar_pcolor_set pc buf
  | None => pc
  end.

(** The colour assignments of [bar_properties_set]. *)
Definition bar_set_colors (p : bar_properties) (bar : bar_t) : bar_t :=
  let bar := set_fg bar (color_set (p_fg p) (fg bar)) in
  let bar := set_bg bar (color_set (p_bg p) (bg bar)) in
  let bar := set_fg_off bar (color_set (p_fg_off p) (fg_off bar)) in
  let bar := set_bordercolor bar
               (color_set (p_border_color p) (bordercolor bar)) in
  let bar := set_pfg_center bar (pcolor_set (p_fg_center p) (pfg_center bar)) in
  let bar := set_pfg_end bar (pcolor_set (p_fg_end p) (pfg_end bar)) in
  bar.

(** The range assignments of [bar_properties_set]. The number read
    from the table is a double, with the field's value as default; the
    assignment converts it to [float]; [0.0001] is a double. *)
Definition bar_set_range (p : bar_properties) (bar : bar_t) : bar_t :=
  let bar := set_min_value bar
    (F32.of_double (luaA_getopt (p_min_value p)
                                (F64.of_float (min_value bar)))) in
  let bar := if F32.leb (max_value bar) (min_value bar)
             then set_max_value bar
                    (F32.of_double (F64.add (F64.of_float (max_value bar))
                                            lit_0_0001))
             else bar in
  let bar := if F32.ltb (value bar) (min_value bar)
             then set_value bar (min_value bar)
             else bar in
  let bar := set_max_value bar
    (F32.of_double (luaA_getopt (p_max_value p)
                                (F64.of_float (max_value bar)))) in
  let bar := if F32.geb (min_value bar) (max_value bar)
             then set_min_value bar
                    (F32.of_double (F64.sub (F64.of_float (max_value bar))
                                            lit_0_0001))
             else bar in
  let bar := if F32.gtb (value bar) (max_value bar)
             then set_value bar (max_value bar)
             else bar in
  bar.

(** What [bar_properties_set] does to the bar it found or created. *)
Definition bar_apply_properties (p : bar_properties) (bar : bar_t) : bar_t :=
  let bar := bar_set_colors p bar in
  let bar := bar_set_range p bar in
  set_reverse bar (luaA_getopt (p_reverse p) (reverse bar)).

(** [luaA_progressbar_bar_properties_set (widget, title, table)]. *)
Definition luaA_progressbar_bar_properties_set (d : progressbar_data_t)
    (t : string) (p : bar_properties) : progressbar_data_t :=
  let '(d, i) := bar_upsert d t in
  set_bars d (bar_modify i (bar_apply_properties p) (bars d)).

(** Modelled from the spec: the macros [MIN] and [MAX] of common/util.h,
    which this file uses and does not define; the spec has the value
    stored as [clamp(raw, min_value, max_value)], that is the smaller of
    two numbers and the larger of two numbers, by one comparison each. *)
Definition MIN (a b : double) : double := if F64.ltb a b then a else b.
Definition MAX (a b : double) : double := if F64.ltb a b then b else a.

(** The assignment of [bar_data_add]: the operands of the macros are
    promoted to double, the result is converted to [float]. *)
Definition bar_add_value (x : double) (bar : bar_t) : bar_t :=
  set_value bar
    (F32.of_double (MAX (F64.of_float (min_value bar))
                        (MIN (F64.of_float (max_value bar)) x))).

(** [luaA_progressbar_bar_data_add (widget, title, value)]. *)
Definition luaA_progressbar_bar_data_add (d : progressbar_data_t)
    (t : string) (x : double) : progressbar_data_t :=
  let '(d, i) := bar_upsert d t in
  set_bars d (bar_modify i (bar_add_value x) (bars d)).

(** [progressbar_new]: the private data of a new widget. *)
Definition progressbar_new : progressbar_data_t :=
  {| width := 80;
     gap := 2;
     border_width := 1;
     border_padding := 0;
     ticks_gap := 1;
     ticks_count := 0;
     vertical := false;
     height := F32.of_double (lit 80 100);
     bars := [] |}.

(* ---------------------------------------------------------------- *)
(** ** Drawing *)

(** The fields of [draw_context_t] the widget reads. *)
Record draw_context_t : Type := mk_ctx {
  ctx_width : Z;
  ctx_height : Z
}.

(** [1.0] passed for a [float] parameter. *)
Definition line_1_0 : float := F32.of_double (lit 1 1).

(** [d->ticks_count && d->ticks_gap]. *)
Definition quantized (d : progressbar_data_t) : bool :=
  CInt.truthy (ticks_count d) && CInt.truthy (ticks_gap d).

(** [for(bar = d->bars; bar; bar = bar->next) nbbars++;] *)
Definition count_bars (l : list bar_t) : Z :=
  fold_left (fun n _ => (n + 1)%cint) l 0.

(** [values_ticks]: the number of ticks that are turned on. *)
Definition values_ticks (d : progressbar_data_t) (bar : bar_t) : result Z :=
  int_of_float
    (F64.add
       (F64.of_float
          (F32.div (F32.mul (F32.of_int (ticks_count d))
                            (F32.sub (value bar) (min_value bar)))
                   (F32.sub (max_value bar) (min_value bar))))
       lit_0_5).

(** The progress of a bar along a length of [pb_length] pixels, before
    the reversal: [pb_height] is passed for a vertical widget and
    [pb_width] for a horizontal one. *)
Definition bar_progress (d : progressbar_data_t) (pb_length unit : Z)
    (bar : bar_t) : result Z :=
  if quantized d then
    match values_ticks d bar with
    | Ok ticks =>
        Ok (if CInt.truthy ticks
            then (ticks * unit - ticks_gap d)%cint
            else 0)
    | Fault f => Fault f
    end
  else
    int_of_float
      (F64.add
         (F64.of_float
            (F32.div (F32.mul (F32.of_int pb_length)
                              (F32.sub (value bar) (min_value bar)))
                     (F32.sub (max_value bar) (min_value bar))))
         lit_0_5).

(** The border rectangle, drawn [if(d->border_width)]. *)
Definition draw_border (d : progressbar_data_t) (bar : bar_t)
    (rectangle : area_t) : Draw unit :=
  when (CInt.truthy (border_width d))
    (when (CInt.truthy (border_padding d))
       (draw_rectangle rectangle line_1_0 true (bg bar)) ;;;
     draw_rectangle rectangle (F32.of_int (border_width d)) false
       (bordercolor bar)).

(** The loops that draw the gaps between the ticks: [pos] is
    [rectangle.y] of a vertical widget and [rectangle.x] of a horizontal
    one, [limit] the bound it is compared with. *)
Fixpoint tick_gaps (fuel : nat) (rect_at : Z -> area_t) (limit unit : Z)
    (color : xcolor_t) (pos : Z) : Draw Datatypes.unit :=
  match fuel with
  | O => lift (Fault OutOfFuel)
  | S fuel' =>
      if limit >=? pos then
        draw_rectangle (rect_at pos) line_1_0 true color ;;;
        tick_gaps fuel' rect_at limit unit color (pos + unit)%cint
      else ret tt
  end.

(** The two parts of a vertical bar ("new value/progress in px + pattern
    setup", "bottom part", "top part"); [pb_progress] is the progress
    before the reversal. *)
Definition draw_fill_vertical (pb_x pb_y pb_width pb_height : Z)
    (bar : bar_t) (pb_offset pb_progress : Z) : Draw unit :=
  let pb_progress :=
    if reverse bar then (pb_height - pb_progress)%cint else pb_progress in
  let pattern_rect :=
    if reverse bar
    then (* invert: top with bottom part *)
         {| area_x := pb_x; area_y := pb_y;
            area_width := 0; area_height := pb_height |}
    else (* bottom to top *)
         {| area_x := pb_x; area_y := (pb_y + pb_height)%cint;
            area_width := 0; area_height := (- pb_height)%cint |} in
  (* bottom part *)
  when (pb_progress >? 0)
    (let rectangle :=
       {| area_x := (pb_x + pb_offset)%cint;
          area_y := (pb_y + pb_height - pb_progress)%cint;
          area_width := pb_width;
          area_height := pb_progress |} in
     if reverse bar
     then draw_rectangle rectangle line_1_0 true (fg_off bar)
     else draw_rectangle_gradient rectangle line_1_0 true pattern_rect
            (fg bar) (pfg_center bar) (pfg_end bar)) ;;;
  (* top part *)
  when ((pb_height - pb_progress)%cint >? 0)
    (let rectangle :=
       {| area_x := (pb_x + pb_offset)%cint;
          area_y := pb_y;
          area_width := pb_width;
          area_height := (pb_height - pb_progress)%cint |} in
     if reverse bar
     then draw_rectangle_gradient rectangle line_1_0 true pattern_rect
            (fg bar) (pfg_center bar) (pfg_end bar)
     else draw_rectangle rectangle line_1_0 true (fg_off bar)).

(** "draw gaps" of a vertical bar. *)
Definition draw_gaps_vertical (fuel : nat) (d : progressbar_data_t)
    (pb_x pb_y pb_width pb_height unit : Z) (bar : bar_t) (pb_offset : Z)
  : Draw Datatypes.unit :=
  when (quantized d)
    (tick_gaps fuel
       (fun y => {| area_x := (pb_x + pb_offset)%cint; area_y := y;
                    area_width := pb_width; area_height := ticks_gap d |})
       (pb_y + pb_height - ticks_gap d)%cint unit (bg bar)
       (pb_y + (unit - ticks_gap d))%cint).

(** The body of the loop over the bars of a vertical widget; the result
    is the next [pb_offset]. *)
Definition draw_bar_vertical (fuel : nat) (d : progressbar_data_t)
    (pb_x pb_y pb_width pb_height unit : Z) (bar : bar_t) (pb_offset : Z)
  : Draw Z :=
  pb_progress <- lift (bar_progress d pb_height unit bar) ;;
  draw_border d bar
    {| area_x := (pb_x + pb_offset - border_width d - border_padding d)%cint;
       area_y := (pb_y - border_width d - border_padding d)%cint;
       area_width :=
         (pb_width + 2 * (border_padding d + border_width d))%cint;
       area_height :=
         (pb_height + 2 * (border_padding d + border_width d))%cint |} ;;;
  draw_fill_vertical pb_x pb_y pb_width pb_height bar pb_offset
    pb_progress ;;;
  draw_gaps_vertical fuel d pb_x pb_y pb_width pb_height unit bar
    pb_offset ;;;
  ret (pb_offset
       + (pb_width + gap d + 2 * (border_width d + border_padding d)))%cint.

(** The two parts of a horizontal bar ("left part", "right part"). *)
Definition draw_fill_horizontal (pb_x pb_y pb_width pb_height : Z)
    (bar : bar_t) (pb_offset pb_progress : Z) : Draw unit :=
  let pb_progress :=
    if reverse bar then (pb_width - pb_progress)%cint else pb_progress in
  let pattern_rect :=
    if reverse bar
    then (* reverse: right to left *)
         {| area_x := (pb_x + pb_width)%cint; area_y := pb_y;
            area_width := (- pb_width)%cint; area_height := 0 |}
    else (* left to right *)
         {| area_x := pb_x; area_y := pb_y;
            area_width := pb_width; area_height := 0 |} in
  (* left part *)
  when (pb_progress >? 0)
    (let rectangle :=
       {| area_x := pb_x;
          area_y := (pb_y + pb_offset)%cint;
          area_width := pb_progress;
          area_height := pb_height |} in
     if reverse bar
     then draw_rectangle rectangle line_1_0 true (fg_off bar)
     else draw_rectangle_gradient rectangle line_1_0 true pattern_rect
            (fg bar) (pfg_center bar) (pfg_end bar)) ;;;
  (* right part *)
  when ((pb_width - pb_progress)%cint >? 0)
    (let rectangle :=
       {| area_x := (pb_x + pb_progress)%cint;
          area_y := (pb_y + pb_offset)%cint;
          area_width := (pb_width - pb_progress)%cint;
          area_height := pb_height |} in
     if reverse bar
     then draw_rectangle_gradient rectangle line_1_0 true pattern_rect
            (fg bar) (pfg_center bar) (pfg_end bar)
     else draw_rectangle rectangle line_1_0 true (fg_off bar)).

(** "draw gaps" of a horizontal bar. *)
Definition draw_gaps_horizontal (fuel : nat) (d : progressbar_data_t)
    (pb_x pb_y pb_width pb_height unit : Z) (bar : bar_t) (pb_offset : Z)
  : Draw Datatypes.unit :=
  when (quantized d)
    (tick_gaps fuel
       (fun x => {| area_x := x; area_y := (pb_y + pb_offset)%cint;
                    area_width := ticks_gap d; area_height := pb_height |})
       (pb_x + pb_width - ticks_gap d)%cint unit (bg bar)
       (pb_x + (unit - ticks_gap d))%cint).

(** The body of the loop over the bars of a horizontal widget. *)
Definition draw_bar_horizontal (fuel : nat) (d : progressbar_data_t)
    (pb_x pb_y pb_width pb_height unit : Z) (bar : bar_t) (pb_offset : Z)
  : Draw Z :=
  pb_progress <- lift (bar_progress d pb_width unit bar) ;;
  draw_border d bar
    {| area_x := (pb_x - border_width d - border_padding d)%cint;
       area_y := (pb_y + pb_offset - border_width d - border_padding d)%cint;
       area_width :=
         (pb_width + 2 * (border_padding d + border_width d))%cint;
       area_height :=
         (pb_height + 2 * (border_padding d + border_width d))%cint |} ;;;
  draw_fill_horizontal pb_x pb_y pb_width pb_height bar pb_offset
    pb_progress ;;;
  draw_gaps_horizontal fuel d pb_x pb_y pb_width pb_height unit bar
    pb_offset ;;;
  ret (pb_offset
       + (pb_height + gap d + 2 * (border_width d + border_padding d)))%cint.

(** [for(bar = d->bars; bar; bar = bar->next) { ... }], the offset of the
    next bar being carried from one bar to the next. *)
Fixpoint draw_bars (body : bar_t -> Z -> Draw Z) (l : list bar_t)
    (pb_offset : Z) : Draw unit :=
  match l with
  | [] => ret tt
  | bar :: l' => next <- body bar pb_offset ;; draw_bars body l' next
  end.

(** What [progressbar_draw] computes before its loop over the bars:
    the local variables [pb_x], [pb_y], [pb_width], [pb_height], [unit]
    and the fields [x] and [width] it gives [w->area]. *)
Record geometry : Type := mk_geometry {
  g_pb_x : Z;
  g_pb_y : Z;
  g_pb_width : Z;
  g_pb_height : Z;
  g_unit : Z;
  g_area_x : Z;
  g_area_width : Z
}.

(** [pb_width], [unit] and [w->area.width]. *)
Definition layout_widths (d : progressbar_data_t) (nbbars : Z)
  : result (Z * Z * Z) :=
  if vertical d then
    pb_width <~ int_div (width d
                         - 2 * (border_width d + border_padding d) * nbbars
                         - gap d * (nbbars - 1))%cint nbbars ;;
    Ok (pb_width, 0,
        (nbbars * (pb_width + 2 * (border_width d + border_padding d)
                   + gap d) - gap d)%cint)
  else
    let pb_width :=
      (width d - 2 * (border_width d + border_padding d))%cint in
    if quantized d then
      unit <~ int_div (pb_width + ticks_gap d)%cint (ticks_count d) ;;
      let pb_width := (unit * ticks_count d - ticks_gap d)%cint in
      Ok (pb_width, unit,
          (pb_width + 2 * (border_width d + border_padding d))%cint)
    else
      Ok (pb_width, 0,
          (pb_width + 2 * (border_width d + border_padding d))%cint).

(** [pb_height] and [unit] of a vertical widget. *)
Definition layout_height_vertical (ctx : draw_context_t)
    (d : progressbar_data_t) : result (Z * Z) :=
  h <~ int_of_float
         (F64.add
            (F64.of_float (F32.mul (F32.of_int (ctx_height ctx)) (height d)))
            lit_0_5) ;;
  let pb_height := (h - 2 * (border_width d + border_padding d))%cint in
  if quantized d then
    (* a unit includes a tick and ticks_gap *)
    unit <~ int_div (pb_height + ticks_gap d)%cint (ticks_count d) ;;
    Ok ((unit * ticks_count d - ticks_gap d)%cint, unit)
  else Ok (pb_height, 0).

(** [pb_height] of a horizontal widget. *)
Definition layout_height_horizontal (ctx : draw_context_t)
    (d : progressbar_data_t) (nbbars : Z) : result Z :=
  int_of_float
    (F64.add
       (F64.of_float
          (F32.div
             (F32.sub
                (F32.sub
                   (F32.mul (F32.of_int (ctx_height ctx)) (height d))
                   (F32.of_int
                      (nbbars * 2
                       * (border_width d + border_padding d))%cint))
                (F32.of_int (gap d * (nbbars - 1))%cint))
             (F32.of_int nbbars)))
       lit_0_5).

(** [pb_y], the same expression in both orientations; [w->area.y] is 0. *)
Definition layout_pb_y (ctx : draw_context_t) (d : progressbar_data_t)
  : result Z :=
  t <~ int_of_float
         (F32.mul (F32.of_int (ctx_height ctx))
                  (F32.sub (F32.of_int 1) (height d))) ;;
  q <~ int_div t 2 ;;
  Ok (0 + q + border_width d + border_padding d)%cint.

(** Everything up to the loop over the bars. *)
Definition progressbar_geometry (ctx : draw_context_t) (align : alignment_t)
    (d : progressbar_data_t) (offset : Z) : result geometry :=
  let nbbars := count_bars (bars d) in
  wl <~ layout_widths d nbbars ;;
  let '(pb_width, unit, w_width) := wl in
  let w_x := widget_calculate_offset (ctx_width ctx) w_width offset align in
  let pb_x := (w_x + border_width d + border_padding d)%cint in
  if vertical d then
    hu <~ layout_height_vertical ctx d ;;
    pb_y <~ layout_pb_y ctx d ;;
    Ok (mk_geometry pb_x pb_y pb_width (fst hu) (snd hu) w_x w_width)
  else
    pb_height <~ layout_height_horizontal ctx d nbbars ;;
    pb_y <~ layout_pb_y ctx d ;;
    Ok (mk_geometry pb_x pb_y pb_width pb_height unit w_x w_width).

(** [progressbar_draw (ctx, screen, w, offset, used, p)]: [align] is
    [w->widget->align] and [d] is [w->widget->data]; the result is the
    value returned, the commands and [w->area] are in the state. *)
Definition progressbar_draw (fuel : nat) (ctx : draw_context_t)
    (align : alignment_t) (d : progressbar_data_t) (offset : Z) : Draw Z :=
  match bars d with
  | [] => ret 0
  | _ :: _ =>
      g <- lift (progressbar_geometry ctx align d offset) ;;
      a <- get_area ;;
      set_area {| area_x := g_area_x g; area_y := 0;
                  area_width := g_area_width g;
                  area_height := area_height a |} ;;;
      draw_bars
        ((if vertical d then draw_bar_vertical else draw_bar_horizontal)
           fuel d (g_pb_x g) (g_pb_y g) (g_pb_width g) (g_pb_height g)
           (g_unit g))
        (bars d) 0 ;;;
      a <- get_area ;;
      set_area {| area_x := area_x a; area_y := area_y a;
                  area_width := area_width a;
                  area_height := ctx_height ctx |} ;;;
      a <- get_area ;;
      ret (area_width a)
  end.

End Widget.

(* ------------------------------------------------------------------ *)
(** ** A host for concrete runs *)

(** Colours are their specifications; the empty specification does not
    resolve; a widget is placed at the offset it is given. *)
#[export] Instance sample_host : Host := {|
  xcolor_t := string;
  xcolor_zero := EmptyString;
  xcolor_new := fun colstr color =>
    if String.eqb colstr EmptyString then (false, color) else (true, colstr);
  theme_fg := "fg"%string;
  theme_bg := "bg"%string;
  alignment_t := bool;
  widget_calculate_offset := fun barwidth widgetwidth offset align => offset
|}.

(** An empty property table. *)
Definition no_properties : bar_properties :=
  mk_bar_properties None None None None None None None None None.

(** A widget's data with its layout parameters replaced. *)
Definition with_layout `{Host} (d : progressbar_data_t)
    (w g bw bp tg tc : Z) (v : bool) : progressbar_data_t :=
  mk_data w g bw bp tg tc v (height d) (bars d).

(** The state a draw call starts from. *)
Definition fresh_state `{Host} : draw_state :=
  mk_draw_state [] (mk_area 0 0 0 0).

(** A widget with one bar ["a"] of range 0..100 holding [v]. *)
Definition one_bar (v : Z) : progressbar_data_t :=
  luaA_progressbar_bar_data_add progressbar_new "a" (F64.of_int v).

(** A widget with the bars ["a"] holding 50 and ["b"] holding 20. *)
Definition two_bars : progressbar_data_t :=
  luaA_progressbar_bar_data_add (one_bar 50) "b" (F64.of_int 20).

(** The two bars side by side: [width=50, gap=2, border_width=1,
    border_padding=1], no ticks, [vertical]. *)
Definition two_bars_vertical : progressbar_data_t :=
  with_layout two_bars 50 2 1 1 1 0 true.

(** The two bars stacked, with the layout of a new widget. *)
Definition two_bars_horizontal : progressbar_data_t := two_bars.

(** The canvas of the sample runs. *)
Definition sample_ctx : draw_context_t := mk_ctx 200 20.

(** Properties that set [fg_off] to the colour ["off"], and [reverse]. *)
Definition off_properties (rev : bool) : bar_properties :=
  mk_bar_properties None None (Some "off"%string) None None None None None
    (Some rev).

(** One bar holding 50 of 0..100, reversed, in a new (horizontal) widget
    and in a vertical one. *)
Definition reversed_bar : progressbar_data_t :=
  luaA_progressbar_bar_properties_set (one_bar 50) "a" (off_properties true).

Definition reversed_bar_vertical : progressbar_data_t :=
  with_layout reversed_bar 80 2 1 0 1 0 true.

(** One bar holding 50 of 0..100 in a widget of ten ticks:
    [width=80, border_width=1, ticks_count=10, ticks_gap=1]. *)
Definition ten_ticks : progressbar_data_t :=
  with_layout
    (luaA_progressbar_bar_properties_set (one_bar 50) "a"
       (off_properties false))
    80 2 1 0 1 10 false.

(** The first bar of a widget. *)
Definition first_bar (d : progressbar_data_t) : bar_t :=
  hd (new_bar EmptyString) (bars d).

(** The commands a run emitted, if it did not fault. *)
Definition emitted_commands (r : result (Z * draw_state))
  : option (list draw_cmd) :=
  match r with
  | Ok (_, st) => Some (emitted st)
  | Fault _ => None
  end.

(** The solid rectangles of a colour among some commands. *)
Definition solid_of_color (c : string) (cmd : draw_cmd) : bool :=
  match cmd with
  | DrawRectangle _ _ true c' => String.eqb c c'
  | _ => false
  end.

(* ------------------------------------------------------------------ *)
(** ** Facts about C integers *)

Lemma wrap_small (z : Z) : CInt.in_int z -> CInt.wrap z = z.
Proof.
  unfold CInt.in_int, CInt.INT_MIN, CInt.INT_MAX, CInt.wrap. intros H.
  rewrite Z.mod_small; lia.
Qed.

Lemma wrap_in_int (z : Z) : CInt.in_int (CInt.wrap z).
Proof.
  unfold CInt.in_int, CInt.INT_MIN, CInt.INT_MAX, CInt.wrap.
  pose proof (Z.mod_pos_bound (z + 2 ^ 31) (2 ^ 32) ltac:(lia)). lia.
Qed.

Lemma truthy_true (z : Z) : CInt.truthy z = true <-> z <> 0.
Proof.
  unfold CInt.truthy. rewrite negb_true_iff, Z.eqb_neq. tauto.
Qed.

Lemma truthy_false (z : Z) : CInt.truthy z = false <-> z = 0.
Proof.
  unfold CInt.truthy. rewrite negb_false_iff, Z.eqb_eq. tauto.
Qed.

Lemma int_div_ok (a b : Z) :
  b <> 0 -> b <> -1 -> int_div a b = Ok (Z.quot a b).
Proof.
  intros H0 H1. unfold int_div.
  destruct (Z.eqb_spec b 0); [contradiction|].
  destruct (Z.eqb_spec b (-1)); [contradiction|].
  now rewrite andb_false_r.
Qed.

(* ------------------------------------------------------------------ *)
(** * Facts about the floating-point formats *)

(** ** Digits and shifts *)

Lemma digits2_pos_bounds (p : positive) :
  2 ^ (Zpos (digits2_pos p) - 1) <= Zpos p < 2 ^ Zpos (digits2_pos p).
Proof.
  induction p as [p IH|p IH|]; cbn [digits2_pos].
  - rewrite Pos2Z.inj_succ.
    replace (Z.succ (Zpos (digits2_pos p)) - 1) with (Z.succ (Zpos (digits2_pos p) - 1)) by lia.
    rewrite !Z.pow_succ_r by lia. lia.
  - rewrite Pos2Z.inj_succ.
    replace (Z.succ (Zpos (digits2_pos p)) - 1) with (Z.succ (Zpos (digits2_pos p) - 1)) by lia.
    rewrite !Z.pow_succ_r by lia. lia.
  - simpl. lia.
Qed.

Lemma Zdigits2_unique (m k : Z) :
  2 ^ (k - 1) <= m < 2 ^ k -> 0 < m -> Zdigits2 m = k.
Proof.
  intros [Hlo Hhi] Hm. destruct m as [|p|p]; try lia. cbn [Zdigits2].
  pose proof (digits2_pos_bounds p) as [Hl Hh].
  set (d := Zpos (digits2_pos p)) in *.
  assert (Hk : 0 < k).
  { destruct (Z_lt_le_dec 0 k); auto.
    destruct (Z.eq_dec k 0) as [->|]; [simpl in Hhi; lia|].
    rewrite Z.pow_neg_r in Hhi by lia. lia. }
  destruct (Z_lt_le_dec d k) as [H|H].
  - assert (2 ^ d <= 2 ^ (k - 1)) by (apply Z.pow_le_mono_r; lia). lia.
  - destruct (Z_lt_le_dec k d) as [H'|H']; [|lia].
    assert (2 ^ k <= 2 ^ (d - 1)) by (apply Z.pow_le_mono_r; lia). lia.
Qed.

Lemma Zdigits2_bounds (m : Z) :
  0 < m -> 2 ^ (Zdigits2 m - 1) <= m < 2 ^ Zdigits2 m.
Proof.
  destruct m as [|p|p]; try lia. intros _. apply digits2_pos_bounds.
Qed.

Lemma Zdigits2_pos (m : Z) : 0 < m -> 0 < Zdigits2 m.
Proof. destruct m; simpl; lia. Qed.

Lemma Zdigits2_nonneg (m : Z) : 0 <= Zdigits2 m.
Proof. destruct m; simpl; lia. Qed.

Lemma Zdigits2_le (m n : Z) : 0 < m -> m <= n -> Zdigits2 m <= Zdigits2 n.
Proof.
  intros Hm Hn.
  pose proof (Zdigits2_bounds m Hm) as [Hl _].
  pose proof (Zdigits2_bounds n ltac:(lia)) as [_ Hh].
  destruct (Z_lt_le_dec (Zdigits2 n) (Zdigits2 m)); [|lia].
  assert (2 ^ Zdigits2 n <= 2 ^ (Zdigits2 m - 1)).
  { apply Z.pow_le_mono_r; try lia. }
  lia.
Qed.

Lemma Zdigits2_mul_pow2 (m n : Z) :
  0 < m -> 0 <= n -> Zdigits2 (m * 2 ^ n) = Zdigits2 m + n.
Proof.
  intros Hm Hn. pose proof (Zdigits2_bounds m Hm) as [Hl Hh].
  pose proof (Zdigits2_pos m Hm).
  apply Zdigits2_unique; [|nia].
  replace (Zdigits2 m + n - 1) with (Zdigits2 m - 1 + n) by lia.
  rewrite !Z.pow_add_r by lia.
  pose proof (Z.pow_pos_nonneg 2 n ltac:(lia) Hn). nia.
Qed.

Lemma Zdigits2_div_pow2 (m n : Z) :
  0 <= n -> 2 ^ n <= m -> Zdigits2 (m / 2 ^ n) = Zdigits2 m - n.
Proof.
  intros Hn Hm.
  pose proof (Z.pow_pos_nonneg 2 n ltac:(lia) Hn) as Hp.
  pose proof (Zdigits2_bounds m ltac:(lia)) as [Hl Hh].
  assert (Hd : n < Zdigits2 m).
  { destruct (Z_lt_le_dec n (Zdigits2 m)); auto.
    assert (2 ^ Zdigits2 m <= 2 ^ n)
      by (apply Z.pow_le_mono_r; lia). lia. }
  assert (Hq : 0 < m / 2 ^ n) by (apply Z.div_str_pos; lia).
  apply Zdigits2_unique; auto.
  replace (Zdigits2 m - 1) with ((Zdigits2 m - n - 1) + n) in Hl by lia.
  replace (Zdigits2 m) with ((Zdigits2 m - n) + n) in Hh at 1 by lia.
  rewrite Z.pow_add_r in Hl, Hh by lia.
  split.
  - apply Z.div_le_lower_bound; lia.
  - apply Z.div_lt_upper_bound; lia.
Qed.

Lemma iter_xO_mul (m d : positive) :
  Zpos (Pos.iter xO m d) = Zpos m * 2 ^ Zpos d.
Proof.
  induction d as [|d IH] using Pos.peano_ind.
  - simpl. lia.
  - rewrite Pos.iter_succ, Pos2Z.inj_succ, Z.pow_succ_r by lia.
    rewrite Pos2Z.inj_xO, IH. ring.
Qed.

Lemma iter_pos_nat {A} (f : A -> A) (p : positive) (x : A) :
  iter_pos f p x = Nat.iter (Pos.to_nat p) f x.
Proof.
  revert x. induction p as [p IH|p IH|]; intros x; cbn [iter_pos].
  - rewrite !IH, Pos2Nat.inj_xI.
    replace (S (2 * Pos.to_nat p))%nat with (Pos.to_nat p + (Pos.to_nat p + 1))%nat by lia.
    rewrite !Nat.iter_add. simpl. reflexivity.
  - rewrite !IH, Pos2Nat.inj_xO.
    replace (2 * Pos.to_nat p)%nat with (Pos.to_nat p + Pos.to_nat p)%nat by lia.
    rewrite Nat.iter_add. reflexivity.
  - reflexivity.
Qed.

Lemma shr_1_m (r : shr_record) :
  0 <= shr_m r -> shr_m (shr_1 r) = shr_m r / 2.
Proof.
  destruct r as [m rb sb]. cbn [shr_m]. intros Hm.
  destruct m as [|[p|p|]|p]; cbn [shr_1 shr_m].
  - reflexivity.
  - rewrite (Pos2Z.inj_xI p). Z.div_mod_to_equations. lia.
  - rewrite (Pos2Z.inj_xO p). Z.div_mod_to_equations. lia.
  - reflexivity.
  - lia.
Qed.

Lemma shr_iter_m (n : nat) (r : shr_record) :
  0 <= shr_m r ->
  shr_m (Nat.iter n shr_1 r) = shr_m r / 2 ^ Z.of_nat n.
Proof.
  intros Hm. induction n as [|n IH].
  - simpl. now rewrite Z.div_1_r.
  - rewrite Nat2Z.inj_succ, Z.pow_succ_r by lia. rewrite Nat.iter_succ.
    rewrite shr_1_m.
    + rewrite IH, Z.div_div by lia. f_equal. lia.
    + rewrite IH. apply Z.div_pos; lia.
Qed.

(** ** Canonical mantissas and the rounding of a format *)

Section Rounding.

Variables prec emax : Z.
Hypothesis prec_pos : 0 < prec.

Local Abbreviation fexp := (fexp prec emax).
Local Abbreviation emin := (emin prec emax).

Lemma fexp_le (k1 k2 : Z) : k1 <= k2 -> fexp k1 <= fexp k2.
Proof. unfold SpecFloat.fexp. lia. Qed.

Lemma fexp_ge_emin (k : Z) : emin <= fexp k.
Proof. unfold SpecFloat.fexp. lia. Qed.

(** What [canonical_mantissa] says of the digits of a mantissa. *)
Lemma canonical_digits (m : positive) (e : Z) :
  canonical_mantissa prec emax m e = true ->
  Zpos (digits2_pos m) <= prec /\ emin <= e /\
  (emin < e -> Zpos (digits2_pos m) = prec).
Proof.
  unfold canonical_mantissa, SpecFloat.fexp. intros H.
  apply Z.eqb_eq in H. lia.
Qed.

Lemma bounded_inv (m : positive) (e : Z) :
  bounded prec emax m e = true ->
  canonical_mantissa prec emax m e = true /\ e <= emax - prec.
Proof.
  unfold bounded. intros H. apply andb_true_iff in H.
  destruct H as [H1 H2]. apply Z.leb_le in H2. auto.
Qed.

(** The mantissa of [m * 2^e] at the exponent [ez <= e]. *)
Lemma shl_align_fst (m : positive) (e ez : Z) :
  ez <= e -> Zpos (fst (shl_align m e ez)) = Zpos m * 2 ^ (e - ez).
Proof.
  intros H. unfold shl_align.
  destruct (ez - e) as [|d|d] eqn:E; cbn [fst]; try lia.
  - replace (e - ez) with 0 by lia. simpl. lia.
  - rewrite iter_xO_mul. f_equal. f_equal. lia.
Qed.

Lemma shl_align_snd (m : positive) (e ez : Z) :
  snd (shl_align m e ez) = Z.min e ez.
Proof.
  unfold shl_align. destruct (ez - e) eqn:E; cbn [snd]; lia.
Qed.

(** The order of two canonical mantissas is that of their exponents
    first. *)
Lemma canonical_lt_exponent (m1 m2 : positive) (e1 e2 : Z) :
  canonical_mantissa prec emax m1 e1 = true ->
  canonical_mantissa prec emax m2 e2 = true ->
  e1 < e2 ->
  Zpos m1 < Zpos m2 * 2 ^ (e2 - e1).
Proof.
  intros H1 H2 He.
  destruct (canonical_digits _ _ H1) as (Hd1 & Hm1 & _).
  destruct (canonical_digits _ _ H2) as (_ & _ & Hd2).
  specialize (Hd2 ltac:(lia)).
  pose proof (digits2_pos_bounds m1) as [_ Hu].
  pose proof (digits2_pos_bounds m2) as [Hl _].
  rewrite Hd2 in Hl.
  assert (2 ^ Zpos (digits2_pos m1) <= 2 ^ prec)
    by (apply Z.pow_le_mono_r; lia).
  assert (2 ^ 1 <= 2 ^ (e2 - e1)) by (apply Z.pow_le_mono_r; lia).
  assert (2 ^ prec = 2 ^ (prec - 1) * 2 ^ 1).
  { rewrite <- Z.pow_add_r by lia. f_equal. lia. }
  nia.
Qed.

(** The value of a finite number scaled to the exponent [ez]. *)
Definition scaled (ez : Z) (x : spec_float) : Z :=
  match x with
  | S754_finite s m e => cond_Zopp s (Zpos m * 2 ^ (e - ez))
  | _ => 0
  end.

Lemma SFcompare_finite (s1 s2 : bool) (m1 m2 : positive) (e1 e2 : Z) :
  canonical_mantissa prec emax m1 e1 = true ->
  canonical_mantissa prec emax m2 e2 = true ->
  SFcompare (S754_finite s1 m1 e1) (S754_finite s2 m2 e2)
  = Some (Z.compare (scaled (Z.min e1 e2) (S754_finite s1 m1 e1))
                    (scaled (Z.min e1 e2) (S754_finite s2 m2 e2))).
Proof.
  intros H1 H2. cbn [SFcompare scaled].
  assert (P1 : 0 < Zpos m1 * 2 ^ (e1 - Z.min e1 e2)).
  { apply Z.mul_pos_pos; [lia|]. apply Z.pow_pos_nonneg; lia. }
  assert (P2 : 0 < Zpos m2 * 2 ^ (e2 - Z.min e1 e2)).
  { apply Z.mul_pos_pos; [lia|]. apply Z.pow_pos_nonneg; lia. }
  assert (Hcmp : Z.compare (Zpos m1 * 2 ^ (e1 - Z.min e1 e2))
                           (Zpos m2 * 2 ^ (e2 - Z.min e1 e2))
                 = match Z.compare e1 e2 with
                   | Lt => Lt | Gt => Gt
                   | Eq => Pos.compare_cont Eq m1 m2
                   end).
  { destruct (Z.compare_spec e1 e2) as [E|E|E].
    - subst e2. rewrite Z.min_id, Z.sub_diag. simpl (2 ^ 0).
      rewrite !Z.mul_1_r. reflexivity.
    - rewrite Z.min_l, Z.sub_diag by lia. simpl (2 ^ 0).
      rewrite Z.mul_1_r. apply Z.compare_lt_iff.
      now apply canonical_lt_exponent.
    - rewrite Z.min_r, Z.sub_diag by lia. simpl (2 ^ 0).
      rewrite Z.mul_1_r. apply Z.compare_gt_iff.
      now apply canonical_lt_exponent. }
  destruct s1, s2; cbn [cond_Zopp]; f_equal.
  - rewrite Z.compare_opp.
    rewrite (Z.compare_antisym (Zpos m1 * 2 ^ (e1 - Z.min e1 e2))), Hcmp.
    destruct (Z.compare e1 e2); reflexivity.
  - symmetry. apply Z.compare_lt_iff. lia.
  - symmetry. apply Z.compare_gt_iff. lia.
  - now rewrite Hcmp.
Qed.


Lemma shr_iter_nonneg (n : nat) (r : shr_record) :
  0 <= shr_m r -> 0 <= shr_m (Nat.iter n shr_1 r).
Proof.
  intros H. rewrite shr_iter_m by exact H. apply Z.div_pos; lia.
Qed.

Lemma shr_fst_m (r : shr_record) (e n : Z) :
  0 <= shr_m r -> shr_m (fst (shr r e n)) = shr_m r / 2 ^ Z.max 0 n.
Proof.
  intros H. unfold shr. destruct n as [|p|p]; cbn [fst].
  - change (2 ^ Z.max 0 0) with 1. now rewrite Z.div_1_r.
  - rewrite iter_pos_nat, shr_iter_m, positive_nat_Z by exact H.
    reflexivity.
  - change (2 ^ Z.max 0 (Zneg p)) with 1. now rewrite Z.div_1_r.
Qed.

Lemma shr_snd (r : shr_record) (e n : Z) :
  snd (shr r e n) = e + Z.max 0 n.
Proof. unfold shr. destruct n; cbn [snd]; lia. Qed.

Lemma shr_record_of_loc_m (m : Z) (l : location) :
  shr_m (shr_record_of_loc m l) = m.
Proof. destruct l as [|[ | | ]]; reflexivity. Qed.

(** Truncating a mantissa to the exponent of its format leaves a
    mantissa that needs no more truncation. *)
Lemma shr_fexp_canonical (m e : Z) (l : location) :
  0 <= m -> e <= fexp (Zdigits2 m + e) ->
  0 <= shr_m (fst (shr_fexp prec emax m e l)) /\
  fexp (Zdigits2 (shr_m (fst (shr_fexp prec emax m e l)))
        + snd (shr_fexp prec emax m e l))
  = snd (shr_fexp prec emax m e l).
Proof.
  intros Hm He. unfold shr_fexp.
  set (n := fexp (Zdigits2 m + e) - e).
  rewrite shr_snd, shr_fst_m, shr_record_of_loc_m
    by (rewrite shr_record_of_loc_m; exact Hm).
  assert (Hn : 0 <= n) by (subst n; lia).
  rewrite Z.max_r by exact Hn.
  pose proof (Z.pow_pos_nonneg 2 n ltac:(lia) Hn) as Hp.
  split; [apply Z.div_pos; lia|].
  destruct (Z_le_gt_dec (2 ^ n) m) as [Hle|Hgt].
  - rewrite Zdigits2_div_pow2 by lia.
    replace (Zdigits2 m - n + (e + n)) with (Zdigits2 m + e) by lia.
    subst n. lia.
  - rewrite Z.div_small by lia. cbn [Zdigits2].
    assert (Hd : Zdigits2 m <= n).
    { destruct (Z.eq_dec m 0) as [->|]; [simpl; lia|].
      pose proof (Zdigits2_bounds m ltac:(lia)) as [Hl _].
      destruct (Z_le_gt_dec (Zdigits2 m) n); auto.
      assert (2 ^ n <= 2 ^ (Zdigits2 m - 1))
        by (apply Z.pow_le_mono_r; lia). lia. }
    subst n. unfold SpecFloat.fexp in *. lia.
Qed.

Lemma round_nearest_even_bounds (m : Z) (l : location) :
  m <= round_nearest_even m l <= m + 1.
Proof.
  destruct l as [|[ | | ]]; cbn [round_nearest_even]; try lia.
  destruct (Z.even m); lia.
Qed.

Lemma Zdigits2_mono (m n : Z) : 0 <= m -> m <= n -> Zdigits2 m <= Zdigits2 n.
Proof.
  intros Hm Hn. destruct (Z.eq_dec m 0) as [->|].
  - apply Zdigits2_nonneg.
  - apply Zdigits2_le; lia.
Qed.

(** The result of a rounding is a number of the format. *)
Lemma binary_round_aux_valid (s : bool) (mx ex : Z) (lx : location) :
  0 <= mx -> ex <= fexp (Zdigits2 mx + ex) ->
  valid_binary prec emax (binary_round_aux prec emax s mx ex lx) = true.
Proof.
  intros Hm He. unfold binary_round_aux.
  destruct (shr_fexp_canonical mx ex lx Hm He) as [H1 C1].
  destruct (shr_fexp prec emax mx ex lx) as [r1 e1]. cbn [fst snd] in *.
  set (N := round_nearest_even (shr_m r1) (loc_of_shr_record r1)).
  pose proof (round_nearest_even_bounds (shr_m r1) (loc_of_shr_record r1))
    as HN. fold N in HN.
  assert (HeN : e1 <= fexp (Zdigits2 N + e1)).
  { rewrite <- C1 at 1. apply fexp_le.
    pose proof (Zdigits2_mono (shr_m r1) N H1 ltac:(lia)). lia. }
  destruct (shr_fexp_canonical N e1 loc_Exact ltac:(lia) HeN) as [H2 C2].
  destruct (shr_fexp prec emax N e1 loc_Exact) as [r2 e2].
  cbn [fst snd] in *.
  destruct (shr_m r2) as [|m|m]; try reflexivity.
  destruct (Z.leb_spec e2 (emax - prec)); [|reflexivity].
  cbn [valid_binary]. unfold bounded, canonical_mantissa.
  cbn [Zdigits2] in C2. rewrite C2, Z.eqb_refl. cbn [andb].
  now apply Z.leb_le.
Qed.

Lemma binary_round_valid (s : bool) (m : positive) (e : Z) :
  valid_binary prec emax (binary_round prec emax s m e) = true.
Proof.
  unfold binary_round.
  pose proof (shl_align_snd m e (fexp (Zpos (digits2_pos m) + e))) as Hs.
  destruct (Z_le_gt_dec (fexp (Zpos (digits2_pos m) + e)) e) as [Hle|Hgt].
  - pose proof (shl_align_fst m e _ Hle) as Hf.
    destruct (shl_align m e (fexp (Zpos (digits2_pos m) + e))) as [mz ez].
    cbn [fst snd] in *.
    apply binary_round_aux_valid; [lia|].
    rewrite Hf, Zdigits2_mul_pow2 by lia. cbn [Zdigits2].
    rewrite Z.min_r in Hs by lia. subst ez.
    replace (Zpos (digits2_pos m) + (e - fexp (Zpos (digits2_pos m) + e))
             + fexp (Zpos (digits2_pos m) + e))
      with (Zpos (digits2_pos m) + e) by lia.
    lia.
  - unfold shl_align.
    destruct (fexp (Zpos (digits2_pos m) + e) - e) eqn:E; try lia.
    apply binary_round_aux_valid; [lia|]. cbn [Zdigits2]. lia.
Qed.

Lemma binary_normalize_valid (m e : Z) (szero : bool) :
  valid_binary prec emax (binary_normalize prec emax m e szero) = true.
Proof.
  destruct m; cbn [binary_normalize]; auto using binary_round_valid.
Qed.

(** The sign of a number, when it has one. *)
Definition has_sign (s : bool) (f : spec_float) : Prop :=
  match f with
  | S754_zero s' | S754_infinity s' | S754_finite s' _ _ => s' = s
  | S754_nan => True
  end.

Lemma binary_round_aux_sign (s : bool) (mx ex : Z) (lx : location) :
  has_sign s (binary_round_aux prec emax s mx ex lx).
Proof.
  unfold binary_round_aux.
  destruct (shr_fexp prec emax mx ex lx) as [r1 e1].
  destruct (shr_fexp prec emax _ e1 loc_Exact) as [r2 e2].
  destruct (shr_m r2); cbn; auto.
  destruct (e2 <=? emax - prec); cbn; auto.
Qed.

Lemma binary_round_sign (s : bool) (m : positive) (e : Z) :
  has_sign s (binary_round prec emax s m e).
Proof.
  unfold binary_round. destruct (shl_align m e _).
  apply binary_round_aux_sign.
Qed.

(** A number of the format rounds to itself. *)
Lemma binary_round_aux_canonical (s : bool) (m : positive) (e : Z) :
  bounded prec emax m e = true ->
  binary_round_aux prec emax s (Zpos m) e loc_Exact = S754_finite s m e.
Proof.
  intros H. destruct (bounded_inv _ _ H) as [Hc Hb].
  unfold canonical_mantissa in Hc. apply Z.eqb_eq in Hc.
  unfold binary_round_aux, shr_fexp. cbn [Zdigits2 shr_record_of_loc].
  rewrite Hc, Z.sub_diag. cbn [shr shr_m loc_of_shr_record round_nearest_even].
  cbn [Zdigits2 shr_record_of_loc].
  rewrite Hc, Z.sub_diag. cbn [shr shr_m].
  apply Z.leb_le in Hb. now rewrite Hb.
Qed.

Lemma shr_iter_exact (n : nat) (m : Z) :
  0 <= m ->
  Nat.iter n shr_1 (Build_shr_record (m * 2 ^ Z.of_nat n) false false)
  = Build_shr_record m false false.
Proof.
  intros Hm. induction n as [|n IH].
  - simpl. f_equal. lia.
  - rewrite Nat.iter_succ_r.
    rewrite Nat2Z.inj_succ, Z.pow_succ_r by lia.
    replace (m * (2 * 2 ^ Z.of_nat n)) with (2 * (m * 2 ^ Z.of_nat n)) by ring.
    assert (Hk : 0 <= m * 2 ^ Z.of_nat n) by (apply Z.mul_nonneg_nonneg; lia).
    destruct (m * 2 ^ Z.of_nat n) as [|k|k]; try lia; exact IH.
Qed.

End Rounding.

(** ** Signs *)

(** A number that is not below zero when it is finite: what is not finite
    converts to no [int]. *)
Definition not_negative (f : spec_float) : Prop :=
  match f with
  | S754_finite s _ _ => s = false
  | _ => True
  end.

Section Signs.

Variables prec emax : Z.
Hypothesis prec_pos : 0 < prec.

Lemma binary_round_aux_not_negative (mx ex : Z) (lx : location) :
  not_negative (binary_round_aux prec emax false mx ex lx).
Proof.
  pose proof (binary_round_aux_sign prec emax false mx ex lx) as H.
  destruct (binary_round_aux prec emax false mx ex lx); cbn in *; auto.
Qed.

Lemma binary_normalize_not_negative (m e : Z) (szero : bool) :
  0 <= m -> not_negative (binary_normalize prec emax m e szero).
Proof.
  intros Hm. destruct m as [|p|p]; try lia; cbn [binary_normalize].
  - exact I.
  - unfold binary_round. destruct (shl_align p e _).
    apply binary_round_aux_not_negative.
Qed.

Lemma SFmul_not_negative (x y : spec_float) :
  not_negative x -> not_negative y -> not_negative (SFmul prec emax x y).
Proof.
  destruct x as [sx|sx| |sx mx ex], y as [sy|sy| |sy my ey];
    cbn [not_negative SFmul]; intros Hx Hy; subst; auto.
  apply binary_round_aux_not_negative.
Qed.

Lemma SFdiv_not_negative (x y : spec_float) :
  not_negative x -> not_negative y -> not_negative (SFdiv prec emax x y).
Proof.
  destruct x as [sx|sx| |sx mx ex], y as [sy|sy| |sy my ey];
    cbn [not_negative SFdiv]; intros Hx Hy; subst; auto.
  destruct (SFdiv_core_binary prec emax (Zpos mx) ex (Zpos my) ey)
    as [[mz ez] lz].
  apply binary_round_aux_not_negative.
Qed.

Lemma SFadd_not_negative (x y : spec_float) :
  not_negative x -> not_negative y -> not_negative (SFadd prec emax x y).
Proof.
  destruct x as [sx|sx| |sx mx ex], y as [sy|sy| |sy my ey];
    cbn [not_negative SFadd]; intros Hx Hy; subst; auto;
    try (destruct sx; try destruct sy; exact I).
  apply binary_normalize_not_negative. cbn [cond_Zopp]. lia.
Qed.

(** The order of two finite numbers of the format is that of their
    values. *)
Lemma SFleb_scaled (sx sy : bool) (mx my : positive) (ex ey : Z) :
  bounded prec emax mx ex = true -> bounded prec emax my ey = true ->
  SFleb (S754_finite sy my ey) (S754_finite sx mx ex) = true ->
  scaled (Z.min ex ey) (S754_finite sy my ey)
  <= scaled (Z.min ex ey) (S754_finite sx mx ex).
Proof.
  intros Vx Vy. unfold SFleb.
  destruct (bounded_inv _ _ _ _ Vx) as [Cx _].
  destruct (bounded_inv _ _ _ _ Vy) as [Cy _].
  rewrite (SFcompare_finite prec emax prec_pos sy sx my mx ey ex Cy Cx).
  rewrite (Z.min_comm ey ex).
  destruct (Z.compare_spec (scaled (Z.min ex ey) (S754_finite sy my ey))
                           (scaled (Z.min ex ey) (S754_finite sx mx ex)));
    intros Hc; try discriminate; lia.
Qed.

(** The difference of two numbers of the format taken in their order. *)
Lemma SFsub_not_negative (x y : spec_float) :
  valid_binary prec emax x = true -> valid_binary prec emax y = true ->
  SFleb y x = true -> not_negative (SFsub prec emax x y).
Proof.
  intros Vx Vy Hle.
  destruct x as [sx|sx| |sx mx ex], y as [sy|sy| |sy my ey];
    cbn [not_negative SFsub]; auto;
    try (destruct sx; try destruct sy; exact I).
  - unfold SFleb in Hle. cbn [SFcompare] in Hle.
    destruct sy; [reflexivity | discriminate].
  - unfold SFleb in Hle. cbn [SFcompare] in Hle.
    destruct sx; [discriminate | reflexivity].
  - cbn [valid_binary] in Vx, Vy.
    pose proof (SFleb_scaled sx sy mx my ex ey Vx Vy Hle) as H.
    cbn [scaled] in H.
    rewrite !shl_align_fst by lia.
    apply binary_normalize_not_negative. lia.
Qed.

Lemma truncate_not_negative (x : spec_float) (z : Z) :
  not_negative x -> truncate x = Some z -> 0 <= z.
Proof.
  destruct x as [s|s| |s m e]; cbn [not_negative truncate]; intros H E;
    try discriminate.
  - injection E as <-. lia.
  - subst s. injection E as <-. cbn [cond_Zopp].
    destruct e as [|p|p].
    + lia.
    + assert (H : 0 <= Zpos m * 2 ^ Zpos p)
        by (apply Z.mul_nonneg_nonneg; [lia|]; apply Z.pow_nonneg; lia).
      exact H.
    + assert (H : 0 <= Zpos m / 2 ^ (- Zneg p))
        by (apply Z.div_pos; [lia|]; apply Z.pow_pos_nonneg; lia).
      exact H.
Qed.

Lemma int_of_float_not_negative (x : spec_float) (z : Z) :
  not_negative x -> int_of_float x = Ok z -> 0 <= z.
Proof.
  unfold int_of_float. intros H.
  destruct (truncate x) as [t|] eqn:E; [|discriminate].
  destruct (CInt.in_intb t); [|discriminate].
  intros E'. injection E' as <-. eapply truncate_not_negative; eauto.
Qed.

End Signs.

Lemma fof_float_not_negative (fmt : format) (x : spec_float) :
  not_negative x -> not_negative (fof_float fmt x).
Proof.
  destruct x as [s|s| |s m e]; cbn [not_negative fof_float]; auto.
  intros ->. apply binary_normalize_not_negative. cbn. lia.
Qed.

Lemma fof_int_not_negative (fmt : format) (z : Z) :
  0 <= z -> not_negative (fof_int fmt z).
Proof. intros H. now apply binary_normalize_not_negative. Qed.

(** ** Conversions between [float] and [double] *)

Lemma float_to_double_exact (s : bool) (m : positive) (e : Z) :
  bounded 24 128 m e = true ->
  exists d : positive,
    Zpos d = 53 - Zpos (digits2_pos m) /\
    F64.of_float (S754_finite s m e)
    = S754_finite s (Pos.iter xO m d) (e - Zpos d).
Proof.
  intros H. destruct (bounded_inv _ _ _ _ H) as [Hc Hb].
  destruct (canonical_digits 24 128 m e Hc) as (Hd & He & _).
  unfold SpecFloat.emin in He.
  pose proof (digits2_pos_bounds m) as _.
  assert (Hpos : 0 < Zpos (digits2_pos m)) by lia.
  destruct (53 - Zpos (digits2_pos m)) as [|d|d] eqn:Ed; try lia.
  exists d. split; [reflexivity|].
  unfold F64.of_float, fof_float, fround.
  assert (Hn : binary_normalize (prec binary64) (emax binary64)
                 (cond_Zopp s (Zpos m)) e s
               = binary_round 53 1024 s m e) by (destruct s; reflexivity).
  rewrite Hn. unfold binary_round.
  assert (Hf : SpecFloat.fexp 53 1024 (Zpos (digits2_pos m) + e)
               = e - Zpos d).
  { unfold SpecFloat.fexp, SpecFloat.emin. lia. }
  rewrite Hf. unfold shl_align.
  replace (e - Zpos d - e) with (Zneg d) by lia.
  apply binary_round_aux_canonical.
  unfold bounded, canonical_mantissa.
  apply andb_true_iff. split.
  - apply Z.eqb_eq.
    change (Zpos (digits2_pos (Pos.iter xO m d)))
      with (Zdigits2 (Zpos (Pos.iter xO m d))).
    rewrite iter_xO_mul, Zdigits2_mul_pow2 by lia. cbn [Zdigits2].
    unfold SpecFloat.fexp, SpecFloat.emin. lia.
  - apply Z.leb_le. lia.
Qed.

(** A [float] converted to [double] and back is unchanged. *)
Lemma float_double_float (f : spec_float) :
  F32.valid f = true -> F32.of_double (F64.of_float f) = f.
Proof.
  destruct f as [s|s| |s m e]; try reflexivity.
  unfold F32.valid, fvalid. cbn [valid_binary prec emax binary32].
  intros H.
  destruct (float_to_double_exact s m e H) as (d & Hd & ->).
  destruct (bounded_inv _ _ _ _ H) as [Hc Hb].
  pose proof Hc as Hc'. unfold canonical_mantissa in Hc'.
  apply Z.eqb_eq in Hc'.
  unfold F32.of_double, fof_float, fround.
  assert (Hn : binary_normalize (prec binary32) (emax binary32)
                 (cond_Zopp s (Zpos (Pos.iter xO m d))) (e - Zpos d) s
               = binary_round 24 128 s (Pos.iter xO m d) (e - Zpos d))
    by (destruct s; reflexivity).
  rewrite Hn. unfold binary_round.
  assert (Hdig : Zpos (digits2_pos (Pos.iter xO m d))
                 = Zpos (digits2_pos m) + Zpos d).
  { change (Zpos (digits2_pos (Pos.iter xO m d)))
      with (Zdigits2 (Zpos (Pos.iter xO m d))).
    rewrite iter_xO_mul, Zdigits2_mul_pow2 by lia. reflexivity. }
  assert (Hf : SpecFloat.fexp 24 128
                 (Zpos (digits2_pos (Pos.iter xO m d)) + (e - Zpos d)) = e).
  { rewrite Hdig.
    replace (Zpos (digits2_pos m) + Zpos d + (e - Zpos d))
      with (Zpos (digits2_pos m) + e) by lia.
    exact Hc'. }
  rewrite Hf. unfold shl_align.
  replace (e - (e - Zpos d)) with (Zpos d) by lia.
  unfold binary_round_aux, shr_fexp.
  cbn [Zdigits2 shr_record_of_loc]. rewrite Hf.
  replace (e - (e - Zpos d)) with (Zpos d) by lia.
  assert (Hit : iter_pos shr_1 d
                  (Build_shr_record (Zpos (Pos.iter xO m d)) false false)
                = Build_shr_record (Zpos m) false false).
  { rewrite iter_pos_nat, iter_xO_mul, <- (positive_nat_Z d).
    apply shr_iter_exact. lia. }
  cbn [shr]. rewrite Hit.
  cbn [shr_m loc_of_shr_record round_nearest_even Zdigits2 shr_record_of_loc].
  replace (e - Zpos d + Zpos d) with e by lia.
  rewrite Hc', Z.sub_diag. cbn [shr shr_m].
  apply Z.leb_le in Hb. now rewrite Hb.
Qed.

Lemma F32_of_double_valid (x : spec_float) :
  F64.valid x = true -> F32.valid (F32.of_double x) = true.
Proof.
  intros _. destruct x as [s|s| |s m e]; try reflexivity.
  apply binary_normalize_valid. reflexivity.
Qed.

(* ------------------------------------------------------------------ *)
(** ** The registry: optional gradient colours *)

Section RegistryColors.

Context {host : Host}.

Lemma pcolor_set_failure_null (s : string) :
  fst (xcolor_new s xcolor_zero) = false ->
  progressbar_pcolor_set None s = None.
Proof.
  intros H. unfold progressbar_pcolor_set.
  destruct (xcolor_new s xcolor_zero) as [ok slot]. simpl in H. now subst.
Qed.

Lemma pcolor_set_keeps_nonnull (c : xcolor_t) (s : string) :
  progressbar_pcolor_set (Some c) s = Some (snd (xcolor_new s c)).
Proof.
  unfold progressbar_pcolor_set.
  destruct (xcolor_new s c) as [ok slot]. simpl.
  now rewrite andb_false_r.
Qed.

Lemma bar_set_range_colors (p : bar_properties) (bar : bar_t) :
  pfg_center (bar_set_range p bar) = pfg_center bar /\
  pfg_end (bar_set_range p bar) = pfg_end bar.
Proof.
  unfold bar_set_range.
  repeat match goal with
         | |- context [if ?c then _ else _] => destruct c
         end; simpl; auto.
Qed.

Lemma bar_apply_properties_pfg_center (p : bar_properties) (bar : bar_t) :
  pfg_center (bar_apply_properties p bar)
  = pcolor_set (p_fg_center p) (pfg_center bar).
Proof.
  unfold bar_apply_properties. simpl.
  now rewrite (proj1 (bar_set_range_colors p _)).
Qed.

Lemma bar_apply_properties_pfg_end (p : bar_properties) (bar : bar_t) :
  pfg_end (bar_apply_properties p bar)
  = pcolor_set (p_fg_end p) (pfg_end bar).
Proof.
  unfold bar_apply_properties. simpl.
  now rewrite (proj2 (bar_set_range_colors p _)).
Qed.

(** C10. A colour specification that does not resolve leaves an absent
    gradient colour absent and a present one present: this holds for
    [progressbar_pcolor_set] on a null and on a non-null pointer, and for
    the fields [pfg_center] and [pfg_end] of a bar after
    [bar_properties_set] was given such a specification under [fg_center]
    or [fg_end]. *)
Theorem failed_gradient_color_stays_absent :
  forall (s : string),
    (forall slot, fst (xcolor_new s slot) = false) ->
    progressbar_pcolor_set None s = None /\
    (forall c, progressbar_pcolor_set (Some c) s <> None) /\
    (forall p bar,
        p_fg_center p = Some s ->
        (pfg_center bar = None ->
         pfg_center (bar_apply_properties p bar) = None) /\
        (pfg_center bar <> None ->
         pfg_center (bar_apply_properties p bar) <> None)) /\
    (forall p bar,
        p_fg_end p = Some s ->
        (pfg_end bar = None ->
         pfg_end (bar_apply_properties p bar) = None) /\
        (pfg_end bar <> None ->
         pfg_end (bar_apply_properties p bar) <> None)).
Proof.
  intros s Hfail. repeat split.
  - apply pcolor_set_failure_null, Hfail.
  - intros c. now rewrite pcolor_set_keeps_nonnull.
  - intros Hnull. rewrite bar_apply_properties_pfg_center, H, Hnull.
    apply pcolor_set_failure_null, Hfail.
  - intros Hset. rewrite bar_apply_properties_pfg_center, H.
    destruct (pfg_center bar) as [c|]; [|contradiction].
    simpl. now rewrite pcolor_set_keeps_nonnull.
  - intros Hnull. rewrite bar_apply_properties_pfg_end, H, Hnull.
    apply pcolor_set_failure_null, Hfail.
  - intros Hset. rewrite bar_apply_properties_pfg_end, H.
    destruct (pfg_end bar) as [c|]; [|contradiction].
    simpl. now rewrite pcolor_set_keeps_nonnull.
Qed.

End RegistryColors.

(** The empty specification does not resolve on the sample host, whatever
    the slot holds. *)
Lemma failed_gradient_color_stays_absent_witness :
  (forall slot, fst (xcolor_new (Host := sample_host) EmptyString slot) = false) /\
  progressbar_pcolor_set (host := sample_host) None EmptyString = None.
Proof.
  assert (H : forall slot,
             fst (xcolor_new (Host := sample_host) EmptyString slot) = false)
    by (intros slot; reflexivity).
  split; [exact H|].
  exact (proj1 (failed_gradient_color_stays_absent EmptyString H)).
Defined.

(* ------------------------------------------------------------------ *)
(** ** Runs of the drawing code *)

Section DrawFacts.

Context {host : Host}.

(** The state after some more commands were emitted. *)
Definition appended (st : draw_state) (l : list draw_cmd) : draw_state :=
  mk_draw_state (emitted st ++ l) (w_area st).

Lemma appended_nil (st : draw_state) : appended st [] = st.
Proof. destruct st. unfold appended. simpl. now rewrite app_nil_r. Qed.

Lemma appended_app (st : draw_state) (l1 l2 : list draw_cmd) :
  appended (appended st l1) l2 = appended st (l1 ++ l2).
Proof. unfold appended. simpl. now rewrite app_assoc. Qed.

(** A computation that only emits the commands [l]. *)
Definition emits (c : Draw unit) (l : list draw_cmd) : Prop :=
  forall st, c st = Ok (tt, appended st l).

Lemma emits_emit (c : draw_cmd) : emits (emit c) [c].
Proof. intros st. reflexivity. Qed.

Lemma emits_ret : emits (ret tt) [].
Proof. intros st. unfold ret. now rewrite appended_nil. Qed.

Lemma emits_seq (c1 c2 : Draw unit) (l1 l2 : list draw_cmd) :
  emits c1 l1 -> emits c2 l2 -> emits (bind c1 (fun _ => c2)) (l1 ++ l2).
Proof.
  intros H1 H2 st. unfold bind. rewrite H1, H2. now rewrite appended_app.
Qed.

Lemma emits_when (b : bool) (c : Draw unit) (l : list draw_cmd) :
  emits c l -> emits (when b c) (if b then l else []).
Proof. intros H. destruct b; [exact H | apply emits_ret]. Qed.

(** The commands of the border of a bar. *)
Definition border_cmds (d : progressbar_data_t) (bar : bar_t)
    (rectangle : area_t) : list draw_cmd :=
  if CInt.truthy (border_width d) then
    (if CInt.truthy (border_padding d)
     then [DrawRectangle rectangle line_1_0 true (bg bar)] else [])
    ++ [DrawRectangle rectangle (F32.of_int (border_width d)) false
          (bordercolor bar)]
  else [].

Lemma draw_border_emits d bar rectangle :
  emits (draw_border d bar rectangle) (border_cmds d bar rectangle).
Proof.
  unfold draw_border, border_cmds.
  apply emits_when, emits_seq; [apply emits_when|]; apply emits_emit.
Qed.

(** The positions of [n] successive gaps. *)
Fixpoint gap_positions (n : nat) (pos unit : Z) : list Z :=
  match n with
  | O => []
  | S n' => pos :: gap_positions n' (pos + unit) unit
  end.

Lemma gap_positions_length n pos unit :
  List.length (gap_positions n pos unit) = n.
Proof. revert pos. induction n; simpl; intros; auto. Qed.

Lemma gap_positions_nth n pos unit k :
  (k < n)%nat ->
  nth k (gap_positions n pos unit) 0 = pos + Z.of_nat k * unit.
Proof.
  revert pos k. induction n; intros pos k Hk; [lia|].
  destruct k; simpl gap_positions; simpl nth; [lia|].
  rewrite IHn by lia. lia.
Qed.

Definition gap_cmds (rect_at : Z -> area_t) (color : xcolor_t)
    (positions : list Z) : list draw_cmd :=
  map (fun pos => DrawRectangle (rect_at pos) line_1_0 true color) positions.

(** The gap loop of a positive unit runs as many times as there are
    positions up to the limit, when the position it stops at still fits
    an [int]. *)
Lemma tick_gaps_run (rect_at : Z -> area_t) (limit unit : Z)
    (color : xcolor_t) :
  0 < unit -> limit + unit <= CInt.INT_MAX ->
  forall (n : nat) (fuel : nat) (pos : Z) (st : draw_state),
    CInt.in_int pos ->
    limit < pos + Z.of_nat n * unit ->
    (n = O \/ pos + (Z.of_nat n - 1) * unit <= limit) ->
    (n < fuel)%nat ->
    tick_gaps fuel rect_at limit unit color pos st
    = Ok (tt, appended st (gap_cmds rect_at color (gap_positions n pos unit))).
Proof.
  intros Hunit Hmax. induction n as [|n IH]; intros fuel pos st Hpos Hlt Hle Hfuel.
  - destruct fuel as [|fuel]; [lia|]. simpl.
    destruct (Z.geb_spec limit pos); [lia|].
    unfold ret. now rewrite appended_nil.
  - destruct fuel as [|fuel]; [lia|].
    destruct Hle as [Hle|Hle]; [discriminate|].
    assert (Hpl : pos <= limit) by nia.
    simpl tick_gaps.
    destruct (Z.geb_spec limit pos); [|lia].
    unfold bind, draw_rectangle. rewrite emits_emit.
    assert (Hnext : (pos + unit)%cint = pos + unit).
    { apply wrap_small. unfold CInt.in_int, CInt.INT_MIN in *. lia. }
    rewrite Hnext, IH.
    + rewrite appended_app. reflexivity.
    + unfold CInt.in_int, CInt.INT_MIN in *. lia.
    + lia.
    + destruct n; [now left|right]. lia.
    + lia.
Qed.

(** The two parts of a bar emit at most two commands and never fault. *)
Lemma draw_fill_vertical_emits pb_x pb_y pb_width pb_height bar off p :
  exists l, emits (draw_fill_vertical pb_x pb_y pb_width pb_height bar off p) l.
Proof.
  unfold draw_fill_vertical.
  destruct (reverse bar); eexists;
    apply emits_seq; apply emits_when; apply emits_emit.
Qed.

Lemma draw_fill_horizontal_emits pb_x pb_y pb_width pb_height bar off p :
  exists l,
    emits (draw_fill_horizontal pb_x pb_y pb_width pb_height bar off p) l.
Proof.
  unfold draw_fill_horizontal.
  destruct (reverse bar); eexists;
    apply emits_seq; apply emits_when; apply emits_emit.
Qed.

(** The number of gaps a loop draws from [pos] up to [limit]. *)
Definition gap_count (limit unit pos : Z) : nat :=
  Z.to_nat ((limit - pos) / unit + 1).

Lemma tick_gaps_emits (fuel : nat) (rect_at : Z -> area_t)
    (limit unit : Z) (color : xcolor_t) (pos : Z) :
  0 < unit -> limit + unit <= CInt.INT_MAX -> CInt.in_int pos ->
  (gap_count limit unit pos < fuel)%nat ->
  emits (tick_gaps fuel rect_at limit unit color pos)
    (gap_cmds rect_at color
       (gap_positions (gap_count limit unit pos) pos unit)).
Proof.
  intros Hunit Hmax Hpos Hfuel st.
  apply tick_gaps_run; auto; unfold gap_count in *.
  - destruct (Z_lt_le_dec limit pos) as [Hlt|Hle].
    + assert ((limit - pos) / unit < 0)
        by (apply Z.div_lt_upper_bound; lia).
      lia.
    + pose proof (Z.div_pos (limit - pos) unit ltac:(lia) Hunit).
      pose proof (Z.mul_succ_div_gt (limit - pos) unit Hunit). nia.
  - destruct (Z_lt_le_dec limit pos) as [Hlt|Hle].
    + left.
      assert ((limit - pos) / unit < 0)
        by (apply Z.div_lt_upper_bound; lia).
      lia.
    + right.
      pose proof (Z.div_pos (limit - pos) unit ltac:(lia) Hunit).
      pose proof (Z.mul_div_le (limit - pos) unit Hunit). nia.
Qed.

(** The length along which a bar fills, and the coordinate it starts
    at. *)
Definition secondary_length (d : progressbar_data_t) (g : geometry) : Z :=
  if vertical d then g_pb_height g else g_pb_width g.

Definition secondary_origin (d : progressbar_data_t) (g : geometry) : Z :=
  if vertical d then g_pb_y g else g_pb_x g.

Definition gap_limit (d : progressbar_data_t) (g : geometry) : Z :=
  (secondary_origin d g + secondary_length d g - ticks_gap d)%cint.

Definition gap_start (d : progressbar_data_t) (g : geometry) : Z :=
  (secondary_origin d g + (g_unit g - ticks_gap d))%cint.

(** The gap loops of a widget end within the fuel: there are no ticks, or
    the unit is positive, the position a loop stops at fits an [int] and
    the fuel exceeds the number of gaps. *)
Definition gaps_fit (fuel : nat) (d : progressbar_data_t) (g : geometry)
  : Prop :=
  quantized d = false \/
  (0 < g_unit g /\ gap_limit d g + g_unit g <= CInt.INT_MAX /\
   (gap_count (gap_limit d g) (g_unit g) (gap_start d g) < fuel)%nat).

(** The body of the loop over the bars, for the orientation of [d]. *)
Definition draw_bar (fuel : nat) (d : progressbar_data_t) (g : geometry)
  : bar_t -> Z -> Draw Z :=
  (if vertical d then draw_bar_vertical else draw_bar_horizontal)
    fuel d (g_pb_x g) (g_pb_y g) (g_pb_width g) (g_pb_height g) (g_unit g).

Lemma draw_gaps_vertical_emits fuel d g bar off :
  vertical d = true -> gaps_fit fuel d g ->
  exists l,
    emits (draw_gaps_vertical fuel d (g_pb_x g) (g_pb_y g) (g_pb_width g)
             (g_pb_height g) (g_unit g) bar off) l.
Proof.
  intros Hv Hfit. unfold draw_gaps_vertical.
  destruct Hfit as [Hq | (Hu & Hmax & Hfuel)].
  - rewrite Hq. eexists. apply emits_ret.
  - unfold gap_limit, gap_start, secondary_origin, secondary_length in *.
    rewrite Hv in *. eexists. apply emits_when.
    apply tick_gaps_emits; auto. apply wrap_in_int.
Qed.

Lemma draw_gaps_horizontal_emits fuel d g bar off :
  vertical d = false -> gaps_fit fuel d g ->
  exists l,
    emits (draw_gaps_horizontal fuel d (g_pb_x g) (g_pb_y g) (g_pb_width g)
             (g_pb_height g) (g_unit g) bar off) l.
Proof.
  intros Hv Hfit. unfold draw_gaps_horizontal.
  destruct Hfit as [Hq | (Hu & Hmax & Hfuel)].
  - rewrite Hq. eexists. apply emits_ret.
  - unfold gap_limit, gap_start, secondary_origin, secondary_length in *.
    rewrite Hv in *. eexists. apply emits_when.
    apply tick_gaps_emits; auto. apply wrap_in_int.
Qed.

(** A bar whose progress is defined is drawn without a fault; only
    commands are added to the state. *)
Lemma draw_bar_total fuel d g bar off st p :
  bar_progress d (secondary_length d g) (g_unit g) bar = Ok p ->
  gaps_fit fuel d g ->
  exists next l, draw_bar fuel d g bar off st = Ok (next, appended st l).
Proof.
  intros Hp Hfit. unfold draw_bar, secondary_length in *.
  destruct (vertical d) eqn:Hv.
  - destruct (draw_fill_vertical_emits (g_pb_x g) (g_pb_y g) (g_pb_width g)
                (g_pb_height g) bar off p) as [lf Hf].
    destruct (draw_gaps_vertical_emits fuel d g bar off Hv Hfit) as [lg Hg].
    unfold draw_bar_vertical, bind, lift. rewrite Hp.
    rewrite draw_border_emits, Hf, Hg. unfold ret.
    rewrite !appended_app. eauto.
  - destruct (draw_fill_horizontal_emits (g_pb_x g) (g_pb_y g)
                (g_pb_width g) (g_pb_height g) bar off p) as [lf Hf].
    destruct (draw_gaps_horizontal_emits fuel d g bar off Hv Hfit)
      as [lg Hg].
    unfold draw_bar_horizontal, bind, lift. rewrite Hp.
    rewrite draw_border_emits, Hf, Hg. unfold ret.
    rewrite !appended_app. eauto.
Qed.

(** The progress of every bar of a list is defined. *)
Definition progress_defined (d : progressbar_data_t) (g : geometry)
    (l : list bar_t) : Prop :=
  forallb (fun bar =>
             match bar_progress d (secondary_length d g) (g_unit g) bar with
             | Ok _ => true
             | Fault _ => false
             end) l = true.

Lemma draw_bars_total fuel d g l :
  progress_defined d g l -> gaps_fit fuel d g ->
  forall off st,
  exists cmds, draw_bars (draw_bar fuel d g) l off st
               = Ok (tt, appended st cmds).
Proof.
  unfold progress_defined. intros Hl Hfit.
  induction l as [|bar l IH]; intros off st.
  - exists []. simpl. unfold ret. now rewrite appended_nil.
  - simpl in Hl. apply andb_true_iff in Hl. destruct Hl as [Hp Hl].
    destruct (bar_progress d (secondary_length d g) (g_unit g) bar)
      as [p|] eqn:Ep; [|discriminate].
    destruct (draw_bar_total fuel d g bar off st p Ep Hfit)
      as (next & l1 & H1).
    destruct (IH Hl next (appended st l1)) as (l2 & H2).
    exists (l1 ++ l2). simpl. unfold bind. rewrite H1, H2.
    now rewrite appended_app.
Qed.

(** A draw call on a widget that has bars: when the geometry is defined,
    the progress of every bar is defined and the gap loops end within
    the fuel, the call returns [w->area.width], having emitted commands
    and set [w->area]. *)
Lemma progressbar_draw_total fuel ctx align d offset st g :
  bars d <> [] ->
  progressbar_geometry ctx align d offset = Ok g ->
  progress_defined d g (bars d) ->
  gaps_fit fuel d g ->
  exists cmds,
    progressbar_draw fuel ctx align d offset st
    = Ok (g_area_width g,
          mk_draw_state (emitted st ++ cmds)
            (mk_area (g_area_x g) 0 (g_area_width g) (ctx_height ctx))).
Proof.
  intros Hne Hg Hp Hfit. unfold progressbar_draw.
  destruct (bars d) as [|b l] eqn:Hb; [contradiction|].
  unfold bind at 1. unfold lift. rewrite Hg.
  unfold bind at 1. unfold get_area.
  unfold bind at 1. unfold set_area.
  unfold bind at 1.
  match goal with
  | |- context [draw_bars ?body ?l 0 ?s] =>
      destruct (draw_bars_total fuel d g l Hp Hfit 0 s) as (cmds & Hrun);
      change body with (draw_bar fuel d g)
  end.
  rewrite Hrun. exists cmds. reflexivity.
Qed.

(** A computation that, when it ends, has only added commands: it
    leaves [w->area] and the commands emitted before as they were. *)
Definition only_draws {A} (c : Draw A) : Prop :=
  forall st a st', c st = Ok (a, st') -> exists l, st' = appended st l.

Lemma only_draws_ret {A} (a : A) : only_draws (ret a).
Proof.
  intros st a' st' [= <- <-]. exists []. now rewrite appended_nil.
Qed.

Lemma only_draws_lift {A} (r : result A) : only_draws (lift r).
Proof.
  intros st a st'. unfold lift. destruct r; [|discriminate].
  intros [= <- <-]. exists []. now rewrite appended_nil.
Qed.

Lemma only_draws_bind {A B} (c : Draw A) (k : A -> Draw B) :
  only_draws c -> (forall a, only_draws (k a)) -> only_draws (bind c k).
Proof.
  intros Hc Hk st b st'. unfold bind.
  destruct (c st) as [[a st1]|] eqn:E; [|discriminate].
  intros H. destruct (Hc _ _ _ E) as [l1 ->].
  destruct (Hk a _ _ _ H) as [l2 ->].
  exists (l1 ++ l2). apply appended_app.
Qed.

Lemma only_draws_emits (c : Draw unit) (l : list draw_cmd) :
  emits c l -> only_draws c.
Proof. intros H st a st'. rewrite H. intros [= <- <-]. now exists l. Qed.

Lemma only_draws_when (b : bool) (c : Draw unit) :
  only_draws c -> only_draws (when b c).
Proof. destruct b; [auto | intros _; apply only_draws_ret]. Qed.

Lemma tick_gaps_only_draws (fuel : nat) (rect_at : Z -> area_t)
    (limit unit : Z) (color : xcolor_t) (pos : Z) :
  only_draws (tick_gaps fuel rect_at limit unit color pos).
Proof.
  revert pos. induction fuel as [|fuel IH]; intros pos; cbn [tick_gaps].
  - apply only_draws_lift.
  - destruct (limit >=? pos); [|apply only_draws_ret].
    apply only_draws_bind; [|intros _; apply IH].
    apply (only_draws_emits _ _ (emits_emit _)).
Qed.

Lemma draw_bar_only_draws (fuel : nat) (d : progressbar_data_t)
    (g : geometry) (bar : bar_t) (off : Z) :
  only_draws (draw_bar fuel d g bar off).
Proof.
  unfold draw_bar.
  destruct (vertical d); unfold draw_bar_vertical, draw_bar_horizontal.
  - apply only_draws_bind; [apply only_draws_lift|]. intros p.
    apply only_draws_bind;
      [apply (only_draws_emits _ _ (draw_border_emits _ _ _))|]. intros _.
    apply only_draws_bind.
    { destruct (draw_fill_vertical_emits (g_pb_x g) (g_pb_y g)
                  (g_pb_width g) (g_pb_height g) bar off p) as [l Hl].
      apply (only_draws_emits _ _ Hl). }
    intros _. apply only_draws_bind; [|intros _; apply only_draws_ret].
    unfold draw_gaps_vertical. apply only_draws_when, tick_gaps_only_draws.
  - apply only_draws_bind; [apply only_draws_lift|]. intros p.
    apply only_draws_bind;
      [apply (only_draws_emits _ _ (draw_border_emits _ _ _))|]. intros _.
    apply only_draws_bind.
    { destruct (draw_fill_horizontal_emits (g_pb_x g) (g_pb_y g)
                  (g_pb_width g) (g_pb_height g) bar off p) as [l Hl].
      apply (only_draws_emits _ _ Hl). }
    intros _. apply only_draws_bind; [|intros _; apply only_draws_ret].
    unfold draw_gaps_horizontal. apply only_draws_when, tick_gaps_only_draws.
Qed.

Lemma draw_bars_only_draws (body : bar_t -> Z -> Draw Z) (l : list bar_t)
    (off : Z) :
  (forall bar off, only_draws (body bar off)) ->
  only_draws (draw_bars body l off).
Proof.
  intros Hb. revert off. induction l as [|bar l IH]; intros off;
    cbn [draw_bars].
  - apply only_draws_ret.
  - apply only_draws_bind; [apply Hb | intros next; apply IH].
Qed.

(** A draw call that returns, on a widget that has bars: its geometry
    was defined, it returns [w->area.width], and it has set [w->area]
    and added commands. *)
Lemma progressbar_draw_inv fuel ctx align d offset st r st' :
  bars d <> [] ->
  progressbar_draw fuel ctx align d offset st = Ok (r, st') ->
  exists g cmds,
    progressbar_geometry ctx align d offset = Ok g /\
    r = g_area_width g /\
    st' = mk_draw_state (emitted st ++ cmds)
            (mk_area (g_area_x g) 0 (g_area_width g) (ctx_height ctx)).
Proof.
  intros Hne. unfold progressbar_draw.
  destruct (bars d) as [|b l] eqn:Hb; [contradiction|].
  unfold bind at 1. unfold lift.
  destruct (progressbar_geometry ctx align d offset) as [g|]; [|discriminate].
  unfold bind at 1. unfold get_area.
  unfold bind at 1. unfold set_area.
  unfold bind at 1.
  match goal with
  | |- context [draw_bars ?body ?l 0 ?s] =>
      change body with (draw_bar fuel d g);
      destruct (draw_bars (draw_bar fuel d g) l 0 s) as [[[] st1]|] eqn:E;
      [|discriminate]
  end.
  apply (draw_bars_only_draws _ _ _ (draw_bar_only_draws fuel d g)) in E.
  destruct E as [cmds ->].
  intros [= <- <-]. exists g, cmds. repeat split.
Qed.

End DrawFacts.

(* ------------------------------------------------------------------ *)
(** ** Layout *)

(** Removes the wrap-around of the integer operations of the goal, from
    the innermost one outwards, where [tac] shows that the exact result
    fits an [int]. *)
Ltac unwrap_with tac :=
  unfold CInt.add, CInt.sub, CInt.mul, CInt.neg in *;
  repeat match goal with
         | |- context [CInt.wrap ?z] =>
             lazymatch z with
             | context [CInt.wrap _] => fail
             | _ => rewrite (wrap_small z)
                      by (unfold CInt.in_int, CInt.INT_MIN, CInt.INT_MAX; tac)
             end
         end.

(** The range of the coordinates and sizes of the X protocol. *)
Definition fits16 (z : Z) : Prop := -32768 <= z <= 32767.

Lemma rbind_ok {A B} (r : result A) (k : A -> result B) (b : B) :
  rbind r k = Ok b -> exists a, r = Ok a /\ k a = Ok b.
Proof. destruct r as [a|f]; simpl; [eauto | discriminate]. Qed.

Lemma quot_mul_abs (a n : Z) : n <> 0 -> Z.abs (n * Z.quot a n) <= Z.abs a.
Proof.
  intros Hn. destruct (Z_le_gt_dec 0 a).
  - pose proof (Z.mul_quot_le a n ltac:(lia) Hn). lia.
  - pose proof (Z.mul_quot_ge a n ltac:(lia) Hn). lia.
Qed.

Section Layout.

Context {host : Host}.

Lemma count_bars_from (l : list bar_t) (acc : Z) :
  0 <= acc -> acc + Z.of_nat (List.length l) <= CInt.INT_MAX ->
  fold_left (fun n _ => (n + 1)%cint) l acc = acc + Z.of_nat (List.length l).
Proof.
  revert acc. induction l as [|b l IH]; intros acc H0 H; simpl fold_left.
  - simpl. lia.
  - assert (E : (acc + 1)%cint = acc + 1).
    { apply wrap_small. unfold CInt.in_int, CInt.INT_MIN, CInt.INT_MAX in *.
      simpl List.length in H. lia. }
    rewrite E, IH; simpl List.length in *; lia.
Qed.

Lemma count_bars_length (l : list bar_t) :
  Z.of_nat (List.length l) <= CInt.INT_MAX ->
  count_bars l = Z.of_nat (List.length l).
Proof.
  intros H. unfold count_bars. rewrite count_bars_from; lia.
Qed.

(** The sum of the border width and the padding, on both sides. *)
Definition border_extent (d : progressbar_data_t) : Z :=
  2 * (border_width d + border_padding d).

(** The first branch of the layout: the thickness of a bar and the width
    of the widget, when the bars are side by side. *)
Lemma layout_widths_vertical (d : progressbar_data_t) (n : Z) :
  vertical d = true ->
  fits16 (width d) -> fits16 (gap d) ->
  fits16 (border_width d) -> fits16 (border_padding d) ->
  1 <= n <= 1024 ->
  let b := border_width d + border_padding d in
  let t := Z.quot (width d - 2 * n * b - gap d * (n - 1)) n in
  layout_widths d n = Ok (t, 0, n * (t + 2 * b) + gap d * (n - 1)).
Proof.
  intros Hv Hw Hg Hbw Hbp Hn b t. unfold fits16 in *.
  unfold layout_widths. rewrite Hv.
  rewrite int_div_ok by lia. cbn [rbind].
  assert (Hnum : (width d - 2 * (border_width d + border_padding d) * n
                  - gap d * (n - 1))%cint
                 = width d - 2 * n * b - gap d * (n - 1)).
  { subst b. unwrap_with nia. ring. }
  rewrite Hnum. fold t.
  pose proof (quot_mul_abs (width d - 2 * n * b - gap d * (n - 1)) n
                ltac:(lia)) as Ht.
  fold t in Ht.
  assert (Ht' : Z.abs t <= Z.abs (n * t)) by nia.
  f_equal. f_equal.
  subst b. unwrap_with nia. ring.
Qed.

(** The second branch: the bars are stacked, and the width of the widget
    is the length of one bar and its border. *)
Lemma layout_widths_horizontal (d : progressbar_data_t) (n : Z)
    (pb_width unit w_width : Z) :
  vertical d = false ->
  fits16 (width d) -> fits16 (ticks_gap d) ->
  fits16 (border_width d) -> fits16 (border_padding d) ->
  layout_widths d n = Ok (pb_width, unit, w_width) ->
  w_width = pb_width + border_extent d.
Proof.
  intros Hv Hw Htg Hbw Hbp. unfold fits16, border_extent in *.
  unfold layout_widths. rewrite Hv.
  destruct (quantized d) eqn:Hq.
  - intros H. apply rbind_ok in H. destruct H as (u & Hu & H).
    injection H as <- <- <-.
    unfold int_div in Hu.
    destruct (ticks_count d =? 0) eqn:Hz; [discriminate|].
    apply Z.eqb_neq in Hz.
    destruct (_ && _); [discriminate|]. injection Hu as <-.
    set (a := (width d - 2 * (border_width d + border_padding d)
               + ticks_gap d)%cint).
    assert (Ha : a = width d - 2 * (border_width d + border_padding d)
                     + ticks_gap d).
    { subst a. unwrap_with lia. reflexivity. }
    pose proof (quot_mul_abs a (ticks_count d) Hz) as Hb.
    rewrite Ha in Hb at 2.
    replace (Z.quot a (ticks_count d) * ticks_count d)%cint
      with (ticks_count d * Z.quot a (ticks_count d))
      by (rewrite Z.mul_comm; unwrap_with lia; reflexivity).
    unwrap_with lia. reflexivity.
  - intros H. injection H as <- <- <-. unwrap_with lia. reflexivity.
Qed.

(** The widths of a geometry are those of [layout_widths]. *)
Lemma geometry_widths ctx align d offset g :
  progressbar_geometry ctx align d offset = Ok g ->
  exists unit,
    layout_widths d (count_bars (bars d))
    = Ok (g_pb_width g, unit, g_area_width g).
Proof.
  unfold progressbar_geometry. intros H.
  apply rbind_ok in H. destruct H as ([[pbw u] ww] & Hl & H).
  rewrite Hl. exists u.
  destruct (vertical d).
  - apply rbind_ok in H. destruct H as (hu & _ & H).
    apply rbind_ok in H. destruct H as (y & _ & H).
    now injection H as <-.
  - apply rbind_ok in H. destruct H as (h & _ & H).
    apply rbind_ok in H. destruct H as (y & _ & H).
    now injection H as <-.
Qed.

End Layout.

(* ------------------------------------------------------------------ *)
(** ** The value returned by a draw call *)

Section DrawResult.

Context {host : Host}.

(** The thickness of a bar across the axis the bars are laid out
    along. *)
Definition primary_thickness (d : progressbar_data_t) (g : geometry) : Z :=
  if vertical d then g_pb_width g else g_pb_height g.

(** The extent of [n] bars along the primary axis, with their borders
    and the gaps between them. *)
Definition primary_extent (d : progressbar_data_t) (g : geometry) : Z :=
  let n := Z.of_nat (List.length (bars d)) in
  n * (primary_thickness d g + border_extent d) + gap d * (n - 1).

(** The extent of one bar along the secondary axis, with its border. *)
Definition secondary_extent (d : progressbar_data_t) (g : geometry) : Z :=
  secondary_length d g + border_extent d.

(** C9. A draw call on a widget without bars returns 0 and leaves the
    state as it was: no command is emitted, and the division by the
    number of bars, which would fault in vertical mode, is not reached. *)
Theorem draw_without_bars_is_noop :
  forall fuel ctx align d offset st,
    bars d = [] ->
    progressbar_draw fuel ctx align d offset st = Ok (0, st) /\
    (vertical d = true ->
     layout_widths d (count_bars (bars d)) = Fault DivisionFault).
Proof.
  intros fuel ctx align d offset st Hb. split.
  - unfold progressbar_draw. now rewrite Hb.
  - intros Hv. unfold layout_widths. rewrite Hv, Hb. reflexivity.
Qed.

(** C7. In vertical mode with [n >= 1] bars, the thickness of a bar is
    [(width - 2*n*(border_width+border_padding) - gap*(n-1)) / n] by
    truncating division, and the draw call returns
    [n*(thickness + 2*(border_width+border_padding)) + gap*(n-1)]; for
    [n=2, width=50, border_width=1, border_padding=1, gap=2] these are 20
    and 50. The layout parameters are in the 16-bit range of the X
    protocol and there are at most 1024 bars. *)
Theorem vertical_thickness_and_extent :
  forall d,
    vertical d = true ->
    fits16 (width d) -> fits16 (gap d) ->
    fits16 (border_width d) -> fits16 (border_padding d) ->
    let n := Z.of_nat (List.length (bars d)) in
    1 <= n <= 1024 ->
    let b := border_width d + border_padding d in
    let thickness := Z.quot (width d - 2 * n * b - gap d * (n - 1)) n in
    let extent := n * (thickness + 2 * b) + gap d * (n - 1) in
    layout_widths d (count_bars (bars d)) = Ok (thickness, 0, extent) /\
    (forall fuel ctx align offset st g,
        progressbar_geometry ctx align d offset = Ok g ->
        progress_defined d g (bars d) ->
        gaps_fit fuel d g ->
        g_pb_width g = thickness /\
        exists cmds,
          progressbar_draw fuel ctx align d offset st
          = Ok (extent,
                mk_draw_state (emitted st ++ cmds)
                  (mk_area (g_area_x g) 0 extent (ctx_height ctx)))) /\
    (n = 2 -> width d = 50 -> border_width d = 1 -> border_padding d = 1 ->
     gap d = 2 -> thickness = 20 /\ extent = 50).
Proof.
  intros d Hv Hw Hg Hbw Hbp n Hn b thickness extent.
  assert (Hc : count_bars (bars d) = n).
  { apply count_bars_length. unfold CInt.INT_MAX. fold n. lia. }
  assert (Hl : layout_widths d (count_bars (bars d))
               = Ok (thickness, 0, extent)).
  { rewrite Hc. now apply layout_widths_vertical. }
  split; [exact Hl|]. split.
  - intros fuel ctx align offset st g Hgeo Hp Hfit.
    destruct (geometry_widths _ _ _ _ _ Hgeo) as (u & Hu).
    rewrite Hl in Hu. injection Hu as Ht _ He.
    split; [now symmetry|].
    assert (Hne : bars d <> []).
    { intros E. subst n. rewrite E in Hn. simpl in Hn. lia. }
    destruct (progressbar_draw_total fuel ctx align d offset st g
                Hne Hgeo Hp Hfit) as (cmds & Hrun).
    exists cmds. rewrite Hrun, <- He. reflexivity.
  - intros H2 H50 H1 H1' Hg2. subst thickness extent b.
    rewrite H2, H50, H1, H1', Hg2. split; reflexivity.
Qed.

(** C5, as the code has it. A draw call on a widget that has bars, when
    it returns, returns the width of the widget, [w->area.width], as it
    has stored it. With the settings in the 16-bit range of the X
    protocol and at most 1024 bars, that width is, in vertical mode, the
    extent of all the bars along the primary axis; in horizontal mode,
    where the bars are stacked, it is the extent of one bar along the
    secondary axis, whatever the number of bars. The call returns when
    the geometry and the progress of every bar are defined and the gap
    loops end: there are no ticks, or the unit is positive and the
    positions of the gaps stay within [int]. *)
Theorem draw_returns_widget_width :
  forall fuel ctx align d offset st,
    bars d <> [] ->
    (forall r st',
        progressbar_draw fuel ctx align d offset st = Ok (r, st') ->
        r = area_width (w_area st') /\
        exists g,
          progressbar_geometry ctx align d offset = Ok g /\
          r = g_area_width g /\
          (Z.of_nat (List.length (bars d)) <= 1024 ->
           fits16 (width d) -> fits16 (gap d) -> fits16 (ticks_gap d) ->
           fits16 (border_width d) -> fits16 (border_padding d) ->
           r = if vertical d then primary_extent d g
               else secondary_extent d g)) /\
    (forall g,
        progressbar_geometry ctx align d offset = Ok g ->
        progress_defined d g (bars d) ->
        gaps_fit fuel d g ->
        exists cmds,
          progressbar_draw fuel ctx align d offset st
          = Ok (g_area_width g,
                mk_draw_state (emitted st ++ cmds)
                  (mk_area (g_area_x g) 0 (g_area_width g)
                     (ctx_height ctx)))).
Proof.
  intros fuel ctx align d offset st Hne. split.
  - intros r st' Hrun.
    destruct (progressbar_draw_inv _ _ _ _ _ _ _ _ Hne Hrun)
      as (g & cmds & Hgeo & -> & ->).
    split; [reflexivity|]. exists g. split; [exact Hgeo|].
    split; [reflexivity|].
    intros Hn Hw Hg Htg Hbw Hbp.
    destruct (geometry_widths _ _ _ _ _ Hgeo) as (u & Hu).
    destruct (vertical d) eqn:Hv.
    + assert (Hlen : 1 <= Z.of_nat (List.length (bars d)) <= 1024).
      { destruct (bars d); [contradiction|]. simpl List.length in *. lia. }
      pose proof (layout_widths_vertical d _ Hv Hw Hg Hbw Hbp Hlen) as Hl.
      cbv zeta in Hl.
      rewrite count_bars_length in Hu by (unfold CInt.INT_MAX; lia).
      rewrite Hl in Hu. injection Hu as Ht _ He.
      unfold primary_extent, primary_thickness, border_extent.
      rewrite Hv, <- Ht, <- He. reflexivity.
    + unfold secondary_extent, secondary_length. rewrite Hv.
      eapply layout_widths_horizontal; eauto.
  - intros g Hgeo Hp Hfit.
    exact (progressbar_draw_total fuel ctx align d offset st g
             Hne Hgeo Hp Hfit).
Qed.

End DrawResult.

Lemma draw_without_bars_is_noop_witness :
  bars (with_layout progressbar_new 80 2 1 0 1 0 true) = [] /\
  progressbar_draw 0 sample_ctx true
    (with_layout progressbar_new 80 2 1 0 1 0 true) 0 fresh_state
  = Ok (0, fresh_state).
Proof.
  split; [reflexivity|].
  exact (proj1 (draw_without_bars_is_noop 0 sample_ctx true
                  (with_layout progressbar_new 80 2 1 0 1 0 true) 0
                  fresh_state eq_refl)).
Defined.

(** The geometry of the sample runs. *)
Lemma two_bars_vertical_geometry :
  progressbar_geometry sample_ctx true two_bars_vertical 0
  = Ok (mk_geometry 2 3 20 12 0 0 50).
Proof. vm_compute. reflexivity. Qed.

Lemma two_bars_horizontal_geometry :
  progressbar_geometry sample_ctx true two_bars_horizontal 0
  = Ok (mk_geometry 1 2 78 5 0 0 80).
Proof. vm_compute. reflexivity. Qed.

(** Discharges [fits16] and the bound on the number of bars on concrete
    data. *)
Ltac bound_by_computation := vm_compute; try split; discriminate.

Lemma two_bars_vertical_progress :
  progress_defined two_bars_vertical (mk_geometry 2 3 20 12 0 0 50)
    (bars two_bars_vertical).
Proof. vm_compute. reflexivity. Qed.

Lemma two_bars_horizontal_progress :
  progress_defined two_bars_horizontal (mk_geometry 1 2 78 5 0 0 80)
    (bars two_bars_horizontal).
Proof. vm_compute. reflexivity. Qed.

Lemma vertical_thickness_and_extent_witness :
  layout_widths two_bars_vertical (count_bars (bars two_bars_vertical))
  = Ok (20, 0, 50) /\
  exists cmds,
    progressbar_draw 0 sample_ctx true two_bars_vertical 0 fresh_state
    = Ok (50, mk_draw_state cmds (mk_area 0 0 50 20)).
Proof.
  pose proof (vertical_thickness_and_extent two_bars_vertical eq_refl) as H.
  do 5 specialize (H ltac:(bound_by_computation)).
  destruct H as (Hl & Hd & _).
  split; [exact Hl|].
  destruct (Hd O sample_ctx true 0 fresh_state _ two_bars_vertical_geometry
              two_bars_vertical_progress (or_introl eq_refl))
    as (_ & cmds & Hrun).
  exists cmds. exact Hrun.
Defined.

(** The state a draw call leaves, if it returns. *)
Definition state_after (r : result (Z * draw_state)) : draw_state :=
  match r with
  | Ok (_, st) => st
  | Fault _ => fresh_state
  end.

(** A widget with more ticks than pixels: one bar in the layout of a new
    widget, with [ticks_count = 100]. The unit of a tick is 0. *)
Definition hundred_ticks : progressbar_data_t :=
  with_layout (one_bar 50) 80 2 1 0 1 100 false.

Lemma hundred_ticks_drawn :
  progressbar_draw 1 sample_ctx true hundred_ticks 0 fresh_state
  = Ok (1, state_after (progressbar_draw 1 sample_ctx true hundred_ticks
                          0 fresh_state)).
Proof. vm_compute. reflexivity. Qed.

Lemma draw_returns_widget_width_witness :
  (exists cmds,
      progressbar_draw 0 sample_ctx true two_bars_horizontal 0 fresh_state
      = Ok (80, mk_draw_state cmds (mk_area 0 0 80 20))) /\
  1 = area_width
        (w_area (state_after (progressbar_draw 1 sample_ctx true
                                hundred_ticks 0 fresh_state))).
Proof.
  split.
  - destruct (proj2 (draw_returns_widget_width (host := sample_host) O sample_ctx
                       true
                       two_bars_horizontal 0 fresh_state
                       ltac:(discriminate))
                _ two_bars_horizontal_geometry two_bars_horizontal_progress
                (or_introl eq_refl)) as (cmds & Hrun).
    exists cmds. exact Hrun.
  - exact (proj1 (proj1 (draw_returns_widget_width (host := sample_host) 1%nat
                           sample_ctx true
                           hundred_ticks 0 fresh_state
                           ltac:(discriminate))
                    _ _ hundred_ticks_drawn)).
Defined.

(** The value a run returns, if any. *)
Definition returned_value `{Host} (r : result (Z * draw_state)) : option Z :=
  match r with
  | Ok (v, _) => Some v
  | Fault _ => None
  end.

(** C5 as stated fails in horizontal mode: the two stacked bars take 16
    pixels along the primary axis, and the draw call returns 80, the
    width of the widget. *)
Lemma draw_returns_primary_extent_counterexample :
  progressbar_geometry sample_ctx true two_bars_horizontal 0
  = Ok (mk_geometry 1 2 78 5 0 0 80) /\
  primary_extent two_bars_horizontal (mk_geometry 1 2 78 5 0 0 80) = 16 /\
  returned_value
    (progressbar_draw 0 sample_ctx true two_bars_horizontal 0 fresh_state)
  = Some 80.
Proof.
  split; [exact two_bars_horizontal_geometry|].
  split; vm_compute; reflexivity.
Qed.

(* ------------------------------------------------------------------ *)
(** ** The two parts of a bar, and the gaps between the ticks *)

Section Fill.

Context {host : Host}.

(** C1, as the code has it. For a bar with [reverse] set the progress [p]
    becomes [L - p], [L] being the length of the bar; the part at the low
    end of the secondary axis (the bottom of a vertical bar, the left of a
    horizontal one) has the mirrored length [L - p] and is drawn solid
    with [fg_off]; the part at the high end has the length [p] and is
    drawn with the gradient [fg], [fg_center], [fg_end] over the mirrored
    pattern rectangle. Nothing else is drawn, so no part at the high end is
    solid. *)
Theorem reverse_swaps_fill_segments :
  forall (bar : bar_t) (pb_x pb_y pb_width pb_height off p : Z),
    reverse bar = true ->
    CInt.in_int p ->
    (CInt.in_int (pb_height - p) ->
     let q := pb_height - p in
     emits (draw_fill_vertical pb_x pb_y pb_width pb_height bar off p)
       ((if q >? 0
         then [DrawRectangle
                 (mk_area (pb_x + off)%cint (pb_y + pb_height - q)%cint
                          pb_width q)
                 line_1_0 true (fg_off bar)]
         else [])
        ++
        (if p >? 0
         then [DrawRectangleGradient
                 (mk_area (pb_x + off)%cint pb_y pb_width p)
                 line_1_0 true
                 (mk_area pb_x pb_y 0 pb_height)
                 (fg bar) (pfg_center bar) (pfg_end bar)]
         else []))) /\
    (CInt.in_int (pb_width - p) ->
     let q := pb_width - p in
     emits (draw_fill_horizontal pb_x pb_y pb_width pb_height bar off p)
       ((if q >? 0
         then [DrawRectangle
                 (mk_area pb_x (pb_y + off)%cint q pb_height)
                 line_1_0 true (fg_off bar)]
         else [])
        ++
        (if p >? 0
         then [DrawRectangleGradient
                 (mk_area (pb_x + q)%cint (pb_y + off)%cint p pb_height)
                 line_1_0 true
                 (mk_area (pb_x + pb_width)%cint pb_y (- pb_width)%cint 0)
                 (fg bar) (pfg_center bar) (pfg_end bar)]
         else []))).
Proof.
  intros bar pb_x pb_y pb_width pb_height off p Hrev Hp. split.
  - intros Hq q. unfold draw_fill_vertical. rewrite Hrev.
    assert (E1 : (pb_height - p)%cint = q) by (now apply wrap_small).
    rewrite E1.
    assert (E2 : (pb_height - q)%cint = p).
    { unfold CInt.sub. subst q.
      replace (pb_height - (pb_height - p)) with p by ring.
      now apply wrap_small. }
    rewrite E2.
    apply emits_seq; apply emits_when; apply emits_emit.
  - intros Hq q. unfold draw_fill_horizontal. rewrite Hrev.
    assert (E1 : (pb_width - p)%cint = q) by (now apply wrap_small).
    rewrite E1.
    assert (E2 : (pb_width - q)%cint = p).
    { unfold CInt.sub. subst q.
      replace (pb_width - (pb_width - p)) with p by ring.
      now apply wrap_small. }
    rewrite E2.
    apply emits_seq; apply emits_when; apply emits_emit.
Qed.

(** A widget with ticks has its length rounded to whole ticks. *)
Lemma geometry_quantized_length ctx align d offset g :
  progressbar_geometry ctx align d offset = Ok g ->
  quantized d = true ->
  secondary_length d g = (g_unit g * ticks_count d - ticks_gap d)%cint.
Proof.
  unfold progressbar_geometry, secondary_length. intros H Hq.
  apply rbind_ok in H. destruct H as ([[pbw u] ww] & Hl & H).
  destruct (vertical d) eqn:Hv.
  - apply rbind_ok in H. destruct H as ([h u'] & Hh & H).
    apply rbind_ok in H. destruct H as (y & _ & H).
    injection H as <-. simpl.
    unfold layout_height_vertical in Hh.
    apply rbind_ok in Hh. destruct Hh as (h0 & _ & Hh).
    rewrite Hq in Hh.
    apply rbind_ok in Hh. destruct Hh as (u0 & _ & Hh).
    now injection Hh as <- <-.
  - apply rbind_ok in H. destruct H as (h & _ & H).
    apply rbind_ok in H. destruct H as (y & _ & H).
    injection H as <-. simpl.
    unfold layout_widths in Hl. rewrite Hv, Hq in Hl.
    apply rbind_ok in Hl. destruct Hl as (u0 & _ & Hl).
    now injection Hl as <- <- _.
Qed.

(** The number of gaps drawn over a bar of [count] ticks. *)
Lemma gap_count_ticks (origin unit gap count : Z) :
  0 < count -> 0 < gap <= unit ->
  gap_count (origin + (unit * count - gap) - gap) unit
            (origin + (unit - gap))
  = Z.to_nat (count - 1).
Proof.
  intros Hc Hg. unfold gap_count. f_equal.
  replace (origin + (unit * count - gap) - gap - (origin + (unit - gap)))
    with (unit * (count - 2) + (unit - gap)) by ring.
  rewrite <- (Z.div_unique_pos (unit * (count - 2) + (unit - gap)) unit
                (count - 2) (unit - gap)); lia.
Qed.

(** C6, as the code has it. With ticks ([ticks_count > 0] and
    [0 < ticks_gap <= unit], the length of a bar being
    [unit * ticks_count - ticks_gap]), what is drawn for a bar is its
    border, its two parts and then, over them, [ticks_count - 1] solid
    rectangles of the colour [bg] and of thickness [ticks_gap], one every
    [unit] pixels along the secondary axis from [unit - ticks_gap] on: one
    between each tick and the next. The origin of the bar and its length
    are below 2^30 and 2^29. *)
Theorem tick_gaps_drawn_between_ticks :
  forall (fuel : nat) (d : progressbar_data_t) (bar : bar_t)
         (pb_x pb_y pb_width pb_height unit off p : Z) (st : draw_state),
    0 < ticks_count d ->
    0 < ticks_gap d <= unit ->
    unit * ticks_count d <= 2 ^ 29 ->
    - 2 ^ 30 <= pb_x <= 2 ^ 30 ->
    - 2 ^ 30 <= pb_y <= 2 ^ 30 ->
    (Z.to_nat (ticks_count d) <= fuel)%nat ->
    let length := unit * ticks_count d - ticks_gap d in
    let gaps := Z.to_nat (ticks_count d - 1) in
    (bar_progress d length unit bar = Ok p ->
     exists border fill next,
       emits (draw_fill_vertical pb_x pb_y pb_width length bar off p) fill /\
       draw_bar_vertical fuel d pb_x pb_y pb_width length unit bar off st
       = Ok (next,
             appended st
               (border ++ fill ++
                gap_cmds (fun y => mk_area (pb_x + off)%cint y pb_width
                                           (ticks_gap d))
                         (bg bar)
                         (gap_positions gaps (pb_y + (unit - ticks_gap d))
                                        unit)))) /\
    (bar_progress d length unit bar = Ok p ->
     exists border fill next,
       emits (draw_fill_horizontal pb_x pb_y length pb_height bar off p)
             fill /\
       draw_bar_horizontal fuel d pb_x pb_y length pb_height unit bar off st
       = Ok (next,
             appended st
               (border ++ fill ++
                gap_cmds (fun x => mk_area x (pb_y + off)%cint (ticks_gap d)
                                           pb_height)
                         (bg bar)
                         (gap_positions gaps (pb_x + (unit - ticks_gap d))
                                        unit)))) /\
    List.length (gap_positions gaps (pb_y + (unit - ticks_gap d)) unit)
    = gaps /\
    (forall ctx align offset g,
        progressbar_geometry ctx align d offset = Ok g ->
        secondary_length d g
        = (g_unit g * ticks_count d - ticks_gap d)%cint).
Proof.
  intros fuel d bar pb_x pb_y pb_width pb_height unit off p st
         Hc Hg Hlen Hx Hy Hfuel length gaps.
  assert (Hq : quantized d = true).
  { unfold quantized. apply andb_true_iff. split; apply truthy_true; lia. }
  assert (Hunit : 0 < unit) by lia.
  assert (Hlen' : 0 <= length < 2 ^ 29) by (subst length; nia).
  assert (Hrun : forall origin rect_at,
             - 2 ^ 30 <= origin <= 2 ^ 30 ->
             emits (tick_gaps fuel rect_at
                      (origin + length - ticks_gap d)%cint unit (bg bar)
                      (origin + (unit - ticks_gap d))%cint)
               (gap_cmds rect_at (bg bar)
                  (gap_positions gaps (origin + (unit - ticks_gap d)) unit))).
  { intros origin rect_at Ho.
    assert (E1 : (origin + length - ticks_gap d)%cint
                 = origin + length - ticks_gap d) by (unwrap_with lia; ring).
    assert (E2 : (origin + (unit - ticks_gap d))%cint
                 = origin + (unit - ticks_gap d)) by (unwrap_with nia; ring).
    rewrite E1, E2.
    assert (Ec : gap_count (origin + length - ticks_gap d) unit
                   (origin + (unit - ticks_gap d)) = gaps).
    { subst length gaps. now apply gap_count_ticks. }
    rewrite <- Ec. apply tick_gaps_emits.
    - exact Hunit.
    - unfold CInt.INT_MAX. nia.
    - unfold CInt.in_int, CInt.INT_MIN, CInt.INT_MAX. nia.
    - rewrite Ec. subst gaps. lia. }
  split; [|split; [|split]].
  - intros Hp.
    destruct (draw_fill_vertical_emits pb_x pb_y pb_width length bar off p)
      as [fill Hf].
    eexists. exists fill. eexists. split; [exact Hf|].
    unfold draw_bar_vertical, bind, lift. rewrite Hp.
    rewrite draw_border_emits, Hf.
    unfold draw_gaps_vertical. rewrite Hq. cbn [when].
    rewrite (Hrun pb_y _ Hy). unfold ret.
    rewrite !appended_app. reflexivity.
  - intros Hp.
    destruct (draw_fill_horizontal_emits pb_x pb_y length pb_height bar off p)
      as [fill Hf].
    eexists. exists fill. eexists. split; [exact Hf|].
    unfold draw_bar_horizontal, bind, lift. rewrite Hp.
    rewrite draw_border_emits, Hf.
    unfold draw_gaps_horizontal. rewrite Hq. cbn [when].
    rewrite (Hrun pb_x _ Hx). unfold ret.
    rewrite !appended_app. reflexivity.
  - apply gap_positions_length.
  - intros ctx align offset g Hgeo.
    now apply (geometry_quantized_length ctx align d offset g).
Qed.

End Fill.

Lemma reverse_swaps_fill_segments_witness :
  emits (draw_fill_horizontal 1 2 78 14 (first_bar reversed_bar) 0 39)
    [DrawRectangle (mk_area 1 2 39 14) line_1_0 true "off"%string;
     DrawRectangleGradient (mk_area 40 2 39 14) line_1_0 true
       (mk_area 79 2 (-78) 0) "fg"%string None None].
Proof.
  assert (Hrev : reverse (first_bar reversed_bar) = true)
    by (vm_compute; reflexivity).
  assert (Hp : CInt.in_int 39) by (vm_compute; split; discriminate).
  assert (Hq : CInt.in_int (78 - 39)) by (vm_compute; split; discriminate).
  exact (proj2 (reverse_swaps_fill_segments (first_bar reversed_bar)
                  1 2 78 14 0 39 Hrev Hp) Hq).
Defined.

(** C1 as stated fails: of a reversed bar holding 50 of 0..100, the part
    at the high end (the right half, from x = 40 on) is drawn with the
    gradient, not solid with [fg_off]. *)
Lemma reverse_high_end_solid_counterexample :
  emitted_commands
    (progressbar_draw 0 sample_ctx true reversed_bar 0 fresh_state)
  = Some [DrawRectangle (mk_area 0 1 80 16) (F32.of_int 1) false "fg"%string;
          DrawRectangle (mk_area 1 2 39 14) line_1_0 true "off"%string;
          DrawRectangleGradient (mk_area 40 2 39 14) line_1_0 true
            (mk_area 79 2 (-78) 0) "fg"%string None None] /\
  fg_off (first_bar reversed_bar) = "off"%string /\
  forall cmds,
    emitted_commands
      (progressbar_draw 0 sample_ctx true reversed_bar 0 fresh_state)
    = Some cmds ->
    ~ In (DrawRectangle (mk_area 40 2 39 14) line_1_0 true "off"%string) cmds.
Proof.
  assert (E : emitted_commands
                (progressbar_draw 0 sample_ctx true reversed_bar 0 fresh_state)
              = Some [DrawRectangle (mk_area 0 1 80 16) (F32.of_int 1) false
                        "fg"%string;
                      DrawRectangle (mk_area 1 2 39 14) line_1_0 true
                        "off"%string;
                      DrawRectangleGradient (mk_area 40 2 39 14) line_1_0 true
                        (mk_area 79 2 (-78) 0) "fg"%string None None])
    by (vm_compute; reflexivity).
  split; [exact E|]. split; [vm_compute; reflexivity|].
  intros cmds H. rewrite E in H. injection H as <-.
  intros [H|[H|[H|[]]]]; discriminate.
Qed.

Lemma tick_gaps_drawn_between_ticks_witness :
  exists border fill next,
    emits (draw_fill_horizontal 1 2 69 14 (first_bar ten_ticks) 0 34) fill /\
    draw_bar_horizontal 10 ten_ticks 1 2 69 14 7 (first_bar ten_ticks) 0
      fresh_state
    = Ok (next,
          appended fresh_state
            (border ++ fill ++
             gap_cmds (fun x => mk_area x 2 1 14) "bg"%string
               [7; 14; 21; 28; 35; 42; 49; 56; 63])).
Proof.
  assert (Hp : bar_progress ten_ticks 69 7 (first_bar ten_ticks) = Ok 34)
    by (vm_compute; reflexivity).
  pose proof (tick_gaps_drawn_between_ticks 10 ten_ticks (first_bar ten_ticks)
                1 2 0 14 7 0 34 fresh_state) as H.
  assert (H1 : 0 < ticks_count ten_ticks) by (vm_compute; reflexivity).
  assert (H2 : 0 < ticks_gap ten_ticks <= 7)
    by (vm_compute; split; [reflexivity | discriminate]).
  assert (H3 : 7 * ticks_count ten_ticks <= 2 ^ 29)
    by (vm_compute; discriminate).
  specialize (H H1 H2 H3).
  do 2 specialize (H ltac:(vm_compute; split; discriminate)).
  specialize (H ltac:(vm_compute; repeat constructor)).
  destruct H as (_ & Hh & _).
  exact (Hh Hp).
Defined.

(** C6 as stated fails: over a bar of ten ticks nine gaps are drawn. *)
Lemma ten_ticks_ten_gaps_counterexample :
  ticks_count ten_ticks = 10 /\
  ticks_gap ten_ticks = 1 /\
  option_map
    (fun cmds => List.length (filter (solid_of_color "bg") cmds))
    (emitted_commands
       (progressbar_draw 10 sample_ctx true ten_ticks 0 fresh_state))
  = Some 9%nat.
Proof. repeat split; vm_compute; reflexivity. Qed.

(* ------------------------------------------------------------------ *)
(** ** The registry: ranges *)

(** A new widget given [max_value = -4096] for a bar it does not have
    yet. *)
Definition below_4096 : progressbar_data_t :=
  luaA_progressbar_bar_properties_set progressbar_new "a"
    (mk_bar_properties None None None None None None None
       (Some (F64.of_int (-4096))) None).

(** A bar of range 10..100, and the property table [{max_value = 5}]. *)
Definition from_ten : progressbar_data_t :=
  luaA_progressbar_bar_properties_set progressbar_new "a"
    (mk_bar_properties None None None None None None
       (Some (F64.of_int 10)) None None).

Definition max_five : bar_properties :=
  mk_bar_properties None None None None None None None
    (Some (F64.of_int 5)) None.

Section Registry.

Context {host : Host}.

(** The four steps of a range update, in the words of the specification:
    the new minimum is stored if there is one; the maximum is bumped if it
    is not above the minimum, and the value raised to the minimum; the
    new maximum is stored if there is one; the minimum is pulled below a
    maximum it is not below, and the value lowered to the maximum. *)
Definition range_store_min (new_min : option double) (bar : bar_t) : bar_t :=
  match new_min with
  | Some x => set_min_value bar (F32.of_double x)
  | None => bar
  end.

Definition range_bump_max (bar : bar_t) : bar_t :=
  let bar :=
    if F32.leb (max_value bar) (min_value bar)
    then set_max_value bar
           (F32.of_double (F64.add (F64.of_float (max_value bar)) lit_0_0001))
    else bar in
  if F32.ltb (value bar) (min_value bar)
  then set_value bar (min_value bar)
  else bar.

Definition range_store_max (new_max : option double) (bar : bar_t) : bar_t :=
  match new_max with
  | Some x => set_max_value bar (F32.of_double x)
  | None => bar
  end.

Definition range_pull_min (bar : bar_t) : bar_t :=
  let bar :=
    if F32.geb (min_value bar) (max_value bar)
    then set_min_value bar
           (F32.of_double (F64.sub (F64.of_float (max_value bar)) lit_0_0001))
    else bar in
  if F32.gtb (value bar) (max_value bar)
  then set_value bar (max_value bar)
  else bar.

Definition set_range (new_min new_max : option double) (bar : bar_t) : bar_t :=
  range_pull_min
    (range_store_max new_max (range_bump_max (range_store_min new_min bar))).

Lemma set_min_value_same (bar : bar_t) :
  set_min_value bar (min_value bar) = bar.
Proof. now destruct bar. Qed.

Lemma set_max_value_same (bar : bar_t) :
  set_max_value bar (max_value bar) = bar.
Proof. now destruct bar. Qed.

(** Storing the number read from the table, the field being the default. *)
Lemma store_min_getopt (new_min : option double) (bar : bar_t) :
  F32.valid (min_value bar) = true ->
  set_min_value bar
    (F32.of_double (luaA_getopt new_min (F64.of_float (min_value bar))))
  = range_store_min new_min bar.
Proof.
  intros V. destruct new_min as [x|]; cbn [luaA_getopt range_store_min].
  - reflexivity.
  - rewrite float_double_float by exact V. apply set_min_value_same.
Qed.

Lemma store_max_getopt (new_max : option double) (bar : bar_t) :
  F32.valid (max_value bar) = true ->
  set_max_value bar
    (F32.of_double (luaA_getopt new_max (F64.of_float (max_value bar))))
  = range_store_max new_max bar.
Proof.
  intros V. destruct new_max as [x|]; cbn [luaA_getopt range_store_max].
  - reflexivity.
  - rewrite float_double_float by exact V. apply set_max_value_same.
Qed.

Lemma F32_of_double_is_valid (x : spec_float) :
  F32.valid (F32.of_double x) = true.
Proof.
  destruct x as [s|s| |s m e]; try reflexivity.
  apply binary_normalize_valid. reflexivity.
Qed.

Lemma range_bump_max_valid (bar : bar_t) :
  F32.valid (max_value bar) = true ->
  F32.valid (max_value (range_bump_max bar)) = true.
Proof.
  intros V. unfold range_bump_max.
  destruct (F32.leb (max_value bar) (min_value bar));
    match goal with
    | |- context [if ?c then _ else _] => destruct c
    end; cbn [max_value set_max_value set_value];
    auto using F32_of_double_is_valid.
Qed.

(** C3. The range assignments of [bar_properties_set] are the four steps
    in their order: store the new minimum if present; bump the maximum by
    0.0001 if it is not above the minimum, and raise the value to the
    minimum if it is below; store the new maximum if present; pull the
    minimum to the maximum minus 0.0001 if it is not below the maximum, and
    lower the value to the maximum if it is above. The two clamps of the
    value are steps of their own: they do not depend on a bump or a pull
    having taken place. On a bar whose minimum is 10, the table
    [{max_value = 5}] gives the maximum 5 and the minimum [5 - 0.0001]
    (the subtraction is done in double, its result stored as a float). *)
Theorem range_update_in_two_phases :
  forall (p : bar_properties) (bar : bar_t),
    F32.valid (min_value bar) = true ->
    F32.valid (max_value bar) = true ->
    bar_set_range p bar = set_range (p_min_value p) (p_max_value p) bar /\
    (min_value bar = F32.of_int 10 ->
     p_min_value p = None -> p_max_value p = Some (F64.of_int 5) ->
     max_value (bar_set_range p bar) = F32.of_int 5 /\
     min_value (bar_set_range p bar)
     = F32.of_double (F64.sub (F64.of_int 5) lit_0_0001)).
Proof.
  intros p bar Vmin Vmax.
  assert (E : bar_set_range p bar
              = set_range (p_min_value p) (p_max_value p) bar).
  { set (b1 := set_min_value bar
                 (F32.of_double
                    (luaA_getopt (p_min_value p)
                                 (F64.of_float (min_value bar))))).
    set (b2 := range_bump_max b1).
    assert (U : bar_set_range p bar
                = range_pull_min
                    (set_max_value b2
                       (F32.of_double
                          (luaA_getopt (p_max_value p)
                                       (F64.of_float (max_value b2))))))
      by reflexivity.
    rewrite U. unfold set_range.
    assert (E1 : b1 = range_store_min (p_min_value p) bar)
      by (apply store_min_getopt; exact Vmin).
    assert (V2 : F32.valid (max_value b2) = true).
    { subst b2. apply range_bump_max_valid. rewrite E1.
      destruct (p_min_value p); cbn [range_store_min]; exact Vmax. }
    rewrite (store_max_getopt (p_max_value p) b2 V2).
    subst b2. now rewrite E1. }
  split; [exact E|].
  intros Hmin Hpmin Hpmax. rewrite E.
  unfold set_range. rewrite Hpmin, Hpmax. cbn [range_store_min range_store_max].
  assert (G : F32.geb (F32.of_int 10) (F32.of_double (F64.of_int 5)) = true)
    by (vm_compute; reflexivity).
  assert (Emax : F32.of_double (F64.of_int 5) = F32.of_int 5)
    by (vm_compute; reflexivity).
  assert (Emin : F32.of_double
                   (F64.sub (F64.of_float (F32.of_double (F64.of_int 5)))
                            lit_0_0001)
                 = F32.of_double (F64.sub (F64.of_int 5) lit_0_0001))
    by (vm_compute; reflexivity).
  assert (Hb : min_value (range_bump_max bar) = F32.of_int 10).
  { unfold range_bump_max.
    destruct (F32.leb (max_value bar) (min_value bar));
      match goal with
      | |- context [if ?c then _ else _] => destruct c
      end; cbn [min_value set_max_value set_value]; exact Hmin. }
  unfold range_pull_min.
  cbn [min_value max_value set_max_value]. rewrite Hb, G.
  cbn [min_value max_value set_min_value value].
  destruct (F32.gtb _ _);
    cbn [min_value max_value set_min_value set_value];
    rewrite Emin, Emax; auto.
Qed.

End Registry.

Lemma range_update_in_two_phases_witness :
  max_value (bar_set_range max_five (first_bar from_ten))
  = F32.of_int 5 /\
  min_value (bar_set_range max_five (first_bar from_ten))
  = S754_finite false 10485550 (-21).
Proof.
  assert (V1 : F32.valid (min_value (first_bar from_ten)) = true)
    by (vm_compute; reflexivity).
  assert (V2 : F32.valid (max_value (first_bar from_ten)) = true)
    by (vm_compute; reflexivity).
  assert (H10 : min_value (first_bar from_ten) = F32.of_int 10)
    by (vm_compute; reflexivity).
  destruct (proj2 (range_update_in_two_phases max_five (first_bar from_ten)
                     V1 V2) H10 eq_refl eq_refl) as [Hmax Hmin].
  split; [exact Hmax|].
  rewrite Hmin. vm_compute. reflexivity.
Defined.

(** C2 fails at 4096. Setting [max_value = -4096] on a new bar (range
    0..100, value 0) pulls the minimum to [-4096 - 0.0001], which as a
    [float] is -4096 again: minimum, maximum and value are equal, and the
    next draw call divides 0 by 0 and converts the result to [int]. *)
Theorem range_not_strict_at_4096 :
  bars below_4096
  = [ {| title := "a";
         min_value := S754_finite true 8388608 (-11);
         max_value := S754_finite true 8388608 (-11);
         value := S754_finite true 8388608 (-11);
         reverse := false;
         fg := "fg"%string; fg_off := "bg"%string;
         pfg_center := None; pfg_end := None;
         bg := "bg"%string; bordercolor := "fg"%string |} ] /\
  F32.of_int (-4096) = S754_finite true 8388608 (-11) /\
  F32.ltb (min_value (first_bar below_4096))
          (max_value (first_bar below_4096)) = false /\
  progressbar_draw 0 sample_ctx true below_4096 0 fresh_state
  = Fault UndefinedConversion.
Proof. repeat split; vm_compute; reflexivity. Qed.

(* ------------------------------------------------------------------ *)
(** ** The progress of a bar *)

Section Progress.

Context {host : Host}.

(** The formulas of the specification. Ticks are in use when
    [ticks_count > 0] and [ticks_gap > 0]. *)
Definition spec_quantized (d : progressbar_data_t) : bool :=
  (0 <? ticks_count d) && (0 <? ticks_gap d).

(** [truncate (scale * (value - min) / (max - min) + 0.5)]: the product
    and the quotient are computed on [float], the sum on [double]. *)
Definition rounded_ratio (scale : Z) (bar : bar_t) : result Z :=
  int_of_float
    (F64.add
       (F64.of_float
          (F32.div (F32.mul (F32.of_int scale)
                            (F32.sub (value bar) (min_value bar)))
                   (F32.sub (max_value bar) (min_value bar))))
       lit_0_5).

Definition spec_progress (d : progressbar_data_t) (secondary_length unit : Z)
    (bar : bar_t) : result Z :=
  if spec_quantized d then
    ticks <~ rounded_ratio (ticks_count d) bar ;;
    Ok (if 0 <? ticks then ticks * unit - ticks_gap d else 0)
  else rounded_ratio secondary_length bar.

(** The rounded ratio of a bar whose value is not below its minimum and
    whose maximum is not below its minimum is not negative. *)
Lemma rounded_ratio_not_negative (scale : Z) (bar : bar_t) (t : Z) :
  0 <= scale ->
  F32.valid (min_value bar) = true ->
  F32.valid (max_value bar) = true ->
  F32.valid (value bar) = true ->
  F32.leb (min_value bar) (value bar) = true ->
  F32.leb (min_value bar) (max_value bar) = true ->
  rounded_ratio scale bar = Ok t -> 0 <= t.
Proof.
  intros Hs Vmin Vmax Vv Hv Hm. unfold rounded_ratio.
  apply int_of_float_not_negative.
  apply SFadd_not_negative; [|vm_compute; reflexivity].
  apply fof_float_not_negative.
  apply SFdiv_not_negative.
  - apply SFmul_not_negative.
    + now apply fof_int_not_negative.
    + apply SFsub_not_negative; auto. reflexivity.
  - apply SFsub_not_negative; auto. reflexivity.
Qed.

(** C4, as the code has it. Ticks are in use when [ticks_count] and
    [ticks_gap] are not zero, negative settings included: then
    [ticks = truncate (ticks_count * (value - min) / (max - min) + 0.5)]
    and the progress is [ticks * unit - ticks_gap] when [ticks] is not
    zero, 0 otherwise, [ticks * unit - ticks_gap] being within the range
    of [int]. When [ticks_count] or [ticks_gap] is zero the progress is
    [truncate (secondary_length * (value - min) / (max - min) + 0.5)].
    When the tick settings are not negative, the value of the bar is not
    below its minimum nor its maximum below its minimum, this is the
    formula of the specification, which tests [ticks_count > 0],
    [ticks_gap > 0] and [ticks > 0]. With [width=80, border_width=1,
    border_padding=0], horizontal, without ticks, a bar of range 0..100
    holding 50 is filled along 39 of its 78 pixels. *)
Theorem progress_formula :
  forall (d : progressbar_data_t) (secondary_length unit : Z) (bar : bar_t),
    let fits :=
      forall ticks,
        rounded_ratio (ticks_count d) bar = Ok ticks ->
        CInt.in_int (ticks * unit) /\
        CInt.in_int (ticks * unit - ticks_gap d) in
    (ticks_count d <> 0 -> ticks_gap d <> 0 -> fits ->
     bar_progress d secondary_length unit bar
     = (ticks <~ rounded_ratio (ticks_count d) bar ;;
        Ok (if ticks =? 0 then 0 else ticks * unit - ticks_gap d))) /\
    (ticks_count d = 0 \/ ticks_gap d = 0 ->
     bar_progress d secondary_length unit bar
     = rounded_ratio secondary_length bar) /\
    (0 <= ticks_count d -> 0 <= ticks_gap d -> fits ->
     F32.valid (min_value bar) = true ->
     F32.valid (max_value bar) = true ->
     F32.valid (value bar) = true ->
     F32.leb (min_value bar) (value bar) = true ->
     F32.leb (min_value bar) (max_value bar) = true ->
     bar_progress d secondary_length unit bar
     = spec_progress d secondary_length unit bar) /\
    (width d = 80 -> border_width d = 1 -> border_padding d = 0 ->
     vertical d = false -> ticks_count d = 0 ->
     min_value bar = S754_zero false ->
     max_value bar = F32.of_int 100 -> value bar = F32.of_int 50 ->
     layout_widths d 1 = Ok (78, 0, 80) /\
     bar_progress d 78 0 bar = Ok 39).
Proof.
  intros d L unit bar fits.
  assert (Hticks :
            quantized d = true -> fits ->
            bar_progress d L unit bar
            = (ticks <~ rounded_ratio (ticks_count d) bar ;;
               Ok (if ticks =? 0 then 0 else ticks * unit - ticks_gap d))).
  { intros Hq Hfit. unfold bar_progress. rewrite Hq.
    change (values_ticks d bar) with (rounded_ratio (ticks_count d) bar).
    destruct (rounded_ratio (ticks_count d) bar) as [t|f] eqn:Et;
      [|reflexivity].
    cbn [rbind]. f_equal.
    destruct (Hfit t eq_refl) as [F1 F2].
    unfold CInt.truthy. destruct (t =? 0); cbn [negb]; [reflexivity|].
    unfold CInt.sub, CInt.mul. rewrite (wrap_small (t * unit)) by exact F1.
    now apply wrap_small. }
  assert (Hplain :
            quantized d = false ->
            bar_progress d L unit bar = rounded_ratio L bar).
  { intros Hq. unfold bar_progress. rewrite Hq. reflexivity. }
  split; [|split; [|split]].
  - intros Htc Htg Hfit. apply Hticks; [|exact Hfit].
    unfold quantized, CInt.truthy.
    destruct (Z.eqb_spec (ticks_count d) 0), (Z.eqb_spec (ticks_gap d) 0);
      [contradiction..|reflexivity].
  - intros Hz. apply Hplain. unfold quantized, CInt.truthy.
    destruct Hz as [-> | ->]; [reflexivity|].
    cbn. apply andb_false_r.
  - intros Htc Htg Hfit Vmin Vmax Vv Hv Hm. unfold spec_progress.
    assert (Hq : quantized d = spec_quantized d).
    { unfold quantized, spec_quantized, CInt.truthy.
      destruct (Z.eqb_spec (ticks_count d) 0), (Z.ltb_spec 0 (ticks_count d)),
        (Z.eqb_spec (ticks_gap d) 0), (Z.ltb_spec 0 (ticks_gap d));
        cbn; try reflexivity; lia. }
    rewrite <- Hq. destruct (quantized d) eqn:Eq; [|now apply Hplain].
    rewrite (Hticks eq_refl Hfit).
    destruct (rounded_ratio (ticks_count d) bar) as [t|f] eqn:Et;
      [|reflexivity].
    cbn [rbind]. f_equal.
    pose proof (rounded_ratio_not_negative _ _ _ Htc Vmin Vmax Vv Hv Hm Et)
      as Ht.
    destruct (Z.eqb_spec t 0), (Z.ltb_spec 0 t); try reflexivity; lia.
  - intros Hw Hbw Hbp Hvert Hc Emin Emax Eval.
    assert (Hq : quantized d = false).
    { unfold quantized. rewrite Hc. reflexivity. }
    split.
    + unfold layout_widths. rewrite Hvert, Hq, Hw, Hbw, Hbp. reflexivity.
    + unfold bar_progress. rewrite Hq, Emin, Emax, Eval.
      vm_compute. reflexivity.
Qed.

End Progress.

(** A widget whose [ticks_gap] is negative: one bar of range 0..100
    holding 20, [width=80, border_width=1, ticks_count=10,
    ticks_gap=-1]. *)
Definition negative_gap : progressbar_data_t :=
  with_layout (one_bar 20) 80 2 1 0 (-1) 10 false.

Lemma progress_formula_witness :
  (bar_progress ten_ticks 69 7 (first_bar ten_ticks) = Ok 34 /\
   spec_progress ten_ticks 69 7 (first_bar ten_ticks) = Ok 34) /\
  bar_progress negative_gap 71 7 (first_bar negative_gap)
  = (ticks <~ rounded_ratio 10 (first_bar negative_gap) ;;
     Ok (if ticks =? 0 then 0 else ticks * 7 - (-1))).
Proof.
  split.
  - assert (E : bar_progress ten_ticks 69 7 (first_bar ten_ticks) = Ok 34)
      by (vm_compute; reflexivity).
    assert (R : rounded_ratio (ticks_count ten_ticks) (first_bar ten_ticks)
                = Ok 5) by (vm_compute; reflexivity).
    split; [exact E|].
    rewrite <- E. symmetry.
    refine (proj1 (proj2 (proj2
              (progress_formula (host := sample_host) ten_ticks 69 7
                 (first_bar ten_ticks)))) _ _ _ _ _ _ _ _).
    + vm_compute. discriminate.
    + vm_compute. discriminate.
    + intros ticks H. rewrite R in H. injection H as <-.
      split; vm_compute; split; discriminate.
    + vm_compute. reflexivity.
    + vm_compute. reflexivity.
    + vm_compute. reflexivity.
    + vm_compute. reflexivity.
    + vm_compute. reflexivity.
  - assert (R : rounded_ratio (ticks_count negative_gap)
                  (first_bar negative_gap) = Ok 2)
      by (vm_compute; reflexivity).
    refine (proj1 (progress_formula (host := sample_host) negative_gap 71 7
                     (first_bar negative_gap)) _ _ _).
    + vm_compute. discriminate.
    + vm_compute. discriminate.
    + intros ticks H. rewrite R in H. injection H as <-.
      split; vm_compute; split; discriminate.
Defined.

(** C4 as stated fails for a negative [ticks_gap]: the code draws with
    ticks (the length of the bar is 71, the unit 7, and two ticks give a
    progress of 15), where the test [ticks_gap > 0] of the specification
    gives the formula without ticks, 14. *)
Lemma progress_with_negative_gap_counterexample :
  layout_widths negative_gap 1 = Ok (71, 7, 73) /\
  spec_quantized negative_gap = false /\
  bar_progress negative_gap 71 7 (first_bar negative_gap) = Ok 15 /\
  spec_progress negative_gap 71 7 (first_bar negative_gap) = Ok 14.
Proof. repeat split; vm_compute; reflexivity. Qed.


(* ------------------------------------------------------------------ *)
(** * The values of floating-point numbers *)

(** ** Powers of two *)

Definition bpow (e : Z) : R := powerRZ 2 e.

Lemma bpow_gt_0 (e : Z) : (0 < bpow e)%R.
Proof. apply powerRZ_lt. lra. Qed.

Lemma bpow_add (a b : Z) : bpow (a + b) = (bpow a * bpow b)%R.
Proof. apply powerRZ_add. lra. Qed.

Lemma bpow_0 : bpow 0 = 1%R.
Proof. reflexivity. Qed.

Lemma bpow_1 : bpow 1 = 2%R.
Proof. unfold bpow. simpl. lra. Qed.

Lemma bpow_m1 : bpow (-1) = (/ 2)%R.
Proof. unfold bpow. simpl. f_equal. lra. Qed.

Lemma bpow_opp (a : Z) : bpow (- a) = (/ bpow a)%R.
Proof. apply powerRZ_neg'. Qed.

Lemma bpow_succ (a : Z) : bpow (a + 1) = (2 * bpow a)%R.
Proof. rewrite bpow_add, bpow_1. lra. Qed.

Lemma bpow_IZR (n : Z) : 0 <= n -> bpow n = IZR (2 ^ n).
Proof.
  intros H. unfold bpow.
  rewrite <- (Z2Nat.id n H), <- pow_powerRZ, pow_IZR. reflexivity.
Qed.

Lemma bpow_ge_1 (n : Z) : 0 <= n -> (1 <= bpow n)%R.
Proof.
  intros H. rewrite bpow_IZR by exact H. apply IZR_le.
  pose proof (Z.pow_pos_nonneg 2 n ltac:(lia) H). lia.
Qed.

Lemma bpow_le (a b : Z) : a <= b -> (bpow a <= bpow b)%R.
Proof.
  intros H. replace b with (a + (b - a)) by lia. rewrite bpow_add.
  pose proof (bpow_gt_0 a). pose proof (bpow_ge_1 (b - a) ltac:(lia)).
  nra.
Qed.

Lemma bpow_lt (a b : Z) : a < b -> (bpow a < bpow b)%R.
Proof.
  intros H. replace b with (a + 1 + (b - a - 1)) by lia.
  rewrite bpow_add, bpow_succ.
  pose proof (bpow_gt_0 a). pose proof (bpow_ge_1 (b - a - 1) ltac:(lia)).
  nra.
Qed.

Lemma bpow_lt_inv (a b : Z) : (bpow a < bpow b)%R -> a < b.
Proof.
  intros H. destruct (Z_lt_le_dec a b) as [|Hle]; auto.
  pose proof (bpow_le b a Hle). lra.
Qed.

(** The binade of a number is unique. *)
Lemma binade_unique (x : R) (d1 d2 : Z) :
  (bpow (d1 - 1) <= x < bpow d1)%R -> (bpow (d2 - 1) <= x < bpow d2)%R ->
  d1 = d2.
Proof.
  intros [L1 U1] [L2 U2].
  assert (d1 - 1 < d2) by (apply bpow_lt_inv; lra).
  assert (d2 - 1 < d1) by (apply bpow_lt_inv; lra).
  lia.
Qed.

Lemma binade_le (x y : R) (d1 d2 : Z) :
  (bpow (d1 - 1) <= x < bpow d1)%R -> (bpow (d2 - 1) <= y < bpow d2)%R ->
  (x <= y)%R -> d1 <= d2.
Proof.
  intros [L1 U1] [L2 U2] H.
  assert (d1 - 1 < d2) by (apply bpow_lt_inv; lra).
  lia.
Qed.

(** The binade of a positive integer is its number of digits. *)
Lemma binade_digits (m : Z) :
  0 < m -> (bpow (Zdigits2 m - 1) <= IZR m < bpow (Zdigits2 m))%R.
Proof.
  intros Hm. pose proof (Zdigits2_bounds m Hm) as [L U].
  pose proof (Zdigits2_pos m Hm).
  rewrite !bpow_IZR by lia. split; [apply IZR_le | apply IZR_lt]; lia.
Qed.

(** ** Values *)

Definition F2R (m e : Z) : R := (IZR m * bpow e)%R.

(** The value of a finite number; 0 for what is not finite. *)
Definition SF2R (x : spec_float) : R :=
  match x with
  | S754_finite s m e => F2R (cond_Zopp s (Zpos m)) e
  | _ => 0%R
  end.

Lemma F2R_shift (m e k : Z) : 0 <= k -> F2R (m * 2 ^ k) (e - k) = F2R m e.
Proof.
  intros Hk. unfold F2R. rewrite mult_IZR, <- bpow_IZR by exact Hk.
  replace e with ((e - k) + k) at 2 by lia. rewrite bpow_add. ring.
Qed.

(** ** Places between two integers *)

(** [x] lies at the place [l] of the interval from [m] to [m + 1]. *)
Definition located (x : R) (m : Z) (l : location) : Prop :=
  match l with
  | loc_Exact => x = IZR m
  | loc_Inexact Lt => (IZR m < x < IZR m + / 2)%R
  | loc_Inexact Eq => x = (IZR m + / 2)%R
  | loc_Inexact Gt => (IZR m + / 2 < x < IZR m + 1)%R
  end.

Lemma located_bounds (x : R) (m : Z) (l : location) :
  located x m l -> (IZR m <= x < IZR m + 1)%R.
Proof. destruct l as [|[ | | ]]; cbn [located]; lra. Qed.

Lemma loc_of_shr_record_of_loc (m : Z) (l : location) :
  loc_of_shr_record (shr_record_of_loc m l) = l.
Proof. destruct l as [|[ | | ]]; reflexivity. Qed.

Lemma located_shr_1 (x : R) (r : shr_record) :
  0 <= shr_m r ->
  located x (shr_m r) (loc_of_shr_record r) ->
  located (x / 2) (shr_m (shr_1 r)) (loc_of_shr_record (shr_1 r)).
Proof.
  destruct r as [m rb sb]. cbn [shr_m]. intros Hm.
  destruct m as [|[p|p|]|p]; try lia;
    destruct rb, sb; cbn [shr_1 shr_m loc_of_shr_record located orb];
    rewrite ?(Pos2Z.inj_xI p), ?(Pos2Z.inj_xO p), ?plus_IZR, ?mult_IZR;
    intros H; lra.
Qed.

Lemma located_shr_iter (n : nat) (x : R) (r : shr_record) :
  0 <= shr_m r ->
  located x (shr_m r) (loc_of_shr_record r) ->
  located (x * bpow (- Z.of_nat n)) (shr_m (Nat.iter n shr_1 r))
          (loc_of_shr_record (Nat.iter n shr_1 r)).
Proof.
  intros Hm H. induction n as [|n IH].
  - change (bpow (- Z.of_nat 0)) with 1%R. rewrite Rmult_1_r. exact H.
  - rewrite Nat.iter_succ.
    replace (x * bpow (- Z.of_nat (S n)))%R
      with (x * bpow (- Z.of_nat n) / 2)%R.
    + apply located_shr_1; [now apply shr_iter_nonneg | exact IH].
    + rewrite Nat2Z.inj_succ.
      replace (- Z.succ (Z.of_nat n)) with (- Z.of_nat n + -1) by lia.
      rewrite bpow_add, bpow_m1. field.
Qed.

(** Nearest integer, ties to even. *)
Lemma round_located_le (x y : R) (m1 m2 : Z) (l1 l2 : location) :
  located x m1 l1 -> located y m2 l2 -> (x <= y)%R ->
  round_nearest_even m1 l1 <= round_nearest_even m2 l2.
Proof.
  intros H1 H2 Hxy.
  pose proof (located_bounds _ _ _ H1) as B1.
  pose proof (located_bounds _ _ _ H2) as B2.
  pose proof (round_nearest_even_bounds m1 l1) as R1.
  pose proof (round_nearest_even_bounds m2 l2) as R2.
  assert (Hm : m1 <= m2).
  { assert (m1 < m2 + 1); [|lia].
    apply lt_IZR. rewrite plus_IZR. lra. }
  destruct (Z.eq_dec m1 m2) as [->|Hne]; [|lia].
  destruct l1 as [|[ | | ]], l2 as [|[ | | ]];
    cbn [located round_nearest_even] in *; try lia; try lra;
    destruct (Z.even m2); lia.
Qed.

Lemma Zdigits2_pow2 (k : Z) : 0 <= k -> Zdigits2 (2 ^ k) = k + 1.
Proof.
  intros Hk. pose proof (Z.pow_pos_nonneg 2 k ltac:(lia) Hk).
  apply Zdigits2_unique; [|lia].
  replace (k + 1 - 1) with k by lia. rewrite Z.pow_add_r by lia. lia.
Qed.

Lemma located_nonneg (x : R) (m : Z) (l : location) :
  located x m l -> (0 < x)%R -> 0 <= m.
Proof.
  intros H Hx. pose proof (located_bounds _ _ _ H) as [_ U].
  assert (-1 < m); [|lia]. apply lt_IZR. lra.
Qed.

Lemma located_below_half (x : R) (m : Z) (l : location) :
  located x m l -> (0 < x < / 2)%R -> round_nearest_even m l = 0.
Proof.
  intros H Hx. pose proof (located_bounds _ _ _ H) as [L U].
  assert (Hm : m = 0).
  { assert (-1 < m) by (apply lt_IZR; lra).
    assert (m < 1) by (apply lt_IZR; lra). lia. }
  subst m. destruct l as [|[ | | ]]; cbn [located round_nearest_even] in *;
    try reflexivity; lra.
Qed.

Lemma located_upper (x : R) (m : Z) (l : location) (k : Z) :
  located x m l -> 0 <= k -> (x < bpow k)%R ->
  round_nearest_even m l <= 2 ^ k.
Proof.
  intros H Hk Hx. pose proof (located_bounds _ _ _ H) as [L U].
  pose proof (round_nearest_even_bounds m l).
  rewrite bpow_IZR in Hx by exact Hk.
  assert (m < 2 ^ k) by (apply lt_IZR; lra). lia.
Qed.

Lemma located_lower (x : R) (m : Z) (l : location) (k : Z) :
  located x m l -> 0 <= k -> (bpow k <= x)%R ->
  2 ^ k <= round_nearest_even m l.
Proof.
  intros H Hk Hx. pose proof (located_bounds _ _ _ H) as [L U].
  pose proof (round_nearest_even_bounds m l).
  rewrite bpow_IZR in Hx by exact Hk.
  assert (2 ^ k < m + 1) by (apply lt_IZR; rewrite plus_IZR; lra). lia.
Qed.

(** ** Rounding to nearest *)

Section RoundingValues.

Variables prec emax : Z.
Hypothesis prec_pos : 0 < prec.

Local Abbreviation fexp := (SpecFloat.fexp prec emax).
Local Abbreviation emin := (SpecFloat.emin prec emax).

Lemma fexp_succ (k : Z) : fexp (k + 1) <= fexp k + 1.
Proof. unfold SpecFloat.fexp. lia. Qed.

Lemma fexp_fexp (k : Z) : fexp (fexp k) <= fexp k.
Proof. unfold SpecFloat.fexp. lia. Qed.

(** [v] is the number of the format nearest to the positive [X], ties
    going to the even mantissa; it may lie beyond the largest number. *)
Definition rounds_to (X v : R) : Prop :=
  exists d m l,
    (bpow (d - 1) <= X < bpow d)%R /\
    located (X * bpow (- fexp d)) m l /\
    v = F2R (round_nearest_even m l) (fexp d).

Lemma rounds_to_nonneg (X v : R) : rounds_to X v -> (0 <= v)%R.
Proof.
  intros (d & m & l & [L U] & Hl & ->).
  pose proof (bpow_gt_0 (d - 1)). pose proof (bpow_gt_0 (- fexp d)).
  pose proof (bpow_gt_0 (fexp d)).
  assert (0 < X * bpow (- fexp d))%R by (apply Rmult_lt_0_compat; lra).
  pose proof (located_nonneg _ _ _ Hl H2).
  pose proof (round_nearest_even_bounds m l).
  unfold F2R. apply Rmult_le_pos; [|lra]. apply IZR_le. lia.
Qed.

(** Rounding is monotone. *)
Lemma rounds_to_le (X Y v w : R) :
  rounds_to X v -> rounds_to Y w -> (X <= Y)%R -> (v <= w)%R.
Proof.
  intros (d1 & m1 & l1 & B1 & H1 & ->) (d2 & m2 & l2 & B2 & H2 & ->) Hxy.
  pose proof (binade_le _ _ _ _ B1 B2 Hxy) as Hd.
  pose proof (fexp_le prec emax _ _ Hd) as Hc.
  pose proof (bpow_gt_0 (d1 - 1)) as P1.
  pose proof (bpow_gt_0 (fexp d1)) as Pc1.
  pose proof (bpow_gt_0 (fexp d2)) as Pc2.
  pose proof (bpow_gt_0 (- fexp d1)) as Pn1.
  pose proof (bpow_gt_0 (- fexp d2)) as Pn2.
  unfold F2R.
  destruct (Z.eq_dec (fexp d1) (fexp d2)) as [E|NE].
  - rewrite E in *.
    apply Rmult_le_compat_r; [lra|]. apply IZR_le.
    eapply round_located_le; eauto.
    apply Rmult_le_compat_r; lra.
  - assert (Hlt : fexp d1 < fexp d2) by lia.
    assert (Hd' : d1 < d2).
    { destruct (Z.eq_dec d1 d2) as [->|]; lia. }
    assert (Ec2 : fexp d2 = d2 - prec) by (unfold SpecFloat.fexp in *; lia).
    (* the smaller number rounds to at most the top of its binade *)
    assert (Hv : (IZR (round_nearest_even m1 l1) * bpow (fexp d1)
                  <= bpow d1)%R).
    { assert (Hx' : (0 < X * bpow (- fexp d1) < bpow (d1 - fexp d1))%R).
      { split; [apply Rmult_lt_0_compat; lra|].
        replace (d1 - fexp d1) with (d1 + - fexp d1) by lia.
        rewrite bpow_add. apply Rmult_lt_compat_r; lra. }
      destruct (Z_le_gt_dec 0 (d1 - fexp d1)) as [Hk|Hk].
      - pose proof (located_upper _ _ _ _ H1 Hk (proj2 Hx')) as HN.
        apply IZR_le in HN. rewrite <- bpow_IZR in HN by exact Hk.
        replace d1 with ((d1 - fexp d1) + fexp d1) at 2 by lia.
        rewrite bpow_add. apply Rmult_le_compat_r; lra.
      - assert (bpow (d1 - fexp d1) <= bpow (-1))%R by (apply bpow_le; lia).
        rewrite bpow_m1 in H.
        rewrite (located_below_half _ _ _ H1) by lra.
        pose proof (bpow_gt_0 d1). lra. }
    (* the larger number rounds to at least the bottom of its binade *)
    assert (Hw : (bpow (d2 - 1)
                  <= IZR (round_nearest_even m2 l2) * bpow (fexp d2))%R).
    { assert (Hk : 0 <= d2 - 1 - fexp d2) by lia.
      assert (Hy' : (bpow (d2 - 1 - fexp d2) <= Y * bpow (- fexp d2))%R).
      { replace (d2 - 1 - fexp d2) with (d2 - 1 + - fexp d2) by lia.
        rewrite bpow_add. apply Rmult_le_compat_r; lra. }
      pose proof (located_lower _ _ _ _ H2 Hk Hy') as HN.
      apply IZR_le in HN. rewrite <- bpow_IZR in HN by exact Hk.
      replace (d2 - 1) with ((d2 - 1 - fexp d2) + fexp d2) at 1 by lia.
      rewrite bpow_add. apply Rmult_le_compat_r; lra. }
    pose proof (bpow_le d1 (d2 - 1) ltac:(lia)). lra.
Qed.


(** The truncation of a located mantissa. *)
Lemma shr_fexp_located (m e : Z) (l : location) (x : R) :
  0 <= m -> located x m l ->
  let r := fst (shr_fexp prec emax m e l) in
  let e' := snd (shr_fexp prec emax m e l) in
  e' = e + Z.max 0 (fexp (Zdigits2 m + e) - e) /\
  0 <= shr_m r /\
  located (x * bpow (e - e')) (shr_m r) (loc_of_shr_record r).
Proof.
  intros Hm Hl. unfold shr_fexp.
  set (n := fexp (Zdigits2 m + e) - e).
  assert (H0 : 0 <= shr_m (shr_record_of_loc m l))
    by (now rewrite shr_record_of_loc_m).
  assert (Hl0 : located x (shr_m (shr_record_of_loc m l))
                  (loc_of_shr_record (shr_record_of_loc m l)))
    by (now rewrite shr_record_of_loc_m, loc_of_shr_record_of_loc).
  cbv zeta. rewrite shr_snd. split; [reflexivity|].
  unfold shr. destruct n as [|p|p]; cbn [fst].
  - split; [exact H0|].
    replace (e - (e + Z.max 0 0)) with 0 by lia.
    rewrite bpow_0, Rmult_1_r. exact Hl0.
  - rewrite iter_pos_nat. split; [now apply shr_iter_nonneg|].
    replace (e - (e + Z.max 0 (Zpos p))) with (- Z.of_nat (Pos.to_nat p))
      by lia.
    now apply located_shr_iter.
  - split; [exact H0|].
    replace (e - (e + Z.max 0 (Zneg p))) with 0 by lia.
    rewrite bpow_0, Rmult_1_r. exact Hl0.
Qed.

(** What a rounding of sign [s] returns for the positive [X]: a zero or a
    finite number of that sign whose magnitude is [X] rounded, or the
    infinity of that sign. *)
Definition rounded (s : bool) (X : R) (r : spec_float) : Prop :=
  match r with
  | S754_nan => False
  | S754_infinity s' => s' = s
  | S754_zero s' => s' = s /\ rounds_to X 0
  | S754_finite s' m e => s' = s /\ rounds_to X (F2R (Zpos m) e)
  end.

(** The last step of a rounding: a mantissa that carried into one more
    digit is shifted by one place, without loss. *)
Lemma shr_fexp_carry (N c d : Z) :
  0 <= N -> c = fexp d -> N <= 2 ^ (d - c) \/ d < c ->
  (d < c -> N = 0) ->
  let r := fst (shr_fexp prec emax N c loc_Exact) in
  let e' := snd (shr_fexp prec emax N c loc_Exact) in
  0 <= shr_m r /\ F2R (shr_m r) e' = F2R N c.
Proof.
  intros HN Hc Hup Hsmall.
  pose proof (shr_fexp_canonical prec emax prec_pos N c loc_Exact HN) as Hcan.
  unfold shr_fexp in *.
  set (n := fexp (Zdigits2 N + c) - c) in *.
  cbv zeta. rewrite shr_snd, shr_fst_m, shr_record_of_loc_m
    by (now rewrite shr_record_of_loc_m).
  destruct (Z_le_gt_dec n 0) as [Hn|Hn].
  - rewrite Z.max_l by exact Hn.
    change (2 ^ 0) with 1. rewrite Z.div_1_r, Z.add_0_r. auto.
  - rewrite Z.max_r by lia.
    split; [apply Z.div_pos; [lia|apply Z.pow_pos_nonneg; lia]|].
    assert (Hemin : emin <= c) by (subst c; apply fexp_ge_emin).
    assert (HNpos : 0 < N).
    { destruct (Z.eq_dec N 0) as [->|]; [|lia].
      subst n. cbn [Zdigits2] in Hn. unfold SpecFloat.fexp in Hn. lia. }
    assert (Hdc : c <= d) by (destruct (Z_le_gt_dec c d); auto; lia).
    destruct Hup as [Hup|]; [|lia].
    assert (Hdig : d - c < Zdigits2 N).
    { destruct (Z_lt_le_dec (d - c) (Zdigits2 N)); auto.
      assert (fexp (Zdigits2 N + c) <= fexp d) by (apply fexp_le; lia).
      lia. }
    pose proof (Zdigits2_bounds N HNpos) as [HL _].
    assert (HNeq : N = 2 ^ (d - c)).
    { assert (2 ^ (d - c) <= 2 ^ (Zdigits2 N - 1))
        by (apply Z.pow_le_mono_r; lia). lia. }
    assert (Hn1 : n = 1).
    { subst n. rewrite HNeq, Zdigits2_pow2 by lia.
      replace (d - c + 1 + c) with (d + 1) by lia.
      pose proof (fexp_succ d).
      rewrite HNeq, Zdigits2_pow2 in Hn by lia.
      replace (d - c + 1 + c) with (d + 1) in Hn by lia. lia. }
    assert (Hd1 : 1 <= d - c).
    { destruct (Z.eq_dec (d - c) 0) as [E|]; [|lia].
      exfalso. subst n. rewrite HNeq, E in Hn1.
      change (Zdigits2 (2 ^ 0)) with 1 in Hn1.
      unfold SpecFloat.fexp, SpecFloat.emin in *. lia. }
    rewrite Hn1. change (2 ^ 1) with 2.
    rewrite HNeq.
    replace (d - c) with ((d - c - 1) + 1) by lia.
    rewrite Z.pow_add_r by lia. change (2 ^ 1) with 2.
    rewrite Z.div_mul by lia.
    unfold F2R. rewrite mult_IZR, (bpow_add c 1), bpow_1. ring.
Qed.

Lemma located_IZR (k m : Z) (l : location) :
  located (IZR k) m l -> m = k /\ round_nearest_even m l = k.
Proof.
  intros H. pose proof (located_bounds _ _ _ H) as [L U].
  assert (m <= k) by (apply le_IZR; lra).
  assert (k < m + 1) by (apply lt_IZR; rewrite plus_IZR; lra).
  assert (m = k) by lia. subst m. split; [reflexivity|].
  destruct l as [|[ | | ]]; cbn [located round_nearest_even] in *;
    try reflexivity; lra.
Qed.

Lemma rounded_finish (s : bool) (X : R) (m2 e2 : Z) :
  0 <= m2 -> rounds_to X (F2R m2 e2) ->
  rounded s X
    match m2 with
    | Z0 => S754_zero s
    | Zpos m =>
        if e2 <=? emax - prec then S754_finite s m e2 else S754_infinity s
    | Zneg _ => S754_nan
    end.
Proof.
  intros Hm H. destruct m2 as [|m|m]; try lia.
  - cbn [rounded]. split; [reflexivity|].
    unfold F2R in H. now rewrite Rmult_0_l in H.
  - destruct (e2 <=? emax - prec); cbn [rounded]; auto.
Qed.

(** The rounding of a located mantissa returns the nearest number of the
    format. The place of an inexact mantissa must be fine enough for the
    format. *)
Lemma binary_round_aux_spec (s : bool) (mx ex : Z) (lx : location)
    (x : R) (d : Z) :
  0 <= mx -> located x mx lx ->
  (bpow (d - 1) <= x * bpow ex < bpow d)%R ->
  lx = loc_Exact \/ ex <= fexp d ->
  rounded s (x * bpow ex) (binary_round_aux prec emax s mx ex lx).
Proof.
  intros Hm Hl HB Hpre.
  pose proof (bpow_gt_0 ex) as Pex. pose proof (bpow_gt_0 (d - 1)) as Pd.
  assert (HX : (0 < x * bpow ex)%R) by lra.
  assert (Hx : (0 < x)%R).
  { destruct (Rlt_le_dec 0 x) as [|Hle]; auto.
    assert (x * bpow ex <= 0)%R; [|lra].
    rewrite <- (Rmult_0_l (bpow ex)). apply Rmult_le_compat_r; lra. }
  pose proof (located_bounds _ _ _ Hl) as [Lx Ux].
  assert (Hdig : 0 < mx -> d = Zdigits2 mx + ex).
  { intros Hpos. apply (binade_unique (x * bpow ex)); [exact HB|].
    pose proof (binade_digits mx Hpos) as [L U].
    pose proof (Zdigits2_bounds mx Hpos) as [_ UZ].
    pose proof (Zdigits2_pos mx Hpos) as HD.
    assert (IZR mx + 1 <= bpow (Zdigits2 mx))%R.
    { rewrite bpow_IZR by lia. rewrite <- plus_IZR. apply IZR_le. lia. }
    replace (Zdigits2 mx + ex - 1) with (Zdigits2 mx - 1 + ex) by lia.
    rewrite !bpow_add. split.
    - apply Rmult_le_compat_r; lra.
    - apply Rmult_lt_compat_r; lra. }
  unfold binary_round_aux.
  pose proof (shr_fexp_located mx ex lx x Hm Hl) as H1. cbv zeta in H1.
  destruct (shr_fexp prec emax mx ex lx) as [r1 e1]. cbn [fst snd] in H1.
  destruct H1 as (He1 & Hm1 & Hl1).
  set (N := round_nearest_even (shr_m r1) (loc_of_shr_record r1)).
  pose proof (round_nearest_even_bounds (shr_m r1) (loc_of_shr_record r1))
    as HNb. fold N in HNb.
  assert (Hmain : rounds_to (x * bpow ex) (F2R N e1) /\
                  forall r2 e2,
                    shr_fexp prec emax N e1 loc_Exact = (r2, e2) ->
                    0 <= shr_m r2 /\ F2R (shr_m r2) e2 = F2R N e1).
  { destruct (Z_le_gt_dec ex (fexp d)) as [Hle|Hgt].
    - (* the mantissa is truncated to the exponent of the format *)
      assert (Ee1 : e1 = fexp d).
      { destruct (Z.eq_dec mx 0) as [E0|].
        - subst mx. cbn [Zdigits2] in He1.
          assert (d <= ex).
          { assert (d - 1 < ex); [|lia]. apply bpow_lt_inv.
            assert (x * bpow ex < 1 * bpow ex)%R
              by (apply Rmult_lt_compat_r; lra).
            lra. }
          unfold SpecFloat.fexp in *. lia.
        - rewrite <- (Hdig ltac:(lia)) in He1. lia. }
      assert (Hx' : (x * bpow (ex - e1) = x * bpow ex * bpow (- fexp d))%R).
      { rewrite Ee1. replace (ex - fexp d) with (ex + - fexp d) by lia.
        rewrite bpow_add. ring. }
      rewrite Hx' in Hl1.
      assert (Hup : (0 < x * bpow ex * bpow (- fexp d)
                     < bpow (d - fexp d))%R).
      { pose proof (bpow_gt_0 (- fexp d)).
        split; [apply Rmult_lt_0_compat; lra|].
        replace (d - fexp d) with (d + - fexp d) by lia.
        rewrite bpow_add. apply Rmult_lt_compat_r; lra. }
      split.
      + exists d, (shr_m r1), (loc_of_shr_record r1).
        rewrite Ee1. auto.
      + intros r2 e2 E2.
        pose proof (shr_fexp_carry N e1 d ltac:(lia) Ee1) as Hc.
        cbv zeta in Hc. rewrite E2 in Hc. cbn [fst snd] in Hc.
        apply Hc.
        * destruct (Z_le_gt_dec e1 d); [left|right; lia].
          apply (located_upper _ _ _ _ Hl1); [lia|].
          rewrite Ee1. lra.
        * intros Hdc. apply (located_below_half _ _ _ Hl1).
          assert (bpow (d - fexp d) <= bpow (-1))%R
            by (apply bpow_le; lia).
          rewrite bpow_m1 in H. lra.
    - (* the mantissa is exact and short: it is kept *)
      destruct Hpre as [->|]; [|lia].
      cbn [located] in Hl. subst x.
      assert (Hpos : 0 < mx) by (apply lt_IZR; exact Hx).
      specialize (Hdig Hpos).
      assert (Ee1 : e1 = ex) by (rewrite <- Hdig in He1; lia).
      rewrite Ee1, Z.sub_diag, bpow_0, Rmult_1_r in Hl1.
      destruct (located_IZR _ _ _ Hl1) as [Em1 EN]. fold N in EN.
      rewrite Ee1, EN.
      split.
      + exists d, (mx * 2 ^ (ex - fexp d)), loc_Exact.
        split; [exact HB|]. split.
        * cbn [located]. rewrite mult_IZR, <- bpow_IZR by lia.
          replace (ex - fexp d) with (ex + - fexp d) by lia.
          rewrite bpow_add. ring.
        * cbn [round_nearest_even].
          rewrite <- (F2R_shift mx ex (ex - fexp d)) by lia.
          f_equal. lia.
      + intros r2 e2 E2.
        assert (Hl2 : located (IZR mx) mx loc_Exact) by reflexivity.
        pose proof (shr_fexp_located mx ex loc_Exact (IZR mx) Hm Hl2) as H2.
        cbv zeta in H2. rewrite E2 in H2. cbn [fst snd] in H2.
        destruct H2 as (He2 & Hm2 & Hl2').
        assert (Ee2 : e2 = ex) by (rewrite <- Hdig in He2; lia).
        rewrite Ee2, Z.sub_diag, bpow_0, Rmult_1_r in Hl2'.
        destruct (located_IZR _ _ _ Hl2') as [Em2 _].
        rewrite Ee2, Em2. split; [lia | reflexivity]. }
  destruct Hmain as [Hr Hfin].
  destruct (shr_fexp prec emax N e1 loc_Exact) as [r2 e2].
  destruct (Hfin r2 e2 eq_refl) as [Hm2 Hv].
  apply rounded_finish; [exact Hm2|]. now rewrite Hv.
Qed.

(** The rounding of a positive dyadic number. *)
Lemma binary_round_spec (s : bool) (m : positive) (e : Z) :
  rounded s (F2R (Zpos m) e) (binary_round prec emax s m e).
Proof.
  unfold binary_round.
  pose proof (shl_align_snd m e (fexp (Zpos (digits2_pos m) + e))) as Hs.
  assert (Hv : F2R (Zpos (fst (shl_align m e
                                  (fexp (Zpos (digits2_pos m) + e)))))
                   (snd (shl_align m e (fexp (Zpos (digits2_pos m) + e))))
               = F2R (Zpos m) e).
  { destruct (Z_le_gt_dec (fexp (Zpos (digits2_pos m) + e)) e) as [Hle|Hgt].
    - rewrite shl_align_fst by exact Hle. rewrite Hs, Z.min_r by lia.
      replace (fexp (Zpos (digits2_pos m) + e))
        with (e - (e - fexp (Zpos (digits2_pos m) + e))) at 2 by lia.
      apply F2R_shift. lia.
    - unfold shl_align.
      destruct (fexp (Zpos (digits2_pos m) + e) - e) eqn:E; try lia;
        reflexivity. }
  destruct (shl_align m e (fexp (Zpos (digits2_pos m) + e))) as [mz ez].
  cbn [fst snd] in Hv. rewrite <- Hv. unfold F2R.
  pose proof (binade_digits (Zpos mz) ltac:(lia)) as [L U].
  pose proof (bpow_gt_0 ez).
  apply (binary_round_aux_spec s (Zpos mz) ez loc_Exact (IZR (Zpos mz))
           (Zdigits2 (Zpos mz) + ez)); auto; try lia.
  - reflexivity.
  - replace (Zdigits2 (Zpos mz) + ez - 1)
      with (Zdigits2 (Zpos mz) - 1 + ez) by lia.
    rewrite !bpow_add. split.
    + apply Rmult_le_compat_r; lra.
    + apply Rmult_lt_compat_r; lra.
Qed.

End RoundingValues.

(** ** The operations on numbers that are not negative *)

(** A zero or a positive finite number. *)
Definition finite_nonneg (r : spec_float) : Prop :=
  match r with
  | S754_zero _ => True
  | S754_finite s _ _ => s = false
  | _ => False
  end.

(** What converts to no [int]. *)
Definition undefined (r : spec_float) : Prop :=
  match r with
  | S754_nan | S754_infinity _ => True
  | _ => False
  end.

(** Two results in their order, unless one of them is undefined. *)
Definition in_order (x y : spec_float) : Prop :=
  undefined x \/ undefined y \/
  (finite_nonneg x /\ finite_nonneg y /\ (SF2R x <= SF2R y)%R).

Lemma SF2R_nonneg (x : spec_float) : finite_nonneg x -> (0 <= SF2R x)%R.
Proof.
  destruct x as [s|s| |s m e]; cbn [finite_nonneg SF2R]; try lra;
    try contradiction.
  intros ->. cbn [cond_Zopp]. unfold F2R.
  pose proof (bpow_gt_0 e). apply Rmult_le_pos; [|lra].
  apply IZR_le. lia.
Qed.

Lemma SF2R_scaled (ez : Z) (s : bool) (m : positive) (e : Z) :
  ez <= e ->
  SF2R (S754_finite s m e) = F2R (scaled ez (S754_finite s m e)) ez.
Proof.
  intros H. cbn [SF2R scaled].
  rewrite <- (F2R_shift (cond_Zopp s (Zpos m)) e (e - ez)) by lia.
  f_equal; [destruct s; cbn [cond_Zopp]; lia | lia].
Qed.

Lemma binade_F2R (m e : Z) :
  0 < m ->
  (bpow (Zdigits2 m + e - 1) <= IZR m * bpow e < bpow (Zdigits2 m + e))%R.
Proof.
  intros Hm. pose proof (binade_digits m Hm) as [L U].
  pose proof (bpow_gt_0 e).
  replace (Zdigits2 m + e - 1) with (Zdigits2 m - 1 + e) by lia.
  rewrite (bpow_add (Zdigits2 m - 1)), (bpow_add (Zdigits2 m)). split.
  - apply Rmult_le_compat_r; lra.
  - apply Rmult_lt_compat_r; lra.
Qed.

Lemma F2R_pos (m : positive) (e : Z) : (0 < F2R (Zpos m) e)%R.
Proof.
  unfold F2R. apply Rmult_lt_0_compat; [apply IZR_lt; lia | apply bpow_gt_0].
Qed.

Lemma F2R_le_inv (a b e : Z) : (F2R a e <= F2R b e)%R -> a <= b.
Proof.
  unfold F2R. intros H. apply le_IZR.
  apply (Rmult_le_reg_r (bpow e)); [apply bpow_gt_0 | exact H].
Qed.

Lemma F2R_minus (a b e : Z) : (F2R a e - F2R b e)%R = F2R (a - b) e.
Proof. unfold F2R. rewrite minus_IZR. ring. Qed.

Lemma F2R_plus (a b e : Z) : (F2R a e + F2R b e)%R = F2R (a + b) e.
Proof. unfold F2R. rewrite plus_IZR. ring. Qed.

Section Operations.

Variables prec emax : Z.
Hypothesis prec_pos : 0 < prec.

Local Abbreviation fexp := (SpecFloat.fexp prec emax).

(** [r] is the result of an operation whose exact result is [X >= 0]. *)
Definition image (X : R) (r : spec_float) : Prop :=
  (X = 0%R /\ exists s, r = S754_zero s) \/ rounded prec emax false X r.

Lemma rounded_positive (s : bool) (X : R) (r : spec_float) :
  rounded prec emax s X r -> r = S754_infinity s \/ (0 < X)%R.
Proof.
  destruct r as [s'|s'| |s' m e]; cbn [rounded]; try contradiction.
  - intros [_ (d & _ & _ & [L _] & _)]. pose proof (bpow_gt_0 (d - 1)).
    right. lra.
  - intros ->. now left.
  - intros [_ (d & _ & _ & [L _] & _)]. pose proof (bpow_gt_0 (d - 1)).
    right. lra.
Qed.

Lemma rounded_cases (X : R) (r : spec_float) :
  rounded prec emax false X r ->
  undefined r \/ (finite_nonneg r /\ rounds_to prec emax X (SF2R r)).
Proof.
  destruct r as [s'|s'| |s' m e]; cbn [rounded]; try contradiction.
  - intros [-> H]. right. split; [exact I | exact H].
  - intros _. left. exact I.
  - intros [-> H]. right. split; [reflexivity | exact H].
Qed.

Lemma image_cases (X : R) (r : spec_float) :
  image X r -> undefined r \/ finite_nonneg r.
Proof.
  intros [[_ [s ->]] | H]; [right; exact I|].
  destruct (rounded_cases X r H) as [|[]]; auto.
Qed.

(** The results of an operation are in the order of its exact results. *)
Lemma image_in_order (X Y : R) (r r' : spec_float) :
  image X r -> image Y r' -> (0 <= X <= Y)%R -> in_order r r'.
Proof.
  intros HX HY [H0 Hle]. unfold in_order.
  destruct HX as [[EX [s ->]] | HX], HY as [[EY [s' ->]] | HY].
  - right. right. cbn. repeat split; auto; lra.
  - destruct (rounded_cases Y r' HY) as [U | [F R']]; auto.
    right. right. repeat split; auto. cbn [SF2R].
    now apply SF2R_nonneg.
  - destruct (rounded_cases X r HX) as [U | [F R']]; auto.
    destruct (rounded_positive _ _ _ HX) as [-> | P]; [left; exact I|].
    lra.
  - destruct (rounded_cases X r HX) as [U | [F R1]]; auto.
    destruct (rounded_cases Y r' HY) as [U | [F' R2]]; auto.
    right. right. repeat split; auto.
    eapply rounds_to_le; eauto.
Qed.

(** A number of the format is its own rounding. *)
Lemma rounds_to_bounded (m : positive) (e : Z) :
  bounded prec emax m e = true ->
  rounds_to prec emax (F2R (Zpos m) e) (F2R (Zpos m) e).
Proof.
  intros H. destruct (bounded_inv _ _ _ _ H) as [Hc _].
  unfold canonical_mantissa in Hc. apply Z.eqb_eq in Hc.
  exists (Zpos (digits2_pos m) + e), (Zpos m), loc_Exact.
  pose proof (binade_digits (Zpos m) ltac:(lia)) as [L U].
  cbn [Zdigits2] in L, U. pose proof (bpow_gt_0 e).
  rewrite Hc. unfold F2R. split; [|split].
  - replace (Zpos (digits2_pos m) + e - 1)
      with (Zpos (digits2_pos m) - 1 + e) by lia.
    rewrite !bpow_add. split.
    + apply Rmult_le_compat_r; lra.
    + apply Rmult_lt_compat_r; lra.
  - cbn [located]. rewrite Rmult_assoc, <- bpow_add.
    replace (e + - e) with 0 by lia. rewrite bpow_0. ring.
  - reflexivity.
Qed.

Lemma image_bounded (m : positive) (e : Z) :
  bounded prec emax m e = true ->
  image (F2R (Zpos m) e) (S754_finite false m e).
Proof.
  intros H. right. cbn [rounded]. split; [reflexivity|].
  now apply rounds_to_bounded.
Qed.

(** The rounding of a dyadic number that is not negative. *)
Lemma binary_normalize_image (m e : Z) :
  0 <= m -> image (F2R m e) (binary_normalize prec emax m e false).
Proof.
  intros Hm. destruct m as [|p|p]; try lia; cbn [binary_normalize].
  - left. split; [unfold F2R; ring | now exists false].
  - right. now apply binary_round_spec.
Qed.

(** The order of two finite numbers of the format is that of their
    values. *)
Lemma SFleb_SF2R (x y : spec_float) :
  valid_binary prec emax x = true -> valid_binary prec emax y = true ->
  undefined x \/ undefined y \/
  (SFleb x y = true -> (SF2R x <= SF2R y)%R).
Proof.
  intros Vx Vy.
  destruct x as [sx|sx| |sx mx ex], y as [sy|sy| |sy my ey];
    cbn [undefined]; auto; right; right; unfold SFleb;
    cbn [SFcompare SF2R].
  - intros _. lra.
  - destruct sy; [discriminate|]. intros _.
    apply (SF2R_nonneg (S754_finite false my ey)). reflexivity.
  - destruct sx; [|discriminate]. intros _.
    pose proof (SF2R_nonneg (S754_finite false mx ex) eq_refl) as H.
    cbn [SF2R cond_Zopp] in *. unfold F2R in *.
    rewrite opp_IZR. lra.
  - intros H.
    pose proof (SFleb_scaled prec emax prec_pos sy sx my mx ey ex Vy Vx H)
      as Hs.
    pose proof (SF2R_scaled (Z.min ey ex) sx mx ex ltac:(lia)) as Ex.
    pose proof (SF2R_scaled (Z.min ey ex) sy my ey ltac:(lia)) as Ey.
    cbn [SF2R] in Ex, Ey. rewrite Ex, Ey.
    unfold F2R. pose proof (bpow_gt_0 (Z.min ey ex)).
    apply Rmult_le_compat_r; [lra|]. now apply IZR_le.
Qed.

(** Subtraction, of the smaller number from the larger one. *)
Lemma SFsub_image (x y : spec_float) :
  valid_binary prec emax x = true -> valid_binary prec emax y = true ->
  (SF2R y <= SF2R x)%R ->
  undefined x \/ undefined y \/
  image (SF2R x - SF2R y) (SFsub prec emax x y).
Proof.
  intros Vx Vy Hle.
  destruct x as [sx|sx| |sx mx ex], y as [sy|sy| |sy my ey];
    cbn [undefined]; auto; right; right; cbn [SFsub].
  - left. cbn [SF2R]. split; [lra|]. destruct sx, sy; eauto.
  - destruct sy.
    + cbn [SF2R negb cond_Zopp].
      replace (0 - F2R (- Zpos my) ey)%R with (F2R (Zpos my) ey)
        by (unfold F2R; rewrite opp_IZR; ring).
      now apply image_bounded.
    + pose proof (F2R_pos my ey). cbn [SF2R cond_Zopp] in Hle. lra.
  - destruct sx.
    + pose proof (F2R_pos mx ex). cbn [SF2R cond_Zopp] in Hle.
      unfold F2R in *. rewrite opp_IZR in Hle. lra.
    + cbn [SF2R cond_Zopp]. rewrite Rminus_0_r. now apply image_bounded.
  - rewrite !shl_align_fst by lia.
    pose proof (SF2R_scaled (Z.min ex ey) sx mx ex ltac:(lia)) as Ex.
    pose proof (SF2R_scaled (Z.min ex ey) sy my ey ltac:(lia)) as Ey.
    rewrite Ex, Ey in *. cbn [scaled] in *.
    apply F2R_le_inv in Hle.
    rewrite F2R_minus.
    apply binary_normalize_image. lia.
Qed.

(** Addition of a positive number of the format to a number that is
    not negative. *)
Lemma SFadd_image (x : spec_float) (my : positive) (ey : Z) :
  bounded prec emax my ey = true -> finite_nonneg x ->
  image (SF2R x + F2R (Zpos my) ey)
        (SFadd prec emax x (S754_finite false my ey)).
Proof.
  intros Vy Fx.
  destruct x as [sx|sx| |sx mx ex]; cbn [finite_nonneg] in Fx;
    try contradiction; subst; cbn [SFadd SF2R cond_Zopp].
  - rewrite Rplus_0_l. now apply image_bounded.
  - rewrite !shl_align_fst by lia.
    rewrite <- (F2R_shift (Zpos mx) ex (ex - Z.min ex ey)) by lia.
    rewrite <- (F2R_shift (Zpos my) ey (ey - Z.min ex ey)) by lia.
    replace (ex - (ex - Z.min ex ey)) with (Z.min ex ey) by lia.
    replace (ey - (ey - Z.min ex ey)) with (Z.min ex ey) by lia.
    rewrite F2R_plus.
    apply binary_normalize_image.
    pose proof (Z.pow_pos_nonneg 2 (ex - Z.min ex ey) ltac:(lia) ltac:(lia)).
    pose proof (Z.pow_pos_nonneg 2 (ey - Z.min ex ey) ltac:(lia) ltac:(lia)).
    nia.
Qed.

(** Multiplication of numbers that are not negative. *)
Lemma SFmul_image (x y : spec_float) :
  finite_nonneg x -> finite_nonneg y ->
  image (SF2R x * SF2R y) (SFmul prec emax x y).
Proof.
  intros Fx Fy.
  destruct x as [sx|sx| |sx mx ex], y as [sy|sy| |sy my ey];
    cbn [finite_nonneg] in Fx, Fy; try contradiction; subst;
    cbn [SFmul SF2R cond_Zopp xorb].
  - left. split; [lra|]. eauto.
  - left. split; [lra|]. eauto.
  - left. split; [lra|]. eauto.
  - right.
    replace (F2R (Zpos mx) ex * F2R (Zpos my) ey)%R
      with (IZR (Zpos (mx * my)) * bpow (ex + ey))%R
      by (unfold F2R; rewrite Pos2Z.inj_mul, mult_IZR, bpow_add; ring).
    apply (binary_round_aux_spec prec emax prec_pos false (Zpos (mx * my))
             (ex + ey) loc_Exact (IZR (Zpos (mx * my)))
             (Zdigits2 (Zpos (mx * my)) + (ex + ey))).
    + lia.
    + reflexivity.
    + apply binade_F2R. lia.
    + now left.
Qed.

(** Where the remainder of a division places the quotient. *)
Lemma new_location_located (n q r : Z) :
  0 < n -> 0 <= r < n ->
  located (IZR q + IZR r / IZR n) q (new_location n r).
Proof.
  intros Hn [Hr0 Hr].
  assert (Hn' : (0 < IZR n)%R) by (apply IZR_lt; lia).
  assert (Hlt : (IZR r / IZR n < 1)%R).
  { apply (Rmult_lt_reg_r (IZR n)); [exact Hn'|].
    unfold Rdiv. rewrite Rmult_assoc, Rinv_l by lra.
    rewrite Rmult_1_r, Rmult_1_l. apply IZR_lt. lia. }
  assert (Hcmp : forall c, (2 * r ?= n) = c ->
            located (IZR q + IZR r / IZR n) q (loc_Inexact c) \/ r = 0).
  { intros c Hc. destruct (Z.eq_dec r 0) as [|Hr1]; [now right|left].
    assert (Hpos : (0 < IZR r / IZR n)%R).
    { apply Rdiv_lt_0_compat; [apply IZR_lt; lia | exact Hn']. }
    destruct c; cbn [located].
    - apply Z.compare_eq in Hc. rewrite <- Hc, mult_IZR. field.
      apply not_0_IZR. lia.
    - rewrite Z.compare_lt_iff in Hc. split; [lra|].
      apply Rplus_lt_compat_l.
      apply (Rmult_lt_reg_r (IZR n)); [exact Hn'|].
      unfold Rdiv. rewrite Rmult_assoc, Rinv_l by lra.
      rewrite Rmult_1_r. apply IZR_lt in Hc. rewrite mult_IZR in Hc. lra.
    - rewrite Z.compare_gt_iff in Hc. split; [|lra].
      apply Rplus_lt_compat_l.
      apply (Rmult_lt_reg_r (IZR n)); [exact Hn'|].
      unfold Rdiv. rewrite Rmult_assoc, Rinv_l by lra.
      rewrite Rmult_1_r. apply IZR_lt in Hc. rewrite mult_IZR in Hc. lra. }
  unfold new_location.
  destruct (Z.even n) eqn:En;
    [unfold new_location_even | unfold new_location_odd];
    destruct (Z.eqb_spec r 0) as [E|Hr1].
  1,3: rewrite E; cbn [located]; unfold Rdiv; ring.
  - destruct (Hcmp _ eq_refl) as [H|H]; [exact H | contradiction].
  - assert (Hodd : Z.odd n = true) by (rewrite <- Z.negb_even, En; auto).
    apply Z.odd_spec in Hodd. destruct Hodd as [k Hk].
    destruct (2 * r + 1 ?= n) eqn:Hc.
    + apply Z.compare_eq in Hc.
      destruct (Hcmp Lt) as [H|H]; [|exact H|contradiction].
      apply Z.compare_lt_iff. lia.
    + rewrite Z.compare_lt_iff in Hc.
      destruct (Hcmp Lt) as [H|H]; [|exact H|contradiction].
      apply Z.compare_lt_iff. lia.
    + rewrite Z.compare_gt_iff in Hc.
      destruct (Hcmp Gt) as [H|H]; [|exact H|contradiction].
      apply Z.compare_gt_iff. lia.
Qed.

(** The quotient, its exponent and its location, as [SFdiv] computes
    them. *)
Lemma SFdiv_core_binary_spec (m1 m2 : positive) (e1 e2 : Z) :
  let X := (F2R (Zpos m1) e1 / F2R (Zpos m2) e2)%R in
  let '(q, e', l) := SFdiv_core_binary prec emax (Zpos m1) e1 (Zpos m2) e2 in
  0 <= q /\
  exists x d, X = (x * bpow e')%R /\ located x q l /\
    (bpow (d - 1) <= X < bpow d)%R /\ e' <= fexp d.
Proof.
  intros X. unfold SFdiv_core_binary.
  set (d1 := Zdigits2 (Zpos m1)). set (d2 := Zdigits2 (Zpos m2)).
  set (e' := Z.min (fexp (d1 + e1 - (d2 + e2))) (e1 - e2)).
  set (s := e1 - e2 - e').
  assert (Hs : 0 <= s) by (unfold s, e'; lia).
  set (m' := match s with
             | Z0 => Zpos m1
             | Zpos _ => Z.shiftl (Zpos m1) s
             | Zneg _ => 0
             end).
  assert (Hm' : m' = Zpos m1 * 2 ^ s).
  { unfold m'. destruct s as [|p|p] eqn:E; try lia.
    now rewrite Z.shiftl_mul_pow2 by lia. }
  pose proof (Z.pow_pos_nonneg 2 s ltac:(lia) Hs) as Hp.
  pose proof (Z_div_mod m' (Zpos m2) ltac:(lia)) as Hdm.
  destruct (Z.div_eucl m' (Zpos m2)) as [q r]. destruct Hdm as [Hq Hr].
  assert (Hq0 : 0 <= q) by nia.
  split; [exact Hq0|].
  assert (Hm2 : (0 < IZR (Zpos m2))%R) by (apply IZR_lt; lia).
  assert (Hm1 : (0 < IZR (Zpos m1))%R) by (apply IZR_lt; lia).
  pose proof (bpow_gt_0 e1) as B1. pose proof (bpow_gt_0 e2) as B2.
  assert (EX : X = (IZR (Zpos m1) / IZR (Zpos m2) * bpow (e1 - e2))%R).
  { unfold X, F2R. replace (e1 - e2) with (e1 + - e2) by lia.
    rewrite bpow_add, bpow_opp. field. lra. }
  assert (Ex : X = ((IZR q + IZR r / IZR (Zpos m2)) * bpow e')%R).
  { rewrite EX. replace (e1 - e2) with (s + e') by (unfold s; lia).
    rewrite bpow_add, (bpow_IZR s Hs).
    replace (IZR q + IZR r / IZR (Zpos m2))%R
      with (IZR m' / IZR (Zpos m2))%R
      by (rewrite Hq, plus_IZR, mult_IZR; field; lra).
    rewrite Hm', mult_IZR. field. lra. }
  pose proof (binade_digits (Zpos m1) ltac:(lia)) as [L1 U1].
  pose proof (binade_digits (Zpos m2) ltac:(lia)) as [L2 U2].
  fold d1 in L1, U1. fold d2 in L2, U2.
  set (d0 := d1 + e1 - (d2 + e2)).
  assert (HL : (bpow (d0 - 1) < X)%R).
  { rewrite EX.
    replace (d0 - 1) with ((d1 - 1) + - d2 + (e1 - e2)) by (unfold d0; lia).
    rewrite !bpow_add, bpow_opp.
    pose proof (bpow_gt_0 (e1 - e2)). pose proof (bpow_gt_0 d2).
    pose proof (bpow_gt_0 (d1 - 1)).
    apply Rmult_lt_compat_r; [lra|].
    unfold Rdiv.
    apply Rle_lt_trans with (IZR (Zpos m1) * / bpow d2)%R.
    - apply Rmult_le_compat_r; [|lra].
      apply Rlt_le, Rinv_0_lt_compat. lra.
    - apply Rmult_lt_compat_l; [lra|].
      apply Rinv_lt_contravar; [|lra]. apply Rmult_lt_0_compat; lra. }
  assert (HU : (X < bpow (d0 + 1))%R).
  { rewrite EX.
    replace (d0 + 1) with (d1 + - (d2 - 1) + (e1 - e2)) by (unfold d0; lia).
    rewrite !bpow_add, bpow_opp.
    pose proof (bpow_gt_0 (e1 - e2)). pose proof (bpow_gt_0 (d2 - 1)).
    pose proof (bpow_gt_0 d1).
    apply Rmult_lt_compat_r; [lra|].
    unfold Rdiv.
    apply Rlt_le_trans with (bpow d1 * / IZR (Zpos m2))%R.
    - apply Rmult_lt_compat_r; [|lra].
      apply Rinv_0_lt_compat. lra.
    - apply Rmult_le_compat_l; [lra|].
      apply Rinv_le_contravar; lra. }
  exists (IZR q + IZR r / IZR (Zpos m2))%R.
  destruct (Rlt_le_dec X (bpow d0)) as [Hlt | Hge].
  - exists d0. split; [exact Ex|]. split.
    + apply new_location_located; lia.
    + split; [lra|]. unfold e', d0. lia.
  - exists (d0 + 1). split; [exact Ex|]. split.
    + apply new_location_located; lia.
    + replace (d0 + 1 - 1) with d0 by lia. split; [lra|].
      pose proof (fexp_le prec emax d0 (d0 + 1) ltac:(lia)).
      unfold e'. fold d0. lia.
Qed.

(** Division of a number that is not negative by a positive one. *)
Lemma SFdiv_image (x : spec_float) (my : positive) (ey : Z) :
  finite_nonneg x ->
  image (SF2R x / F2R (Zpos my) ey) (SFdiv prec emax x (S754_finite false my ey)).
Proof.
  intros Fx.
  destruct x as [sx|sx| |sx mx ex]; cbn [finite_nonneg] in Fx;
    try contradiction; subst; cbn [SFdiv SF2R cond_Zopp xorb].
  - left. split; [unfold Rdiv; ring | eauto].
  - right. pose proof (SFdiv_core_binary_spec mx my ex ey) as H.
    cbv zeta in H.
    destruct (SFdiv_core_binary prec emax (Zpos mx) ex (Zpos my) ey)
      as [[q e'] l].
    destruct H as (Hq & x & d & EX & Hl & Hb & He).
    rewrite EX.
    apply (binary_round_aux_spec prec emax prec_pos false q e' l x d);
      auto.
    now rewrite <- EX.
Qed.

(** *** What is undefined stays undefined *)

Lemma SFsub_undefined (x y : spec_float) :
  undefined x \/ undefined y -> undefined (SFsub prec emax x y).
Proof.
  destruct x as [sx|sx| |sx mx ex], y as [sy|sy| |sy my ey];
    cbn [undefined SFsub]; try tauto; destruct sx, sy; cbn; tauto.
Qed.

Lemma SFmul_undefined (c x : spec_float) :
  undefined c \/ undefined x -> undefined (SFmul prec emax c x).
Proof.
  destruct c as [sx|sx| |sx mx ex], x as [sy|sy| |sy my ey];
    cbn [undefined SFmul]; tauto.
Qed.

Lemma SFdiv_undefined (x y : spec_float) :
  undefined x -> undefined (SFdiv prec emax x y).
Proof.
  destruct x as [sx|sx| |sx mx ex], y as [sy|sy| |sy my ey];
    cbn [undefined SFdiv]; tauto.
Qed.

Lemma SFadd_undefined (x : spec_float) (s : bool) (my : positive) (ey : Z) :
  undefined x -> undefined (SFadd prec emax x (S754_finite s my ey)).
Proof.
  destruct x as [sx|sx| |sx mx ex]; cbn [undefined SFadd]; tauto.
Qed.

(** *** The operations keep the order *)

Lemma SFsub_in_order (x1 x2 y : spec_float) :
  valid_binary prec emax x1 = true -> valid_binary prec emax x2 = true ->
  valid_binary prec emax y = true ->
  SFleb y x1 = true -> SFleb x1 x2 = true ->
  in_order (SFsub prec emax x1 y) (SFsub prec emax x2 y).
Proof.
  intros V1 V2 Vy H1 H2.
  destruct (SFleb_SF2R y x1 Vy V1) as [U | [U | L1]].
  { left. apply SFsub_undefined. now right. }
  { left. apply SFsub_undefined. now left. }
  destruct (SFleb_SF2R x1 x2 V1 V2) as [U | [U | L2]].
  { left. apply SFsub_undefined. now left. }
  { right. left. apply SFsub_undefined. now left. }
  specialize (L1 H1). specialize (L2 H2).
  destruct (SFsub_image x1 y V1 Vy L1) as [U | [U | I1]].
  { left. apply SFsub_undefined. now left. }
  { left. apply SFsub_undefined. now right. }
  destruct (SFsub_image x2 y V2 Vy ltac:(lra)) as [U | [U | I2]].
  { right. left. apply SFsub_undefined. now left. }
  { left. apply SFsub_undefined. now right. }
  apply (image_in_order _ _ _ _ I1 I2). lra.
Qed.

Lemma SFmul_in_order (c x y : spec_float) :
  undefined c \/ finite_nonneg c -> in_order x y ->
  in_order (SFmul prec emax c x) (SFmul prec emax c y).
Proof.
  intros [Uc | Fc] H.
  { left. apply SFmul_undefined. now left. }
  destruct H as [U | [U | (Fx & Fy & Hle)]].
  { left. apply SFmul_undefined. now right. }
  { right. left. apply SFmul_undefined. now right. }
  apply (image_in_order _ _ _ _ (SFmul_image c x Fc Fx)
           (SFmul_image c y Fc Fy)).
  pose proof (SF2R_nonneg c Fc). pose proof (SF2R_nonneg x Fx).
  split; [apply Rmult_le_pos; lra | apply Rmult_le_compat_l; lra].
Qed.

Lemma SFdiv_in_order (d x y : spec_float) :
  undefined d \/ finite_nonneg d -> in_order x y ->
  in_order (SFdiv prec emax x d) (SFdiv prec emax y d).
Proof.
  intros Hd [U | [U | (Fx & Fy & Hle)]].
  { left. now apply SFdiv_undefined. }
  { right. left. now apply SFdiv_undefined. }
  destruct d as [sd|sd| |sd md ed]; cbn [undefined finite_nonneg] in Hd.
  - left. destruct x; cbn [finite_nonneg] in Fx; try contradiction;
      exact I.
  - right. right.
    destruct x, y; cbn [finite_nonneg] in Fx, Fy; try contradiction;
      cbn [SFdiv finite_nonneg SF2R]; repeat split; lra.
  - left.
    destruct x; cbn [finite_nonneg] in Fx; try contradiction; exact I.
  - destruct Hd as [[] | ->].
    apply (image_in_order _ _ _ _ (SFdiv_image x md ed Fx)
             (SFdiv_image y md ed Fy)).
    pose proof (F2R_pos md ed). pose proof (SF2R_nonneg x Fx).
    assert (0 < / F2R (Zpos md) ed)%R by (apply Rinv_0_lt_compat; lra).
    unfold Rdiv.
    split; [apply Rmult_le_pos; lra | apply Rmult_le_compat_r; lra].
Qed.

Lemma SFadd_in_order (x y : spec_float) (mh : positive) (eh : Z) :
  bounded prec emax mh eh = true -> in_order x y ->
  in_order (SFadd prec emax x (S754_finite false mh eh))
           (SFadd prec emax y (S754_finite false mh eh)).
Proof.
  intros Vh [U | [U | (Fx & Fy & Hle)]].
  { left. now apply SFadd_undefined. }
  { right. left. now apply SFadd_undefined. }
  apply (image_in_order _ _ _ _ (SFadd_image x mh eh Vh Fx)
           (SFadd_image y mh eh Vh Fy)).
  pose proof (F2R_pos mh eh). pose proof (SF2R_nonneg x Fx). lra.
Qed.

(** *** The range of a bar *)

Lemma SFleb_undefined_left (x y : spec_float) :
  SFleb x y = true -> undefined x ->
  x = S754_infinity true \/ y = S754_infinity false.
Proof.
  unfold SFleb.
  destruct x as [sx|sx| |sx mx ex]; cbn [undefined]; try contradiction;
    intros H _; [|discriminate].
  destruct sx; [now left|right].
  destruct y as [sy|sy| |sy my ey]; cbn [SFcompare] in H;
    try discriminate.
  destruct sy; [discriminate | reflexivity].
Qed.

Lemma SFleb_undefined_right (x y : spec_float) :
  SFleb x y = true -> undefined y ->
  x = S754_infinity true \/ y = S754_infinity false.
Proof.
  unfold SFleb.
  destruct y as [sy|sy| |sy my ey]; cbn [undefined]; try contradiction;
    intros H _.
  - destruct sy; [left|now right].
    destruct x as [sx|sx| |sx mx ex]; cbn [SFcompare] in H;
      try discriminate.
    destruct sx; [reflexivity | discriminate].
  - destruct x; cbn [SFcompare] in H; discriminate.
Qed.

(** The maximum of a bar whose value lies in its range is not below its
    minimum. *)
Lemma SFleb_chain (lo v1 v2 hi : spec_float) :
  valid_binary prec emax lo = true -> valid_binary prec emax hi = true ->
  valid_binary prec emax v1 = true -> valid_binary prec emax v2 = true ->
  SFleb lo v1 = true -> SFleb v1 v2 = true -> SFleb v2 hi = true ->
  undefined lo \/ undefined hi \/ (SF2R lo <= SF2R hi)%R.
Proof.
  intros Vlo Vhi V1 V2 H1 H2 H3.
  destruct (SFleb_SF2R lo v1 Vlo V1) as [U | [U | R1]]; [now left | |].
  { destruct (SFleb_undefined_right _ _ H1 U) as [-> | ->];
      [left; exact I|].
    destruct (SFleb_undefined_left _ _ H2 I) as [E | ->];
      [discriminate|].
    destruct (SFleb_undefined_left _ _ H3 I) as [E | ->];
      [discriminate|].
    right. left. exact I. }
  destruct (SFleb_SF2R v1 v2 V1 V2) as [U | [U | R2]].
  { destruct (SFleb_undefined_left _ _ H2 U) as [-> | ->].
    - destruct (SFleb_undefined_right _ _ H1 I) as [-> | E];
        [left; exact I | discriminate].
    - destruct (SFleb_undefined_left _ _ H3 I) as [E | ->];
        [discriminate|].
      right. left. exact I. }
  { destruct (SFleb_undefined_right _ _ H2 U) as [-> | ->].
    - destruct (SFleb_undefined_right _ _ H1 I) as [-> | E];
        [left; exact I | discriminate].
    - destruct (SFleb_undefined_left _ _ H3 I) as [E | ->];
        [discriminate|].
      right. left. exact I. }
  destruct (SFleb_SF2R v2 hi V2 Vhi) as [U | [U | R3]];
    [|now right; left|].
  { destruct (SFleb_undefined_left _ _ H3 U) as [-> | ->].
    - destruct (SFleb_undefined_right _ _ H2 I) as [-> | E];
        [|discriminate].
      destruct (SFleb_undefined_right _ _ H1 I) as [-> | E];
        [left; exact I | discriminate].
    - right. left. exact I. }
  right. right. specialize (R1 H1). specialize (R2 H2).
  specialize (R3 H3). lra.
Qed.

Lemma SFsub_range (lo v1 v2 hi : spec_float) :
  valid_binary prec emax lo = true -> valid_binary prec emax hi = true ->
  valid_binary prec emax v1 = true -> valid_binary prec emax v2 = true ->
  SFleb lo v1 = true -> SFleb v1 v2 = true -> SFleb v2 hi = true ->
  undefined (SFsub prec emax hi lo) \/ finite_nonneg (SFsub prec emax hi lo).
Proof.
  intros Vlo Vhi V1 V2 H1 H2 H3.
  destruct (SFleb_chain lo v1 v2 hi Vlo Vhi V1 V2 H1 H2 H3)
    as [U | [U | R]].
  { left. apply SFsub_undefined. now right. }
  { left. apply SFsub_undefined. now left. }
  destruct (SFsub_image hi lo Vhi Vlo R) as [U | [U | Im]].
  { left. apply SFsub_undefined. now left. }
  { left. apply SFsub_undefined. now right. }
  exact (image_cases _ _ Im).
Qed.

End Operations.

(** Conversion to a format. *)
Lemma fof_float_image (fmt : format) (x : spec_float) :
  0 < prec fmt -> finite_nonneg x ->
  image (prec fmt) (emax fmt) (SF2R x) (fof_float fmt x).
Proof.
  intros Hp Fx.
  destruct x as [sx|sx| |sx mx ex]; cbn [finite_nonneg] in Fx;
    try contradiction; subst; cbn [SF2R cond_Zopp fof_float].
  - left. split; [reflexivity | eauto].
  - apply (binary_normalize_image _ _ Hp (Zpos mx) ex). lia.
Qed.

Lemma fof_float_in_order (fmt : format) (x y : spec_float) :
  0 < prec fmt -> in_order x y ->
  in_order (fof_float fmt x) (fof_float fmt y).
Proof.
  intros Hp [U | [U | (Fx & Fy & Hle)]].
  { left. destruct x; try contradiction; exact I. }
  { right. left. destruct y; try contradiction; exact I. }
  apply (image_in_order _ _ Hp _ _ _ _ (fof_float_image fmt x Hp Fx)
           (fof_float_image fmt y Hp Fy)).
  pose proof (SF2R_nonneg x Fx). lra.
Qed.

(** The cast of a number that is not negative is the integer part of
    its value. *)
Lemma truncate_floor (x : spec_float) (t : Z) :
  finite_nonneg x -> truncate x = Some t ->
  (IZR t <= SF2R x < IZR t + 1)%R.
Proof.
  destruct x as [s|s| |s m e]; cbn [finite_nonneg SF2R];
    try contradiction.
  - intros _ [= <-]. lra.
  - intros -> H.
    assert (Ht : t = match e with
                     | Z0 => Zpos m
                     | Zpos _ => Zpos m * 2 ^ e
                     | Zneg _ => Zpos m / 2 ^ (- e)
                     end)
      by (unfold truncate, cond_Zopp in H; congruence).
    clear H. subst t. unfold cond_Zopp, F2R.
    destruct e as [|p|p].
    + rewrite bpow_0. lra.
    + rewrite (bpow_IZR (Zpos p)) by lia. rewrite mult_IZR. lra.
    + pose proof (Z.pow_pos_nonneg 2 (Zpos p) ltac:(lia) ltac:(lia)) as Hp.
      change (- Zneg p) with (Zpos p).
      change (Zneg p) with (- Zpos p).
      rewrite bpow_opp, (bpow_IZR (Zpos p)) by lia.
      pose proof (Z_div_mod_eq_full (Zpos m) (2 ^ Zpos p)) as Hdm.
      pose proof (Z.mod_pos_bound (Zpos m) (2 ^ Zpos p) Hp) as [Hr0 Hr].
      set (q := Zpos m / 2 ^ Zpos p) in *.
      set (r := Zpos m mod 2 ^ Zpos p) in *.
      assert (HP : (0 < IZR (2 ^ Zpos p))%R) by (apply IZR_lt; lia).
      rewrite Hdm, plus_IZR, mult_IZR.
      apply IZR_le in Hr0. apply IZR_lt in Hr.
      assert (E : ((IZR (2 ^ Zpos p) * IZR q + IZR r) * / IZR (2 ^ Zpos p)
                   = IZR q + IZR r * / IZR (2 ^ Zpos p))%R)
        by (field; lra).
      rewrite E.
      assert (0 <= IZR r * / IZR (2 ^ Zpos p) < 1)%R; [|lra].
      assert (0 < / IZR (2 ^ Zpos p))%R by (apply Rinv_0_lt_compat; lra).
      split; [apply Rmult_le_pos; lra|].
      apply (Rmult_lt_reg_r (IZR (2 ^ Zpos p))); [lra|].
      rewrite Rmult_assoc, Rinv_l by lra. lra.
Qed.

Lemma int_of_float_undefined (x : spec_float) :
  undefined x -> int_of_float x = Fault UndefinedConversion.
Proof. destruct x; cbn; try contradiction; reflexivity. Qed.

(** The cast keeps the order. *)
Lemma int_of_float_in_order (x y : spec_float) (p q : Z) :
  in_order x y -> int_of_float x = Ok p -> int_of_float y = Ok q ->
  0 <= p <= q.
Proof.
  intros [U | [U | (Fx & Fy & Hle)]] Hp Hq.
  { rewrite (int_of_float_undefined x U) in Hp. discriminate. }
  { rewrite (int_of_float_undefined y U) in Hq. discriminate. }
  unfold int_of_float in Hp, Hq.
  destruct (truncate x) as [a|] eqn:Ea; [|discriminate].
  destruct (truncate y) as [b|] eqn:Eb; [|discriminate].
  destruct (CInt.in_intb a); [|discriminate].
  destruct (CInt.in_intb b); [|discriminate].
  injection Hp as <-. injection Hq as <-.
  pose proof (truncate_floor x a Fx Ea). pose proof (truncate_floor y b Fy Eb).
  pose proof (SF2R_nonneg x Fx).
  assert (-1 < a) by (apply lt_IZR; lra).
  assert (a < b + 1); [|lia]. apply lt_IZR. rewrite plus_IZR. lra.
Qed.

(** The rounded ratio [(int) (scale * (v - lo) / (hi - lo) + 0.5)] of the
    code, as a function of [v]. *)
Definition ratio_of (scale : Z) (lo hi v : float) : result Z :=
  int_of_float
    (F64.add
       (F64.of_float
          (F32.div (F32.mul (F32.of_int scale) (F32.sub v lo))
                   (F32.sub hi lo)))
       lit_0_5).

Lemma ratio_of_in_order (scale : Z) (lo hi v1 v2 : float) (p1 p2 : Z) :
  0 <= scale ->
  F32.valid lo = true -> F32.valid hi = true ->
  F32.valid v1 = true -> F32.valid v2 = true ->
  F32.leb lo v1 = true -> F32.leb v1 v2 = true -> F32.leb v2 hi = true ->
  ratio_of scale lo hi v1 = Ok p1 -> ratio_of scale lo hi v2 = Ok p2 ->
  0 <= p1 <= p2.
Proof.
  intros Hs Vlo Vhi V1 V2 L1 L2 L3. unfold ratio_of.
  apply int_of_float_in_order.
  change lit_0_5 with (S754_finite false 4503599627370496 (-53)).
  apply (SFadd_in_order 53 1024 ltac:(lia)); [reflexivity|].
  apply (fof_float_in_order binary64); [reflexivity|].
  apply (SFdiv_in_order 24 128 ltac:(lia)).
  - exact (SFsub_range 24 128 ltac:(lia) lo v1 v2 hi Vlo Vhi V1 V2 L1 L2 L3).
  - apply (SFmul_in_order 24 128 ltac:(lia)).
    + destruct (image_cases 24 128 _ _
                  (binary_normalize_image 24 128 ltac:(lia) scale 0 Hs));
        auto.
    + apply (SFsub_in_order 24 128 ltac:(lia)); auto.
Qed.

(* ------------------------------------------------------------------ *)
(** ** The progress grows with the value *)

(** A widget with 50 ticks on 78 pixels, whose gaps of 3 pixels are wider
    than the ticks, with one bar ["a"] of range 0..100 holding [v]. *)
Definition narrow_ticks (v : Z) : progressbar_data_t :=
  with_layout (one_bar v) 80 2 1 0 3 50 false.

Section Monotone.

Context {host : Host}.

(** C8, as the code has it. For a fixed range and fixed settings the
    progress of a bar does not decrease when its value grows within the
    range [min_value <= v1 <= v2 <= max_value], wherever the progress is
    defined for both values: with the continuous formula when the
    secondary length is not negative, and with ticks when
    [ticks_count > 0], the gap is not wider than a tick
    ([0 < ticks_gap <= unit]) and [ticks * unit] is within the range of
    [int]. *)
Theorem progress_monotone_in_value :
  forall (d : progressbar_data_t) (secondary_length unit : Z) (bar : bar_t)
         (v1 v2 : float) (p1 p2 : Z),
    F32.valid (min_value bar) = true -> F32.valid (max_value bar) = true ->
    F32.valid v1 = true -> F32.valid v2 = true ->
    F32.leb (min_value bar) v1 = true -> F32.leb v1 v2 = true ->
    F32.leb v2 (max_value bar) = true ->
    (quantized d = false -> 0 <= secondary_length) ->
    (quantized d = true ->
     0 < ticks_count d /\ 0 < ticks_gap d <= unit /\
     forall ticks, values_ticks d (set_value bar v2) = Ok ticks ->
                   CInt.in_int (ticks * unit)) ->
    bar_progress d secondary_length unit (set_value bar v1) = Ok p1 ->
    bar_progress d secondary_length unit (set_value bar v2) = Ok p2 ->
    p1 <= p2.
Proof.
  intros d L unit bar v1 v2 p1 p2 Vlo Vhi V1 V2 L1 L2 L3 Hc Hq.
  unfold bar_progress.
  change (values_ticks d (set_value bar v1))
    with (ratio_of (ticks_count d) (min_value bar) (max_value bar) v1).
  change (values_ticks d (set_value bar v2))
    with (ratio_of (ticks_count d) (min_value bar) (max_value bar) v2) in *.
  destruct (quantized d).
  - destruct (Hq eq_refl) as (Htc & [Hg0 Hgu] & Hfit). clear Hq Hc.
    destruct (ratio_of (ticks_count d) (min_value bar) (max_value bar) v1)
      as [t1|] eqn:E1; [|discriminate].
    destruct (ratio_of (ticks_count d) (min_value bar) (max_value bar) v2)
      as [t2|] eqn:E2; [|discriminate].
    pose proof (ratio_of_in_order (ticks_count d) _ _ _ _ _ _
                  ltac:(lia) Vlo Vhi V1 V2 L1 L2 L3 E1 E2) as [Ht1 Ht12].
    specialize (Hfit t2 eq_refl).
    intros [= <-] [= <-].
    assert (Hin : forall t, 0 < t <= t2 ->
              (t * unit - ticks_gap d)%cint = t * unit - ticks_gap d).
    { intros t Ht. unfold CInt.sub, CInt.mul.
      unfold CInt.in_int, CInt.INT_MIN, CInt.INT_MAX in Hfit.
      assert (0 <= t * unit <= t2 * unit) by nia.
      rewrite (wrap_small (t * unit))
        by (unfold CInt.in_int, CInt.INT_MIN, CInt.INT_MAX; lia).
      assert (unit <= t * unit) by nia.
      apply wrap_small.
      unfold CInt.in_int, CInt.INT_MIN, CInt.INT_MAX. lia. }
    unfold CInt.truthy.
    destruct (Z.eqb_spec t1 0) as [-> | N1], (Z.eqb_spec t2 0) as [-> | N2];
      cbn [negb]; try lia.
    + rewrite Hin by lia. nia.
    + rewrite !Hin by lia. nia.
  - specialize (Hc eq_refl). intros E1 E2.
    exact (proj2 (ratio_of_in_order L _ _ _ _ _ _
                    Hc Vlo Vhi V1 V2 L1 L2 L3 E1 E2)).
Qed.

End Monotone.

Lemma progress_monotone_in_value_witness :
  bar_progress ten_ticks 69 7
    (set_value (first_bar ten_ticks) (F32.of_int 20)) = Ok 13 /\
  bar_progress ten_ticks 69 7
    (set_value (first_bar ten_ticks) (F32.of_int 50)) = Ok 34 /\
  13 <= 34.
Proof.
  assert (E1 : bar_progress ten_ticks 69 7
                 (set_value (first_bar ten_ticks) (F32.of_int 20)) = Ok 13)
    by (vm_compute; reflexivity).
  assert (E2 : bar_progress ten_ticks 69 7
                 (set_value (first_bar ten_ticks) (F32.of_int 50)) = Ok 34)
    by (vm_compute; reflexivity).
  assert (R : values_ticks ten_ticks
                (set_value (first_bar ten_ticks) (F32.of_int 50)) = Ok 5)
    by (vm_compute; reflexivity).
  split; [exact E1|]. split; [exact E2|].
  refine (progress_monotone_in_value ten_ticks 69 7 (first_bar ten_ticks)
            (F32.of_int 20) (F32.of_int 50) 13 34 _ _ _ _ _ _ _ _ _ E1 E2).
  - vm_compute. reflexivity.
  - vm_compute. reflexivity.
  - vm_compute. reflexivity.
  - vm_compute. reflexivity.
  - vm_compute. reflexivity.
  - vm_compute. reflexivity.
  - vm_compute. reflexivity.
  - vm_compute. discriminate.
  - intros _. split; [vm_compute; reflexivity|].
    split; [vm_compute; split; [reflexivity | discriminate]|].
    intros ticks H. rewrite R in H. injection H as <-.
    vm_compute. split; discriminate.
Defined.

(** With gaps wider than the ticks the first tick lowers the progress:
    the layout gives 47 pixels and a unit of 1; the bar holding 0 has
    progress 0 and the bar holding 1 has one tick and progress
    [1 * 1 - 3]. *)
Lemma progress_decreases_counterexample :
  layout_widths (narrow_ticks 0) 1 = Ok (47, 1, 49) /\
  F32.leb (min_value (first_bar (narrow_ticks 0)))
          (value (first_bar (narrow_ticks 0))) = true /\
  F32.leb (value (first_bar (narrow_ticks 0)))
          (value (first_bar (narrow_ticks 1))) = true /\
  F32.leb (value (first_bar (narrow_ticks 1)))
          (max_value (first_bar (narrow_ticks 1))) = true /\
  bar_progress (narrow_ticks 0) 47 1 (first_bar (narrow_ticks 0)) = Ok 0 /\
  bar_progress (narrow_ticks 1) 47 1 (first_bar (narrow_ticks 1))
  = Ok (-2).
Proof. vm_compute. repeat split; reflexivity. Qed.

(* ------------------------------------------------------------------ *)
(** * More of the widget: the Lua entry points *)

(** ** The general properties of the widget *)

(** The property table of [luaA_progressbar_properties_set], as read by
    [luaA_getopt_number] and [luaA_getopt_boolean]: an absent key is
    [None]; a number of Lua is a double. *)
Record properties : Type := mk_properties {
  q_gap : option double;
  q_ticks_count : option double;
  q_ticks_gap : option double;
  q_border_padding : option double;
  q_border_width : option double;
  q_width : option double;
  q_height : option double;
  q_vertical : option bool
}.

(** [field = luaA_getopt_number (L, 2, name, field)] for an [int] field:
    the default is the field converted to double, and the assignment
    converts the number read to [int]. *)
Definition getopt_int (field : option double) (def : Z) : result Z :=
  int_of_float (luaA_getopt field (F64.of_int def)).

Section EntryPoints.

Context {host : Host}.

(** [luaA_progressbar_properties_set (widget, table)]; the assignments
    are made in the order of the source. *)
Definition luaA_progressbar_properties_set (d : progressbar_data_t)
    (p : properties) : result progressbar_data_t :=
  gap' <~ getopt_int (q_gap p) (gap d) ;;
  ticks_count' <~ getopt_int (q_ticks_count p) (ticks_count d) ;;
  ticks_gap' <~ getopt_int (q_ticks_gap p) (ticks_gap d) ;;
  border_padding' <~ getopt_int (q_border_padding p) (border_padding d) ;;
  border_width' <~ getopt_int (q_border_width p) (border_width d) ;;
  width' <~ getopt_int (q_width p) (width d) ;;
  let height' :=
    F32.of_double (luaA_getopt (q_height p) (F64.of_float (height d))) in
  let vertical' := luaA_getopt (q_vertical p) (vertical d) in
  Ok {| width := width'; gap := gap'; border_width := border_width';
        border_padding := border_padding'; ticks_gap := ticks_gap';
        ticks_count := ticks_count'; vertical := vertical';
        height := height'; bars := bars d |}.

(** The three methods [luaA_progressbar_index] gives to Lua. *)
Inductive call : Type :=
| PropertiesSet (p : properties)
| BarPropertiesSet (t : string) (p : bar_properties)
| BarDataAdd (t : string) (x : double).

Definition run_call (d : progressbar_data_t) (c : call)
  : result progressbar_data_t :=
  match c with
  | PropertiesSet p => luaA_progressbar_properties_set d p
  | BarPropertiesSet t p => Ok (luaA_progressbar_bar_properties_set d t p)
  | BarDataAdd t x => Ok (luaA_progressbar_bar_data_add d t x)
  end.

(** A sequence of calls on one widget; it stops at the first fault. *)
Fixpoint run_calls (d : progressbar_data_t) (cs : list call)
  : result progressbar_data_t :=
  match cs with
  | [] => Ok d
  | c :: cs' => d' <~ run_call d c ;; run_calls d' cs'
  end.

(** The bar a call for the title [t] works on: the first bar of that
    title, or a new bar. *)
Definition bar_of_title (d : progressbar_data_t) (t : string) : bar_t :=
  match bar_find t (bars d) with
  | Some i => nth i (bars d) (new_bar t)
  | None => new_bar t
  end.

(** Its place in the list: where it is, or the end of the list. *)
Definition place_of_title (d : progressbar_data_t) (t : string) : nat :=
  match bar_find t (bars d) with
  | Some i => i
  | None => List.length (bars d)
  end.

(** ** The search for a title *)

Lemma bar_find_some (t : string) (l : list bar_t) (i : nat) :
  bar_find t l = Some i ->
  exists b, nth_error l i = Some b /\ title b = t /\
            forall j b', (j < i)%nat -> nth_error l j = Some b' ->
                         title b' <> t.
Proof.
  revert i. induction l as [|b l IH]; intros i H; [discriminate|].
  cbn [bar_find] in H. destruct (String.eqb_spec t (title b)) as [E|N].
  - injection H as <-. exists b. repeat split; auto. intros j b' Hj. lia.
  - destruct (bar_find t l) as [k|]; [|discriminate].
    injection H as <-. destruct (IH k eq_refl) as (b0 & Hn & Ht & Hf).
    exists b0. repeat split; auto.
    intros [|j] b' Hj Hb'; cbn [nth_error] in Hb'.
    + injection Hb' as <-. congruence.
    + apply (Hf j b'); [lia | exact Hb'].
Qed.

Lemma bar_find_none (t : string) (l : list bar_t) :
  bar_find t l = None <-> ~ In t (map title l).
Proof.
  induction l as [|b l IH]; cbn [bar_find map In]; [tauto|].
  destruct (String.eqb_spec t (title b)) as [E|N].
  - split; [discriminate | intros H; exfalso; apply H; now left].
  - destruct (bar_find t l) as [k|]; cbn [option_map].
    + split; [discriminate|]. intros H. exfalso.
      assert (Hn : ~ In t (map title l)) by tauto.
      apply IH in Hn. discriminate.
    + split; [|reflexivity]. intros _ [E|H]; [congruence|].
      now apply (proj1 IH).
Qed.

Lemma bar_find_app (t : string) (l l' : list bar_t) :
  bar_find t (l ++ l')
  = match bar_find t l with
    | Some i => Some i
    | None => option_map (fun k => (List.length l + k)%nat) (bar_find t l')
    end.
Proof.
  induction l as [|b l IH]; cbn [app bar_find List.length].
  - destruct (bar_find t l'); reflexivity.
  - destruct (String.eqb t (title b)); [reflexivity|].
    rewrite IH. destruct (bar_find t l); [reflexivity|].
    destruct (bar_find t l'); reflexivity.
Qed.

(** The search reads the titles only. *)
Lemma bar_find_titles (t : string) (l l' : list bar_t) :
  map title l = map title l' -> bar_find t l = bar_find t l'.
Proof.
  revert l'. induction l as [|b l IH]; intros [|b' l'] H;
    try discriminate; [reflexivity|].
  cbn [map] in H. injection H as Hb Hl.
  cbn [bar_find]. rewrite Hb, (IH l' Hl). reflexivity.
Qed.

(** ** Writing through the pointer *)

Lemma bar_modify_nth_error (i : nat) (f : bar_t -> bar_t) (l : list bar_t)
    (j : nat) :
  nth_error (bar_modify i f l) j
  = if Nat.eqb i j then option_map f (nth_error l j) else nth_error l j.
Proof.
  revert i j. induction l as [|b l IH]; intros i j.
  - destruct i, j; cbn; try reflexivity; now destruct (Nat.eqb i j).
  - destruct i as [|i], j as [|j]; cbn [bar_modify nth_error Nat.eqb];
      try reflexivity.
    apply IH.
Qed.

Lemma bar_modify_titles (i : nat) (f : bar_t -> bar_t) (l : list bar_t) :
  (forall b, title (f b) = title b) ->
  map title (bar_modify i f l) = map title l.
Proof.
  intros Hf. revert i. induction l as [|b l IH]; intros i.
  - now destruct i.
  - destruct i as [|i]; cbn [bar_modify map]; [now rewrite Hf|].
    now rewrite IH.
Qed.

Lemma bar_modify_twice (i : nat) (f g : bar_t -> bar_t) (l : list bar_t) :
  bar_modify i g (bar_modify i f l) = bar_modify i (fun b => g (f b)) l.
Proof.
  revert i. induction l as [|b l IH]; intros i.
  - now destruct i.
  - destruct i as [|i]; cbn [bar_modify]; [reflexivity|]. now rewrite IH.
Qed.

Lemma bar_modify_ext (i : nat) (f g : bar_t -> bar_t) (l : list bar_t) :
  (forall b, nth_error l i = Some b -> f b = g b) ->
  bar_modify i f l = bar_modify i g l.
Proof.
  revert i. induction l as [|b l IH]; intros i H.
  - now destruct i.
  - destruct i as [|i]; cbn [bar_modify].
    + now rewrite (H b eq_refl).
    + now rewrite (IH i H).
Qed.

Lemma bar_add_value_title (x : double) (b : bar_t) :
  title (bar_add_value x b) = title b.
Proof. reflexivity. Qed.

Lemma bar_set_range_title (p : bar_properties) (b : bar_t) :
  title (bar_set_range p b) = title b.
Proof.
  unfold bar_set_range.
  repeat match goal with
         | |- context [if ?c then _ else _] => destruct c
         end; reflexivity.
Qed.

Lemma bar_apply_properties_title (p : bar_properties) (b : bar_t) :
  title (bar_apply_properties p b) = title b.
Proof.
  unfold bar_apply_properties. cbn [title set_reverse].
  now rewrite bar_set_range_title.
Qed.

(** ** Finding a bar or creating it *)

(** What the two entry points that take a title do to the list of bars:
    [f] is applied to the bar of the title, at its place. *)
Definition upsert_with (f : bar_t -> bar_t) (d : progressbar_data_t)
    (t : string) : progressbar_data_t :=
  let '(d, i) := bar_upsert d t in
  set_bars d (bar_modify i f (bars d)).

Lemma upsert_with_bars (f : bar_t -> bar_t) (d : progressbar_data_t)
    (t : string) :
  (forall b, title (f b) = title b) ->
  bars (upsert_with f d t)
  = match bar_find t (bars d) with
    | Some i => bar_modify i f (bars d)
    | None => bars d ++ [f (new_bar t)]
    end /\
  upsert_with f d t = set_bars d (bars (upsert_with f d t)).
Proof.
  intros Hf. unfold upsert_with, bar_upsert, progressbar_bar_add.
  destruct (bar_find t (bars d)) as [i|] eqn:E.
  - split; reflexivity.
  - cbn [bars set_bars]. split; [|reflexivity].
    generalize (bars d). intros l.
    induction l as [|b l IH]; cbn [app List.length bar_modify];
      [reflexivity|]. now rewrite IH.
Qed.

Lemma upsert_with_place (f : bar_t -> bar_t) (d : progressbar_data_t)
    (t : string) :
  (forall b, title (f b) = title b) ->
  bar_find t (bars (upsert_with f d t)) = Some (place_of_title d t) /\
  nth_error (bars (upsert_with f d t)) (place_of_title d t)
  = Some (f (bar_of_title d t)).
Proof.
  intros Hf. destruct (upsert_with_bars f d t Hf) as [Hb _]. rewrite Hb.
  unfold place_of_title, bar_of_title.
  destruct (bar_find t (bars d)) as [i|] eqn:E.
  - destruct (bar_find_some t (bars d) i E) as (b & Hn & Ht & _).
    split.
    + rewrite (bar_find_titles t _ (bars d)); [exact E|].
      now apply bar_modify_titles.
    + rewrite bar_modify_nth_error, Nat.eqb_refl, Hn. cbn [option_map].
      now rewrite (nth_error_nth _ _ _ Hn).
  - split.
    + rewrite bar_find_app, E. cbn [bar_find].
      rewrite Hf. cbn [title new_bar]. rewrite String.eqb_refl.
      cbn [option_map]. f_equal. lia.
    + rewrite nth_error_app2 by lia. now rewrite Nat.sub_diag.
Qed.

Lemma upsert_with_titles (f : bar_t -> bar_t) (d : progressbar_data_t)
    (t : string) :
  (forall b, title (f b) = title b) ->
  map title (bars (upsert_with f d t))
  = map title (bars d)
    ++ match bar_find t (bars d) with Some _ => [] | None => [t] end.
Proof.
  intros Hf. destruct (upsert_with_bars f d t Hf) as [Hb _]. rewrite Hb.
  destruct (bar_find t (bars d)) as [i|].
  - rewrite app_nil_r. now apply bar_modify_titles.
  - rewrite map_app. cbn [map]. now rewrite Hf.
Qed.

Lemma upsert_with_others (f : bar_t -> bar_t) (d : progressbar_data_t)
    (t : string) (i : nat) (b : bar_t) :
  (forall b, title (f b) = title b) ->
  nth_error (bars d) i = Some b -> title b <> t ->
  nth_error (bars (upsert_with f d t)) i = Some b.
Proof.
  intros Hf Hn Ht. destruct (upsert_with_bars f d t Hf) as [Hb _].
  rewrite Hb. destruct (bar_find t (bars d)) as [k|] eqn:E.
  - rewrite bar_modify_nth_error.
    destruct (Nat.eqb_spec k i) as [->|]; [|exact Hn].
    destruct (bar_find_some t (bars d) i E) as (b0 & Hn0 & Ht0 & _).
    congruence.
  - rewrite nth_error_app1; [exact Hn|].
    apply nth_error_Some. congruence.
Qed.

Lemma titles_stay_unique (f : bar_t -> bar_t) (d : progressbar_data_t)
    (t : string) :
  (forall b, title (f b) = title b) ->
  NoDup (map title (bars d)) ->
  NoDup (map title (bars (upsert_with f d t))).
Proof.
  intros Hf Hd. rewrite (upsert_with_titles f d t Hf).
  destruct (bar_find t (bars d)) as [i|] eqn:E.
  - now rewrite app_nil_r.
  - apply bar_find_none in E.
    apply NoDup_app; [exact Hd | repeat constructor; auto | ].
    intros a Ha [<-|[]]. contradiction.
Qed.

(** X1. After [bar_data_add] or [bar_properties_set] for a title, the
    search of the entry points finds a bar of that title: at the place
    of the first bar that had the title, or at the end of the list when
    there was none, and it is the bar that was there (a new bar of range
    0..100 in the second case) with the value, or the properties,
    applied. *)
Theorem bar_found_after_call :
  forall (d : progressbar_data_t) (t : string),
    (forall x,
        let d' := luaA_progressbar_bar_data_add d t x in
        bar_find t (bars d') = Some (place_of_title d t) /\
        nth_error (bars d') (place_of_title d t)
        = Some (bar_add_value x (bar_of_title d t))) /\
    (forall p,
        let d' := luaA_progressbar_bar_properties_set d t p in
        bar_find t (bars d') = Some (place_of_title d t) /\
        nth_error (bars d') (place_of_title d t)
        = Some (bar_apply_properties p (bar_of_title d t))).
Proof.
  intros d t. split.
  - intros x. apply (upsert_with_place (bar_add_value x) d t).
    apply bar_add_value_title.
  - intros p. apply (upsert_with_place (bar_apply_properties p) d t).
    apply bar_apply_properties_title.
Qed.

(** X2. The two entry points keep the titles of the bars and their
    order; they add one bar, at the end, when no bar has the title, and
    none otherwise. *)
Theorem titles_kept_in_order :
  forall (d : progressbar_data_t) (t : string),
    let added :=
      match bar_find t (bars d) with Some _ => [] | None => [t] end in
    (forall x,
        map title (bars (luaA_progressbar_bar_data_add d t x))
        = map title (bars d) ++ added) /\
    (forall p,
        map title (bars (luaA_progressbar_bar_properties_set d t p))
        = map title (bars d) ++ added).
Proof.
  intros d t added. split.
  - intros x. apply (upsert_with_titles (bar_add_value x) d t).
    apply bar_add_value_title.
  - intros p. apply (upsert_with_titles (bar_apply_properties p) d t).
    apply bar_apply_properties_title.
Qed.

(** X3. A call for a title changes nothing but the bar of that title:
    the bars of the other titles stay as they are, where they are, and
    so do the settings of the widget. *)
Theorem other_bars_untouched :
  forall (d : progressbar_data_t) (t : string) (i : nat) (b : bar_t),
    nth_error (bars d) i = Some b -> title b <> t ->
    (forall x,
        let d' := luaA_progressbar_bar_data_add d t x in
        nth_error (bars d') i = Some b /\ d' = set_bars d (bars d')) /\
    (forall p,
        let d' := luaA_progressbar_bar_properties_set d t p in
        nth_error (bars d') i = Some b /\ d' = set_bars d (bars d')).
Proof.
  intros d t i b Hn Ht. split.
  - intros x d'. split.
    + apply (upsert_with_others (bar_add_value x) d t i b); auto.
    + apply (upsert_with_bars (bar_add_value x) d t).
      apply bar_add_value_title.
  - intros p d'. split.
    + apply (upsert_with_others (bar_apply_properties p) d t i b); auto.
      apply bar_apply_properties_title.
    + apply (upsert_with_bars (bar_apply_properties p) d t).
      apply bar_apply_properties_title.
Qed.

(** X4. Of two values added in a row to the same bar the last one
    wins: the first leaves no trace. *)
Theorem data_add_last_wins :
  forall (d : progressbar_data_t) (t : string) (x y : double),
    luaA_progressbar_bar_data_add (luaA_progressbar_bar_data_add d t x) t y
    = luaA_progressbar_bar_data_add d t y.
Proof.
  intros d t x y.
  change (upsert_with (bar_add_value y) (upsert_with (bar_add_value x) d t) t
          = upsert_with (bar_add_value y) d t).
  pose proof (upsert_with_bars (bar_add_value x) d t
                (bar_add_value_title x)) as [Hb1 Hd1].
  pose proof (upsert_with_place (bar_add_value x) d t
                (bar_add_value_title x)) as [Hf1 _].
  pose proof (upsert_with_bars (bar_add_value y) d t
                (bar_add_value_title y)) as [Hb2 Hd2].
  set (d1 := upsert_with (bar_add_value x) d t) in *.
  pose proof (upsert_with_bars (bar_add_value y) d1 t
                (bar_add_value_title y)) as [Hb3 Hd3].
  assert (E : bars (upsert_with (bar_add_value y) d1 t)
              = bars (upsert_with (bar_add_value y) d t)).
  { rewrite Hb3, Hf1, Hb1, Hb2. unfold place_of_title.
    destruct (bar_find t (bars d)) as [i|] eqn:Ef.
    - rewrite bar_modify_twice. apply bar_modify_ext. reflexivity.
    - generalize (bars d). intros l.
      induction l as [|b l IH]; cbn [app List.length bar_modify];
        [reflexivity|]. now rewrite IH. }
  rewrite Hd3, Hd2, E, Hd1. reflexivity.
Qed.

Lemma run_call_titles (d d' : progressbar_data_t) (c : call) :
  run_call d c = Ok d' ->
  NoDup (map title (bars d)) -> NoDup (map title (bars d')).
Proof.
  destruct c as [p|t p|t x]; cbn [run_call].
  - unfold luaA_progressbar_properties_set. intros H.
    repeat (apply rbind_ok in H; destruct H as (? & _ & H)).
    injection H as <-. auto.
  - intros [= <-]. apply (titles_stay_unique (bar_apply_properties p)).
    apply bar_apply_properties_title.
  - intros [= <-]. apply (titles_stay_unique (bar_add_value x)).
    apply bar_add_value_title.
Qed.

(** X5. No two bars of a widget have the same title, whatever calls
    were made on it since it was created. *)
Theorem titles_are_unique :
  forall (cs : list call) (d : progressbar_data_t),
    run_calls progressbar_new cs = Ok d ->
    NoDup (map title (bars d)).
Proof.
  intros cs.
  assert (H : forall d0 d, NoDup (map title (bars d0)) ->
                run_calls d0 cs = Ok d -> NoDup (map title (bars d))).
  { induction cs as [|c cs IH]; intros d0 d H0 H; cbn [run_calls] in H.
    - now injection H as <-.
    - apply rbind_ok in H. destruct H as (d1 & H1 & H).
      apply (IH d1 d); [|exact H]. eapply run_call_titles; eauto. }
  intros d. apply H. constructor.
Qed.

End EntryPoints.

(* ------------------------------------------------------------------ *)
(** * The order of floating-point numbers *)

(** What is not a NaN. *)
Definition is_number (x : spec_float) : bool :=
  match x with
  | S754_nan => false
  | _ => true
  end.

Section Order.

Variables prec emax : Z.
Hypothesis prec_pos : 0 < prec.
Hypothesis prec_lt_emax : prec < emax.

Local Abbreviation fexp := (SpecFloat.fexp prec emax).
Local Abbreviation emin := (SpecFloat.emin prec emax).

(** The place of a number of the format on the real line: the
    infinities lie beyond every finite number of the format. *)
Definition val (x : spec_float) : R :=
  match x with
  | S754_infinity false => bpow emax
  | S754_infinity true => (- bpow emax)%R
  | _ => SF2R x
  end.

Lemma bounded_below_emax (m : positive) (e : Z) :
  bounded prec emax m e = true -> (F2R (Zpos m) e < bpow emax)%R.
Proof.
  intros H. destruct (bounded_inv _ _ _ _ H) as [Hc He].
  destruct (canonical_digits _ _ _ _ Hc) as (Hd & _ & _).
  pose proof (binade_F2R (Zpos m) e ltac:(lia)) as [_ U].
  cbn [Zdigits2] in U.
  pose proof (bpow_le (Zpos (digits2_pos m) + e) emax ltac:(lia)).
  unfold F2R. lra.
Qed.

Lemma val_finite (s : bool) (m : positive) (e : Z) :
  bounded prec emax m e = true ->
  (- bpow emax < val (S754_finite s m e) < bpow emax)%R /\
  (if s then val (S754_finite s m e) < 0
   else 0 < val (S754_finite s m e))%R.
Proof.
  intros H. pose proof (bounded_below_emax m e H) as U.
  pose proof (F2R_pos m e) as P. cbn [val SF2R].
  destruct s; cbn [cond_Zopp]; unfold F2R in *;
    try rewrite opp_IZR; split; lra.
Qed.

Lemma val_bounds (x : spec_float) :
  valid_binary prec emax x = true ->
  (- bpow emax <= val x <= bpow emax)%R.
Proof.
  pose proof (bpow_gt_0 emax).
  destruct x as [s|[|]| |s m e]; cbn [val SF2R valid_binary]; intros V;
    try lra.
  destruct (val_finite s m e V) as [B _]. cbn [val SF2R] in B. lra.
Qed.

(** The comparison of two numbers of the format is the comparison of
    their places. *)
Lemma SFcompare_val (x y : spec_float) :
  valid_binary prec emax x = true -> valid_binary prec emax y = true ->
  is_number x = true -> is_number y = true ->
  exists c, SFcompare x y = Some c /\
    match c with
    | Lt => (val x < val y)%R
    | Eq => val x = val y
    | Gt => (val y < val x)%R
    end.
Proof.
  intros Vx Vy Nx Ny. pose proof (bpow_gt_0 emax) as B.
  destruct x as [sx|sx| |sx mx ex]; try discriminate;
    destruct y as [sy|sy| |sy my ey]; try discriminate;
    cbn [valid_binary] in Vx, Vy.
  - exists Eq. split; reflexivity.
  - destruct sy; eexists; (split; [reflexivity|]); cbn [val SF2R]; lra.
  - destruct (val_finite sy my ey Vy) as [_ S].
    destruct sy; eexists; (split; [reflexivity|]); cbn [val SF2R] in *; lra.
  - destruct sx; eexists; (split; [reflexivity|]); cbn [val SF2R]; lra.
  - destruct sx, sy; eexists; (split; [reflexivity|]); cbn [val]; lra.
  - destruct (val_finite sy my ey Vy) as [Bd _].
    destruct sx; eexists; (split; [reflexivity|]); cbn [val SF2R] in *; lra.
  - destruct (val_finite sx mx ex Vx) as [_ S].
    destruct sx; eexists; (split; [reflexivity|]); cbn [val SF2R] in *; lra.
  - destruct (val_finite sx mx ex Vx) as [Bd _].
    destruct sy; eexists; (split; [reflexivity|]); cbn [val SF2R] in *; lra.
  - destruct (bounded_inv _ _ _ _ Vx) as [Cx _].
    destruct (bounded_inv _ _ _ _ Vy) as [Cy _].
    rewrite (SFcompare_finite prec emax prec_pos sx sy mx my ex ey Cx Cy).
    eexists. split; [reflexivity|].
    pose proof (SF2R_scaled (Z.min ex ey) sx mx ex ltac:(lia)) as Ex.
    pose proof (SF2R_scaled (Z.min ex ey) sy my ey ltac:(lia)) as Ey.
    cbn [val]. rewrite Ex, Ey. unfold F2R.
    pose proof (bpow_gt_0 (Z.min ex ey)) as Pz.
    destruct (Z.compare_spec (scaled (Z.min ex ey) (S754_finite sx mx ex))
                (scaled (Z.min ex ey) (S754_finite sy my ey))) as [E|L|L].
    + now rewrite E.
    + apply Rmult_lt_compat_r; [lra | now apply IZR_lt].
    + apply Rmult_lt_compat_r; [lra | now apply IZR_lt].
Qed.

Lemma SFleb_val (x y : spec_float) :
  valid_binary prec emax x = true -> valid_binary prec emax y = true ->
  is_number x = true -> is_number y = true ->
  SFleb x y = true <-> (val x <= val y)%R.
Proof.
  intros Vx Vy Nx Ny.
  destruct (SFcompare_val x y Vx Vy Nx Ny) as (c & Ec & Hc).
  unfold SFleb. rewrite Ec.
  destruct c; split; intros H; try reflexivity; try discriminate; lra.
Qed.

Lemma SFltb_val (x y : spec_float) :
  valid_binary prec emax x = true -> valid_binary prec emax y = true ->
  is_number x = true -> is_number y = true ->
  SFltb x y = true <-> (val x < val y)%R.
Proof.
  intros Vx Vy Nx Ny.
  destruct (SFcompare_val x y Vx Vy Nx Ny) as (c & Ec & Hc).
  unfold SFltb. rewrite Ec.
  destruct c; split; intros H; try reflexivity; try discriminate; lra.
Qed.

Lemma SFltb_false_val (x y : spec_float) :
  valid_binary prec emax x = true -> valid_binary prec emax y = true ->
  is_number x = true -> is_number y = true ->
  SFltb x y = false <-> (val y <= val x)%R.
Proof.
  intros Vx Vy Nx Ny.
  destruct (SFcompare_val x y Vx Vy Nx Ny) as (c & Ec & Hc).
  unfold SFltb. rewrite Ec.
  destruct c; split; intros H; try reflexivity; try discriminate; lra.
Qed.

Lemma SFleb_false_val (x y : spec_float) :
  valid_binary prec emax x = true -> valid_binary prec emax y = true ->
  is_number x = true -> is_number y = true ->
  SFleb x y = false <-> (val y < val x)%R.
Proof.
  intros Vx Vy Nx Ny.
  destruct (SFcompare_val x y Vx Vy Nx Ny) as (c & Ec & Hc).
  unfold SFleb. rewrite Ec.
  destruct c; split; intros H; try reflexivity; try discriminate; lra.
Qed.

(** ** The value of a rounding *)

(** What a rounding returns, with the value [v] the positive number
    rounds to: an overflow is a value beyond the format. *)
Definition rounded_to (s : bool) (v : R) (r : spec_float) : Prop :=
  match r with
  | S754_nan => False
  | S754_zero s' => s' = s /\ v = 0%R
  | S754_finite s' m e =>
      s' = s /\ v = F2R (Zpos m) e /\ bounded prec emax m e = true
  | S754_infinity s' => s' = s /\ (bpow emax <= v)%R
  end.

Lemma binary_round_aux_value (s : bool) (mx ex : Z) (lx : location)
    (x : R) (d : Z) :
  0 <= mx -> located x mx lx ->
  (bpow (d - 1) <= x * bpow ex < bpow d)%R ->
  ex <= fexp (Zdigits2 mx + ex) ->
  exists v, rounds_to prec emax (x * bpow ex) v /\
            rounded_to s v (binary_round_aux prec emax s mx ex lx).
Proof.
  intros Hm Hl HB He.
  pose proof (bpow_gt_0 ex) as Pex. pose proof (bpow_gt_0 (d - 1)) as Pd.
  assert (HX : (0 < x * bpow ex)%R) by lra.
  assert (Hx : (0 < x)%R).
  { destruct (Rlt_le_dec 0 x) as [|Hle]; auto.
    assert (x * bpow ex <= 0)%R; [|lra].
    rewrite <- (Rmult_0_l (bpow ex)). apply Rmult_le_compat_r; lra. }
  pose proof (located_bounds _ _ _ Hl) as [Lx Ux].
  assert (Hdig : 0 < mx -> d = Zdigits2 mx + ex).
  { intros Hpos. apply (binade_unique (x * bpow ex)); [exact HB|].
    pose proof (binade_digits mx Hpos) as [L U].
    pose proof (Zdigits2_bounds mx Hpos) as [_ UZ].
    pose proof (Zdigits2_pos mx Hpos) as HD.
    assert (IZR mx + 1 <= bpow (Zdigits2 mx))%R.
    { rewrite bpow_IZR by lia. rewrite <- plus_IZR. apply IZR_le. lia. }
    replace (Zdigits2 mx + ex - 1) with (Zdigits2 mx - 1 + ex) by lia.
    rewrite (bpow_add (Zdigits2 mx - 1)), (bpow_add (Zdigits2 mx)). split.
    - apply Rmult_le_compat_r; lra.
    - apply Rmult_lt_compat_r; lra. }
  assert (Hle : ex <= fexp d).
  { destruct (Z.eq_dec mx 0) as [E0|].
    - subst mx. cbn [Zdigits2] in He.
      unfold SpecFloat.fexp in *. lia.
    - rewrite (Hdig ltac:(lia)). exact He. }
  unfold binary_round_aux.
  pose proof (shr_fexp_located prec emax mx ex lx x Hm Hl) as H1.
  cbv zeta in H1.
  destruct (shr_fexp_canonical prec emax prec_pos mx ex lx Hm He)
    as [_ C1].
  destruct (shr_fexp prec emax mx ex lx) as [r1 e1]. cbn [fst snd] in *.
  destruct H1 as (He1 & Hm1 & Hl1).
  set (N := round_nearest_even (shr_m r1) (loc_of_shr_record r1)).
  pose proof (round_nearest_even_bounds (shr_m r1) (loc_of_shr_record r1))
    as HNb. fold N in HNb.
  assert (Ee1 : e1 = fexp d).
  { destruct (Z.eq_dec mx 0) as [E0|].
    - subst mx. cbn [Zdigits2] in He1, He.
      assert (d <= ex).
      { assert (d - 1 < ex); [|lia]. apply bpow_lt_inv.
        assert (x * bpow ex < 1 * bpow ex)%R
          by (apply Rmult_lt_compat_r; lra).
        lra. }
      unfold SpecFloat.fexp in *. lia.
    - rewrite <- (Hdig ltac:(lia)) in He1. lia. }
  assert (Hx' : (x * bpow (ex - e1) = x * bpow ex * bpow (- fexp d))%R).
  { rewrite Ee1. replace (ex - fexp d) with (ex + - fexp d) by lia.
    rewrite bpow_add. ring. }
  rewrite Hx' in Hl1.
  assert (Hup : (0 < x * bpow ex * bpow (- fexp d) < bpow (d - fexp d))%R).
  { pose proof (bpow_gt_0 (- fexp d)).
    split; [apply Rmult_lt_0_compat; lra|].
    replace (d - fexp d) with (d + - fexp d) by lia.
    rewrite bpow_add. apply Rmult_lt_compat_r; lra. }
  assert (Hr : rounds_to prec emax (x * bpow ex) (F2R N e1)).
  { exists d, (shr_m r1), (loc_of_shr_record r1). rewrite Ee1. auto. }
  assert (HeN : e1 <= fexp (Zdigits2 N + e1)).
  { rewrite <- C1 at 1. apply fexp_le.
    pose proof (Zdigits2_mono (shr_m r1) N Hm1 ltac:(lia)). lia. }
  pose proof (shr_fexp_carry prec emax prec_pos N e1 d ltac:(lia) Ee1) as Hc.
  cbv zeta in Hc.
  destruct (shr_fexp_canonical prec emax prec_pos N e1 loc_Exact
              ltac:(lia) HeN) as [_ C2].
  destruct (shr_fexp prec emax N e1 loc_Exact) as [r2 e2].
  cbn [fst snd] in *.
  destruct Hc as [Hm2 Hv].
  { destruct (Z_le_gt_dec e1 d); [left|right; lia].
    apply (located_upper _ _ _ _ Hl1); [lia|].
    rewrite Ee1. lra. }
  { intros Hdc. apply (located_below_half _ _ _ Hl1).
    assert (bpow (d - fexp d) <= bpow (-1))%R by (apply bpow_le; lia).
    rewrite bpow_m1 in H. lra. }
  exists (F2R N e1). split; [exact Hr|]. rewrite <- Hv.
  destruct (shr_m r2) as [|m|m]; try lia; cbn [rounded_to].
  - split; [reflexivity|]. unfold F2R. ring.
  - cbn [Zdigits2] in C2.
    destruct (Z.leb_spec e2 (emax - prec)) as [Hb|Hb]; cbn [rounded_to].
    + split; [reflexivity|]. split; [reflexivity|].
      unfold bounded, canonical_mantissa. rewrite C2, Z.eqb_refl.
      cbn [andb]. now apply Z.leb_le.
    + split; [reflexivity|].
      pose proof (binade_F2R (Zpos m) e2 ltac:(lia)) as [L _].
      cbn [Zdigits2] in L.
      assert (Hdp : Zpos (digits2_pos m) = prec + e2 - e2).
      { unfold SpecFloat.fexp, SpecFloat.emin in C2. lia. }
      pose proof (bpow_le emax (Zpos (digits2_pos m) + e2 - 1) ltac:(lia)).
      unfold F2R. lra.
Qed.

Lemma binary_round_value (s : bool) (m : positive) (e : Z) :
  exists v, rounds_to prec emax (F2R (Zpos m) e) v /\
            rounded_to s v (binary_round prec emax s m e).
Proof.
  unfold binary_round.
  pose proof (shl_align_snd m e (fexp (Zpos (digits2_pos m) + e))) as Hs.
  assert (Hv : F2R (Zpos (fst (shl_align m e
                                  (fexp (Zpos (digits2_pos m) + e)))))
                   (snd (shl_align m e (fexp (Zpos (digits2_pos m) + e))))
               = F2R (Zpos m) e /\
               snd (shl_align m e (fexp (Zpos (digits2_pos m) + e)))
               <= fexp (Zdigits2 (Zpos (fst (shl_align m e
                                   (fexp (Zpos (digits2_pos m) + e)))))
                        + snd (shl_align m e
                                 (fexp (Zpos (digits2_pos m) + e))))).
  { destruct (Z_le_gt_dec (fexp (Zpos (digits2_pos m) + e)) e) as [Hle|Hgt].
    - rewrite shl_align_fst by exact Hle. rewrite Hs, Z.min_r by lia.
      split.
      + replace (fexp (Zpos (digits2_pos m) + e))
          with (e - (e - fexp (Zpos (digits2_pos m) + e))) at 2 by lia.
        apply F2R_shift. lia.
      + rewrite Zdigits2_mul_pow2 by lia. cbn [Zdigits2].
        replace (Zpos (digits2_pos m)
                 + (e - fexp (Zpos (digits2_pos m) + e))
                 + fexp (Zpos (digits2_pos m) + e))
          with (Zpos (digits2_pos m) + e) by lia.
        lia.
    - unfold shl_align.
      destruct (fexp (Zpos (digits2_pos m) + e) - e) eqn:E; try lia.
      cbn [fst snd Zdigits2]. split; [reflexivity | lia]. }
  destruct (shl_align m e (fexp (Zpos (digits2_pos m) + e))) as [mz ez].
  cbn [fst snd] in Hv. destruct Hv as [Hv Hez]. rewrite <- Hv. unfold F2R.
  apply (binary_round_aux_value s (Zpos mz) ez loc_Exact (IZR (Zpos mz))
           (Zdigits2 (Zpos mz) + ez)); auto; try lia.
  - reflexivity.
  - apply binade_F2R. lia.
Qed.

End Order.

Section RoundingOrder.

Variables prec emax : Z.
Hypothesis prec_pos : 0 < prec.
Hypothesis prec_lt_emax : prec < emax.

(** The place of the result of a rounding. *)
Lemma rounded_to_val (s : bool) (v : R) (r : spec_float) :
  rounded_to prec emax s v r ->
  val emax r = (if s then - Rmin v (bpow emax) else Rmin v (bpow emax))%R /\
  is_number r = true /\ valid_binary prec emax r = true.
Proof.
  pose proof (bpow_gt_0 emax) as B.
  destruct r as [s'|s'| |s' m e]; cbn [rounded_to]; try contradiction.
  - intros [-> ->]. rewrite Rmin_left by lra. cbn [val SF2R].
    repeat split; destruct s; lra.
  - intros [-> H]. rewrite Rmin_right by lra.
    repeat split; destruct s; reflexivity.
  - intros (-> & -> & Hb).
    pose proof (bounded_below_emax prec emax m e Hb).
    rewrite Rmin_left by lra. cbn [val SF2R is_number valid_binary].
    repeat split; auto.
    destruct s; cbn [cond_Zopp]; unfold F2R; try rewrite opp_IZR; ring.
Qed.

Lemma binary_normalize_val (m e : Z) (sz : bool) :
  is_number (binary_normalize prec emax m e sz) = true /\
  valid_binary prec emax (binary_normalize prec emax m e sz) = true /\
  exists v,
    (0 <= v)%R /\
    (m = 0 -> v = 0%R) /\
    (m <> 0 -> rounds_to prec emax (F2R (Z.abs m) e) v) /\
    val emax (binary_normalize prec emax m e sz)
    = (if m <? 0 then - Rmin v (bpow emax) else Rmin v (bpow emax))%R.
Proof.
  pose proof (bpow_gt_0 emax) as B.
  destruct m as [|p|p]; cbn [binary_normalize].
  - repeat split; try reflexivity. exists 0%R.
    rewrite Rmin_left by lra. cbn [val SF2R Z.ltb Z.compare].
    repeat split; auto; try lra. congruence.
  - destruct (binary_round_value prec emax prec_pos prec_lt_emax false p e)
      as (v & Hr & Hv).
    destruct (rounded_to_val false v _ Hv) as (E & N & V).
    repeat split; auto. exists v.
    repeat split; auto; try discriminate.
    eapply rounds_to_nonneg; eauto.
  - destruct (binary_round_value prec emax prec_pos prec_lt_emax true p e)
      as (v & Hr & Hv).
    destruct (rounded_to_val true v _ Hv) as (E & N & V).
    repeat split; auto. exists v.
    repeat split; auto; try discriminate.
    eapply rounds_to_nonneg; eauto.
Qed.

Lemma F2R_sign (m e : Z) :
  match m with
  | Z0 => F2R m e = 0%R
  | Zpos _ => (0 < F2R m e)%R
  | Zneg _ => (F2R m e < 0)%R
  end.
Proof.
  pose proof (bpow_gt_0 e). unfold F2R. destruct m as [|p|p].
  - ring.
  - apply Rmult_lt_0_compat; [apply IZR_lt; lia | lra].
  - assert (IZR (Zneg p) < 0)%R by (apply IZR_lt; lia). nra.
Qed.

(** Rounding keeps the order of the numbers it is given. *)
Lemma binary_normalize_mono (m1 e1 m2 e2 : Z) (s1 s2 : bool) :
  (F2R m1 e1 <= F2R m2 e2)%R ->
  (val emax (binary_normalize prec emax m1 e1 s1)
   <= val emax (binary_normalize prec emax m2 e2 s2))%R.
Proof.
  intros H. pose proof (bpow_gt_0 emax) as B.
  destruct (binary_normalize_val m1 e1 s1) as (_ & _ & v1 & P1 & Z1 & R1 & ->).
  destruct (binary_normalize_val m2 e2 s2) as (_ & _ & v2 & P2 & Z2 & R2 & ->).
  pose proof (F2R_sign m1 e1) as S1. pose proof (F2R_sign m2 e2) as S2.
  assert (M1 : (0 <= Rmin v1 (bpow emax))%R) by (apply Rmin_glb; lra).
  assert (M2 : (0 <= Rmin v2 (bpow emax))%R) by (apply Rmin_glb; lra).
  destruct m1 as [|p1|p1], m2 as [|p2|p2];
    cbn [Z.ltb Z.compare];
    try (rewrite (Z1 eq_refl) in *; rewrite (Rmin_left 0) in * by lra);
    try (rewrite (Z2 eq_refl) in *; rewrite (Rmin_left 0) in * by lra);
    try lra.
  - apply Rle_min_compat_r.
    apply (rounds_to_le prec emax prec_pos _ _ _ _
             (R1 ltac:(discriminate)) (R2 ltac:(discriminate))).
    exact H.
  - apply Ropp_le_contravar. apply Rle_min_compat_r.
    apply (rounds_to_le prec emax prec_pos _ _ _ _
             (R2 ltac:(discriminate)) (R1 ltac:(discriminate))).
    cbn [Z.abs]. unfold F2R in *.
    assert (E1 : IZR (Zneg p1) = (- IZR (Zpos p1))%R)
      by (rewrite <- opp_IZR; reflexivity).
    assert (E2 : IZR (Zneg p2) = (- IZR (Zpos p2))%R)
      by (rewrite <- opp_IZR; reflexivity).
    rewrite E1, E2 in H. lra.
Qed.

(** A number of the format rounds to itself. *)
Lemma binary_normalize_exact (s : bool) (m : positive) (e : Z) (sz : bool) :
  bounded prec emax m e = true ->
  val emax (binary_normalize prec emax (cond_Zopp s (Zpos m)) e sz)
  = SF2R (S754_finite s m e).
Proof.
  intros Hb.
  destruct (binary_normalize_val (cond_Zopp s (Zpos m)) e sz)
    as (_ & _ & v & P & _ & R1 & ->).
  assert (Habs : Z.abs (cond_Zopp s (Zpos m)) = Zpos m) by (now destruct s).
  rewrite Habs in R1. specialize (R1 ltac:(destruct s; discriminate)).
  pose proof (rounds_to_bounded prec emax m e Hb) as R0.
  pose proof (rounds_to_le prec emax prec_pos _ _ _ _ R1 R0 ltac:(lra)).
  pose proof (rounds_to_le prec emax prec_pos _ _ _ _ R0 R1 ltac:(lra)).
  pose proof (bounded_below_emax prec emax m e Hb).
  rewrite Rmin_left by lra. cbn [SF2R].
  destruct s; cbn [cond_Zopp Z.ltb Z.compare Z.opp]; unfold F2R in *;
    [|lra].
  assert (E1 : IZR (Zneg m) = (- IZR (Zpos m))%R)
    by (rewrite <- opp_IZR; reflexivity).
  rewrite E1. lra.
Qed.

(** What is neither a NaN nor an infinity. *)
Definition is_finite (x : spec_float) : bool :=
  match x with
  | S754_zero _ | S754_finite _ _ _ => true
  | _ => false
  end.

Lemma binary_normalize_le (m e : Z) (sz : bool) (x : spec_float) :
  valid_binary prec emax x = true -> is_finite x = true ->
  (F2R m e <= SF2R x)%R ->
  (val emax (binary_normalize prec emax m e sz) <= val emax x)%R.
Proof.
  intros V F H. destruct x as [s|s| |s mx ex]; try discriminate.
  - cbn [val SF2R] in *.
    replace 0%R with (val emax (binary_normalize prec emax 0 0 false))
      by reflexivity.
    apply binary_normalize_mono. unfold F2R at 2. lra.
  - cbn [val]. rewrite <- (binary_normalize_exact s mx ex false V).
    apply binary_normalize_mono. exact H.
Qed.

Lemma binary_normalize_ge (m e : Z) (sz : bool) (x : spec_float) :
  valid_binary prec emax x = true -> is_finite x = true ->
  (SF2R x <= F2R m e)%R ->
  (val emax x <= val emax (binary_normalize prec emax m e sz))%R.
Proof.
  intros V F H. destruct x as [s|s| |s mx ex]; try discriminate.
  - cbn [val SF2R] in *.
    replace 0%R with (val emax (binary_normalize prec emax 0 0 false))
      by reflexivity.
    apply binary_normalize_mono. unfold F2R at 1. lra.
  - cbn [val]. rewrite <- (binary_normalize_exact s mx ex false V).
    apply binary_normalize_mono. exact H.
Qed.

(** A positive number of the format taken from, or added to, a number. *)
Lemma SFsub_le (x : spec_float) (mc : positive) (ec : Z) :
  valid_binary prec emax x = true -> is_number x = true ->
  bounded prec emax mc ec = true ->
  let r := SFsub prec emax x (S754_finite false mc ec) in
  is_number r = true /\ valid_binary prec emax r = true /\
  (val emax r <= val emax x)%R.
Proof.
  intros V N Vc. pose proof (F2R_pos mc ec) as Pc.
  destruct x as [s|s| |s mx ex]; try discriminate; cbn [SFsub].
  - repeat split; auto. cbn [negb val SF2R cond_Zopp]. unfold F2R in *.
    rewrite opp_IZR. lra.
  - repeat split; auto. lra.
  - destruct (binary_normalize_val
                (cond_Zopp s (Zpos (fst (shl_align mx ex (Z.min ex ec))))
                 - cond_Zopp false (Zpos (fst (shl_align mc ec (Z.min ex ec)))))
                (Z.min ex ec) false) as (Nr & Vr & _).
    repeat split; auto.
    apply binary_normalize_le; auto.
    rewrite !shl_align_fst by lia.
    rewrite <- F2R_minus.
    pose proof (SF2R_scaled (Z.min ex ec) s mx ex ltac:(lia)) as Ex.
    pose proof (SF2R_scaled (Z.min ex ec) false mc ec ltac:(lia)) as Ec.
    cbn [scaled] in Ex, Ec. rewrite <- Ex, <- Ec.
    cbn [SF2R cond_Zopp]. lra.
Qed.

Lemma SFadd_number (x : spec_float) (mc : positive) (ec : Z) :
  is_number x = true ->
  is_number (SFadd prec emax x (S754_finite false mc ec)) = true.
Proof.
  destruct x as [s|s| |s mx ex]; try discriminate; cbn [SFadd]; auto.
  intros _. apply binary_normalize_val.
Qed.

(** The comparisons of the numbers of the format are those of an
    order. *)
Lemma SFleb_refl (x : spec_float) :
  valid_binary prec emax x = true -> is_number x = true ->
  SFleb x x = true.
Proof.
  intros V N. apply (SFleb_val prec emax prec_pos); auto. lra.
Qed.

Lemma SFleb_trans (x y z : spec_float) :
  valid_binary prec emax x = true -> valid_binary prec emax y = true ->
  valid_binary prec emax z = true ->
  is_number x = true -> is_number y = true -> is_number z = true ->
  SFleb x y = true -> SFleb y z = true -> SFleb x z = true.
Proof.
  intros Vx Vy Vz Nx Ny Nz H1 H2.
  apply (SFleb_val prec emax prec_pos) in H1; auto.
  apply (SFleb_val prec emax prec_pos) in H2; auto.
  apply (SFleb_val prec emax prec_pos); auto. lra.
Qed.

Lemma SFltb_leb (x y : spec_float) :
  valid_binary prec emax x = true -> valid_binary prec emax y = true ->
  is_number x = true -> is_number y = true ->
  (SFltb x y = true -> SFleb x y = true) /\
  (SFltb x y = false -> SFleb y x = true) /\
  (SFleb x y = false -> SFleb y x = true).
Proof.
  intros Vx Vy Nx Ny. repeat split; intros H.
  - apply (SFltb_val prec emax prec_pos) in H; auto.
    apply (SFleb_val prec emax prec_pos); auto. lra.
  - apply (SFltb_false_val prec emax prec_pos) in H; auto.
    apply (SFleb_val prec emax prec_pos); auto.
  - apply (SFleb_false_val prec emax prec_pos) in H; auto.
    apply (SFleb_val prec emax prec_pos); auto. lra.
Qed.

End RoundingOrder.

(** ** [float] and [double] in their order *)

Lemma F32_prec : 0 < 24 /\ 24 < 128.
Proof. lia. Qed.

Lemma F64_prec : 0 < 53 /\ 53 < 1024.
Proof. lia. Qed.

(** The double of a finite [float] is finite and has its value. *)
Lemma of_float_finite (s : bool) (m : positive) (e : Z) :
  bounded 24 128 m e = true ->
  exists m' e',
    F64.of_float (S754_finite s m e) = S754_finite s m' e' /\
    bounded 53 1024 m' e' = true /\
    F2R (Zpos m') e' = F2R (Zpos m) e.
Proof.
  intros H. destruct (float_to_double_exact s m e H) as (d & Hd & E).
  exists (Pos.iter xO m d), (e - Zpos d). split; [exact E|]. split.
  - pose proof (binary_normalize_valid 53 1024 ltac:(lia)
                  (cond_Zopp s (Zpos m)) e s) as V.
    change (binary_normalize 53 1024 (cond_Zopp s (Zpos m)) e s)
      with (F64.of_float (S754_finite s m e)) in V.
    rewrite E in V. exact V.
  - rewrite iter_xO_mul. apply F2R_shift. lia.
Qed.

Lemma of_float_number (x : spec_float) :
  F32.valid x = true -> is_number x = true ->
  F64.valid (F64.of_float x) = true /\
  is_number (F64.of_float x) = true /\
  (is_finite x = true ->
   is_finite (F64.of_float x) = true /\
   SF2R (F64.of_float x) = SF2R x).
Proof.
  intros V N. destruct x as [s|s| |s m e]; try discriminate;
    try (repeat split; reflexivity || discriminate).
  destruct (of_float_finite s m e V) as (m' & e' & E & B & EV).
  rewrite E. repeat split; auto.
  cbn [SF2R]. destruct s; cbn [cond_Zopp]; unfold F2R in *.
  - change (Z.opp (Zpos m')) with (Zneg m').
    change (Z.opp (Zpos m)) with (Zneg m).
    assert (E1 : IZR (Zneg m') = (- IZR (Zpos m'))%R)
      by (rewrite <- opp_IZR; reflexivity).
    assert (E2 : IZR (Zneg m) = (- IZR (Zpos m))%R)
      by (rewrite <- opp_IZR; reflexivity).
    rewrite E1, E2. lra.
  - exact EV.
Qed.

Lemma of_double_number (x : spec_float) :
  is_number x = true ->
  is_number (F32.of_double x) = true /\
  F32.valid (F32.of_double x) = true.
Proof.
  intros N. destruct x as [s|s| |s m e]; try discriminate;
    try (split; reflexivity).
  pose proof (binary_normalize_val 24 128 ltac:(lia) ltac:(lia)
                (cond_Zopp s (Zpos m)) e s) as (Nr & Vr & _).
  split; assumption.
Qed.

(** The only number of a format at the place of an infinity. *)
Lemma val_infinity (pr em : Z) (x : spec_float) :
  valid_binary pr em x = true -> is_number x = true ->
  ((val em x <= - bpow em)%R -> x = S754_infinity true) /\
  ((bpow em <= val em x)%R -> x = S754_infinity false).
Proof.
  intros V N. pose proof (bpow_gt_0 em) as B.
  destruct x as [s|[|]| |s m e]; try discriminate; cbn [val SF2R];
    split; intros H; try reflexivity; try lra.
  - destruct (val_finite pr em s m e V) as [Hb _]. cbn [val SF2R] in Hb. lra.
  - destruct (val_finite pr em s m e V) as [Hb _]. cbn [val SF2R] in Hb. lra.
Qed.

Lemma val_is_finite (pr em : Z) (x : spec_float) :
  valid_binary pr em x = true -> is_finite x = true ->
  val em x = SF2R x /\ (- bpow em < SF2R x < bpow em)%R.
Proof.
  intros V F. pose proof (bpow_gt_0 em) as B.
  destruct x as [s|s| |s m e]; try discriminate; cbn [val SF2R].
  - split; [reflexivity | lra].
  - destruct (val_finite pr em s m e V) as [Hb _]. cbn [val SF2R] in Hb.
    split; [reflexivity | lra].
Qed.

Lemma is_finite_cases (x : spec_float) :
  is_number x = true ->
  x = S754_infinity true \/ x = S754_infinity false \/ is_finite x = true.
Proof.
  destruct x as [s|[|]| |s m e]; try discriminate; auto.
Qed.

(** A double that is not above a [float] converts to a [float] that is
    not above it; likewise from below. *)
Lemma of_double_le_float (x y : spec_float) :
  F64.valid x = true -> is_number x = true ->
  F32.valid y = true -> is_number y = true ->
  SFleb x (F64.of_float y) = true ->
  SFleb (F32.of_double x) y = true.
Proof.
  intros Vx Nx Vy Ny H.
  destruct (of_double_number x Nx) as [Nr Vr].
  destruct (of_float_number y Vy Ny) as (Vd & Nd & Fd).
  apply (SFleb_val 24 128 ltac:(lia)); auto.
  apply (SFleb_val 53 1024 ltac:(lia)) in H; auto.
  pose proof (val_bounds 24 128 (F32.of_double x) Vr) as Br.
  pose proof (bpow_lt 128 1024 ltac:(lia)) as B.
  pose proof (bpow_gt_0 128) as B0.
  destruct (is_finite_cases y Ny) as [-> | [-> | Fy]].
  - apply (val_infinity 53 1024 x Vx Nx) in H. subst x.
    unfold F32.of_double, fof_float. cbn [val]. lra.
  - cbn [val]. lra.
  - destruct (Fd Fy) as [Ff Ev].
    destruct (val_is_finite 53 1024 _ Vd Ff) as [E1 _].
    destruct (val_is_finite 24 128 _ Vy Fy) as [E2 By].
    rewrite E1, Ev in H. rewrite E2.
    destruct x as [s|[|]| |s m e]; try discriminate.
    + cbn [val SF2R] in *. exact H.
    + unfold F32.of_double, fof_float. cbn [val SF2R] in *. lra.
    + unfold F32.of_double, fof_float. cbn [val SF2R] in *. lra.
    + rewrite <- E2.
      apply (binary_normalize_le 24 128 ltac:(lia) ltac:(lia)); auto.
Qed.

Lemma of_double_ge_float (x y : spec_float) :
  F64.valid x = true -> is_number x = true ->
  F32.valid y = true -> is_number y = true ->
  SFleb (F64.of_float y) x = true ->
  SFleb y (F32.of_double x) = true.
Proof.
  intros Vx Nx Vy Ny H.
  destruct (of_double_number x Nx) as [Nr Vr].
  destruct (of_float_number y Vy Ny) as (Vd & Nd & Fd).
  apply (SFleb_val 24 128 ltac:(lia)); auto.
  apply (SFleb_val 53 1024 ltac:(lia)) in H; auto.
  pose proof (val_bounds 24 128 (F32.of_double x) Vr) as Br.
  pose proof (bpow_lt 128 1024 ltac:(lia)) as B.
  pose proof (bpow_gt_0 128) as B0.
  destruct (is_finite_cases y Ny) as [-> | [-> | Fy]].
  - cbn [val]. lra.
  - apply (val_infinity 53 1024 x Vx Nx) in H. subst x.
    unfold F32.of_double, fof_float. cbn [val]. lra.
  - destruct (Fd Fy) as [Ff Ev].
    destruct (val_is_finite 53 1024 _ Vd Ff) as [E1 _].
    destruct (val_is_finite 24 128 _ Vy Fy) as [E2 By].
    rewrite E1, Ev in H. rewrite E2.
    destruct x as [s|[|]| |s m e]; try discriminate.
    + cbn [val SF2R] in *. exact H.
    + unfold F32.of_double, fof_float. cbn [val SF2R] in *. lra.
    + unfold F32.of_double, fof_float. cbn [val SF2R] in *. lra.
    + rewrite <- E2.
      apply (binary_normalize_ge 24 128 ltac:(lia) ltac:(lia)); auto.
Qed.

(** The conversion of a [float] to [double] keeps the order. *)
Lemma of_float_val_cases (x : spec_float) :
  F32.valid x = true -> is_number x = true ->
  (val 128 x = (- bpow 128)%R /\
   val 1024 (F64.of_float x) = (- bpow 1024)%R) \/
  (val 128 x = bpow 128 /\ val 1024 (F64.of_float x) = bpow 1024) \/
  (val 1024 (F64.of_float x) = val 128 x /\
   (- bpow 128 < val 128 x < bpow 128)%R).
Proof.
  intros Vx Nx.
  destruct (of_float_number x Vx Nx) as (Vdx & Ndx & Fdx).
  destruct (is_finite_cases x Nx) as [-> | [-> | Fx]].
  - left. split; reflexivity.
  - right. left. split; reflexivity.
  - right. right. destruct (Fdx Fx) as [Ff Ev].
    destruct (val_is_finite 53 1024 _ Vdx Ff) as [E1 _].
    destruct (val_is_finite 24 128 _ Vx Fx) as [E2 Bd].
    rewrite E1, E2, Ev. split; [reflexivity | exact Bd].
Qed.

Lemma of_float_val_le (x y : spec_float) :
  F32.valid x = true -> is_number x = true ->
  F32.valid y = true -> is_number y = true ->
  ((val 128 x <= val 128 y)%R ->
   (val 1024 (F64.of_float x) <= val 1024 (F64.of_float y))%R) /\
  ((val 128 x < val 128 y)%R ->
   (val 1024 (F64.of_float x) < val 1024 (F64.of_float y))%R).
Proof.
  intros Vx Nx Vy Ny.
  pose proof (bpow_lt 128 1024 ltac:(lia)) as B.
  pose proof (bpow_gt_0 128) as B0.
  destruct (of_float_val_cases x Vx Nx) as [[-> ->] | [[-> ->] | [-> Bx]]];
    destruct (of_float_val_cases y Vy Ny) as [[-> ->] | [[-> ->] | [-> By]]];
    split; lra.
Qed.

Lemma of_float_leb (x y : spec_float) :
  F32.valid x = true -> is_number x = true ->
  F32.valid y = true -> is_number y = true ->
  SFleb x y = true -> SFleb (F64.of_float x) (F64.of_float y) = true.
Proof.
  intros Vx Nx Vy Ny H.
  destruct (of_float_number x Vx Nx) as (Vdx & Ndx & _).
  destruct (of_float_number y Vy Ny) as (Vdy & Ndy & _).
  apply (SFleb_val 24 128 ltac:(lia)) in H; auto.
  apply (SFleb_val 53 1024 ltac:(lia)); auto.
  now apply of_float_val_le.
Qed.

Lemma of_float_ltb (x y : spec_float) :
  F32.valid x = true -> is_number x = true ->
  F32.valid y = true -> is_number y = true ->
  SFltb x y = true -> SFltb (F64.of_float x) (F64.of_float y) = true.
Proof.
  intros Vx Nx Vy Ny H.
  destruct (of_float_number x Vx Nx) as (Vdx & Ndx & _).
  destruct (of_float_number y Vy Ny) as (Vdy & Ndy & _).
  apply (SFltb_val 24 128 ltac:(lia)) in H; auto.
  apply (SFltb_val 53 1024 ltac:(lia)); auto.
  now apply of_float_val_le.
Qed.

(** A comparison that holds one way does not hold the other way. *)
Lemma SFltb_asym (pr em : Z) (x y : spec_float) :
  0 < pr ->
  valid_binary pr em x = true -> valid_binary pr em y = true ->
  is_number x = true -> is_number y = true ->
  (SFltb x y = true -> SFltb y x = false /\ SFleb y x = false) /\
  (SFleb x y = true -> SFltb y x = false).
Proof.
  intros Hp Vx Vy Nx Ny. split.
  - intros H. apply (SFltb_val pr em Hp) in H; auto. split.
    + apply (SFltb_false_val pr em Hp); auto. lra.
    + apply (SFleb_false_val pr em Hp); auto.
  - intros H. apply (SFleb_val pr em Hp) in H; auto.
    apply (SFltb_false_val pr em Hp); auto.
Qed.

Lemma SFltb_number (x y : spec_float) :
  SFltb x y = true -> is_number x = true /\ is_number y = true.
Proof.
  unfold SFltb. destruct x, y; cbn [SFcompare]; try discriminate; auto.
Qed.

(* ------------------------------------------------------------------ *)
(** ** The range of a bar and its value *)

(** A [float] that is not a NaN. *)
Definition a_number (x : float) : bool := F32.valid x && is_number x.

Lemma a_number_inv (x : float) :
  a_number x = true -> F32.valid x = true /\ is_number x = true.
Proof. unfold a_number. intros H. now apply andb_true_iff in H. Qed.

Lemma leb_refl32 (x : float) : a_number x = true -> F32.leb x x = true.
Proof.
  intros H. destruct (a_number_inv x H).
  now apply (SFleb_refl 24 128 ltac:(lia)).
Qed.

Lemma leb_trans32 (x y z : float) :
  a_number x = true -> a_number y = true -> a_number z = true ->
  F32.leb x y = true -> F32.leb y z = true -> F32.leb x z = true.
Proof.
  intros Hx Hy Hz.
  destruct (a_number_inv x Hx), (a_number_inv y Hy), (a_number_inv z Hz).
  now apply (SFleb_trans 24 128 ltac:(lia)).
Qed.

Lemma ltb_false32 (x y : float) :
  a_number x = true -> a_number y = true ->
  F32.ltb x y = false -> F32.leb y x = true.
Proof.
  intros Hx Hy. destruct (a_number_inv x Hx), (a_number_inv y Hy).
  now apply (SFltb_leb 24 128 ltac:(lia)).
Qed.

Lemma leb_false32 (x y : float) :
  a_number x = true -> a_number y = true ->
  F32.leb x y = false -> F32.leb y x = true.
Proof.
  intros Hx Hy. destruct (a_number_inv x Hx), (a_number_inv y Hy).
  now apply (SFltb_leb 24 128 ltac:(lia)).
Qed.

Lemma stored_number (x : double) :
  is_number x = true -> a_number (F32.of_double x) = true.
Proof.
  intros H. destruct (of_double_number x H) as [N V].
  unfold a_number. now rewrite N, V.
Qed.

Lemma promoted_number (x : float) :
  a_number x = true ->
  F64.valid (F64.of_float x) = true /\ is_number (F64.of_float x) = true.
Proof.
  intros H. destruct (a_number_inv x H) as [V N].
  destruct (of_float_number x V N) as (V' & N' & _). auto.
Qed.

(** [0.0001], the double of the source. *)
Lemma lit_0_0001_finite :
  lit_0_0001 = S754_finite false 7378697629483821 (-66) /\
  bounded 53 1024 7378697629483821 (-66) = true.
Proof. split; vm_compute; reflexivity. Qed.

(** [(float) (x + 0.0001)] is a number. *)
Lemma bumped_number (x : float) :
  a_number x = true ->
  a_number (F32.of_double (F64.add (F64.of_float x) lit_0_0001)) = true.
Proof.
  intros H. destruct (promoted_number x H) as [V N].
  apply stored_number. destruct lit_0_0001_finite as [-> _].
  now apply (SFadd_number 53 1024 ltac:(lia) ltac:(lia)).
Qed.

(** [(float) (x - 0.0001)] is a number that is not above [x]. *)
Lemma pulled_below (x : float) :
  a_number x = true ->
  a_number (F32.of_double (F64.sub (F64.of_float x) lit_0_0001)) = true /\
  F32.leb (F32.of_double (F64.sub (F64.of_float x) lit_0_0001)) x = true.
Proof.
  intros H. destruct (promoted_number x H) as [V N].
  destruct (a_number_inv x H) as [Vx Nx].
  destruct lit_0_0001_finite as [-> Hc].
  destruct (SFsub_le 53 1024 ltac:(lia) ltac:(lia) (F64.of_float x)
              7378697629483821 (-66) V N Hc) as (Nr & Vr & Hle).
  split; [now apply stored_number|].
  apply of_double_le_float; auto.
  apply (SFleb_val 53 1024 ltac:(lia)); auto.
Qed.

(** The three numbers of a bar after the range assignments of
    [bar_properties_set]. *)
Definition range_after (new_min new_max : option double) (lo hi v : float)
  : float * float * float :=
  let lo1 := F32.of_double (luaA_getopt new_min (F64.of_float lo)) in
  let hi2 := if F32.leb hi lo1
             then F32.of_double (F64.add (F64.of_float hi) lit_0_0001)
             else hi in
  let v3 := if F32.ltb v lo1 then lo1 else v in
  let hi4 := F32.of_double (luaA_getopt new_max (F64.of_float hi2)) in
  let lo5 := if F32.geb lo1 hi4
             then F32.of_double (F64.sub (F64.of_float hi4) lit_0_0001)
             else lo1 in
  let v6 := if F32.gtb v3 hi4 then hi4 else v3 in
  (lo5, hi4, v6).

(** A number given in a property table, if any, is not a NaN. *)
Definition given_number (o : option double) : bool :=
  match o with
  | Some x => is_number x
  | None => true
  end.

Lemma read_number (o : option double) (x : float) :
  given_number o = true -> a_number x = true ->
  a_number (F32.of_double (luaA_getopt o (F64.of_float x))) = true.
Proof.
  intros Ho Hx. apply stored_number. destruct o as [y|]; cbn [luaA_getopt].
  - exact Ho.
  - now apply promoted_number.
Qed.

Lemma range_after_in_range (new_min new_max : option double)
    (lo hi v : float) :
  given_number new_min = true -> given_number new_max = true ->
  a_number lo = true -> a_number hi = true -> a_number v = true ->
  let '(lo', hi', v') := range_after new_min new_max lo hi v in
  (a_number lo' = true /\ a_number hi' = true /\ a_number v' = true) /\
  F32.leb lo' hi' = true /\ F32.leb lo' v' = true /\ F32.leb v' hi' = true.
Proof.
  intros Gmin Gmax Nlo Nhi Nv. unfold range_after.
  set (lo1 := F32.of_double (luaA_getopt new_min (F64.of_float lo))).
  assert (N1 : a_number lo1 = true) by (now apply read_number).
  set (hi2 := if F32.leb hi lo1
              then F32.of_double (F64.add (F64.of_float hi) lit_0_0001)
              else hi).
  assert (N2 : a_number hi2 = true).
  { subst hi2. destruct (F32.leb hi lo1); [now apply bumped_number | auto]. }
  set (v3 := if F32.ltb v lo1 then lo1 else v).
  assert (N3 : a_number v3 = true /\ F32.leb lo1 v3 = true).
  { subst v3. destruct (F32.ltb v lo1) eqn:E.
    - split; [auto | now apply leb_refl32].
    - split; [auto | now apply ltb_false32]. }
  destruct N3 as [N3 L13].
  set (hi4 := F32.of_double (luaA_getopt new_max (F64.of_float hi2))).
  assert (N4 : a_number hi4 = true) by (now apply read_number).
  set (lo5 := if F32.geb lo1 hi4
              then F32.of_double (F64.sub (F64.of_float hi4) lit_0_0001)
              else lo1).
  set (v6 := if F32.gtb v3 hi4 then hi4 else v3).
  assert (N6 : a_number v6 = true /\ F32.leb v6 hi4 = true).
  { subst v6. unfold F32.gtb. destruct (SFltb hi4 v3) eqn:E.
    - split; [auto | now apply leb_refl32].
    - split; [auto | now apply (ltb_false32 hi4 v3)]. }
  destruct N6 as [N6 L64].
  destruct (pulled_below hi4 N4) as [Np Lp].
  assert (N5 : a_number lo5 = true /\ F32.leb lo5 hi4 = true /\
               F32.leb lo5 v6 = true).
  { subst lo5 v6. unfold F32.geb, F32.gtb in *.
    destruct (SFleb hi4 lo1) eqn:E.
    - split; [exact Np|]. split; [exact Lp|].
      apply (leb_trans32 _ hi4); auto.
      destruct (SFltb hi4 v3); [now apply leb_refl32|].
      now apply (leb_trans32 _ lo1).
    - assert (L14 : F32.leb lo1 hi4 = true) by (now apply leb_false32).
      split; [exact N1|]. split; [exact L14|].
      destruct (SFltb hi4 v3); auto. }
  destruct N5 as (N5 & L54 & L56). auto 10.
Qed.

Section Ranges.

Context {host : Host}.

(** The numbers of a bar are not NaNs. *)
Definition sane (b : bar_t) : bool :=
  a_number (min_value b) && a_number (max_value b) && a_number (value b).

(** [min_value <= max_value] and [min_value <= value <= max_value]. *)
Definition in_range (b : bar_t) : bool :=
  F32.leb (min_value b) (max_value b)
  && F32.leb (min_value b) (value b)
  && F32.leb (value b) (max_value b).

Definition table_numbers (p : bar_properties) : bool :=
  given_number (p_min_value p) && given_number (p_max_value p).

Lemma bar_set_range_fields (p : bar_properties) (bar : bar_t) :
  (min_value (bar_set_range p bar), max_value (bar_set_range p bar),
   value (bar_set_range p bar))
  = range_after (p_min_value p) (p_max_value p)
      (min_value bar) (max_value bar) (value bar).
Proof.
  unfold bar_set_range, range_after.
  cbn [min_value max_value value set_min_value set_max_value set_value].
  repeat match goal with
         | |- context [if ?c then _ else _] =>
             lazymatch c with
             | context [if _ then _ else _] => fail
             | _ => destruct c
             end;
             cbn [min_value max_value value set_min_value set_max_value
                  set_value]
         end; reflexivity.
Qed.

Lemma bar_of_properties_fields (p : bar_properties) (bar : bar_t) :
  (min_value (bar_apply_properties p bar),
   max_value (bar_apply_properties p bar),
   value (bar_apply_properties p bar))
  = range_after (p_min_value p) (p_max_value p)
      (min_value bar) (max_value bar) (value bar).
Proof.
  unfold bar_apply_properties.
  cbn [min_value max_value value set_reverse].
  now rewrite bar_set_range_fields.
Qed.

Lemma apply_properties_in_range (p : bar_properties) (bar : bar_t) :
  sane bar = true -> table_numbers p = true ->
  sane (bar_apply_properties p bar) && in_range (bar_apply_properties p bar)
  = true.
Proof.
  unfold sane, table_numbers, in_range. intros Hs Ht.
  apply andb_true_iff in Hs. destruct Hs as [Hs Nv].
  apply andb_true_iff in Hs. destruct Hs as [Nlo Nhi].
  apply andb_true_iff in Ht. destruct Ht as [Gmin Gmax].
  pose proof (range_after_in_range _ _ _ _ _ Gmin Gmax Nlo Nhi Nv) as H.
  rewrite <- (bar_of_properties_fields p bar) in H.
  destruct H as ((N1 & N2 & N3) & L1 & L2 & L3).
  now rewrite N1, N2, N3, L1, L2, L3.
Qed.

(** The number [bar_data_add] stores: the macros compare doubles. *)
Lemma clamped_in_range (lo hi : float) (x : double) :
  a_number lo = true -> a_number hi = true -> F32.leb lo hi = true ->
  F64.valid x = true ->
  let v := F32.of_double (MAX (F64.of_float lo) (MIN (F64.of_float hi) x)) in
  a_number v = true /\ F32.leb lo v = true /\ F32.leb v hi = true.
Proof.
  intros Nlo Nhi Hle Vx.
  destruct (a_number_inv lo Nlo) as [Vlo Ilo].
  destruct (a_number_inv hi Nhi) as [Vhi Ihi].
  destruct (promoted_number lo Nlo) as [Vdlo Ndlo].
  destruct (promoted_number hi Nhi) as [Vdhi Ndhi].
  unfold MAX, MIN, F64.ltb.
  destruct (SFltb (F64.of_float hi) x) eqn:E1.
  - destruct (SFltb (F64.of_float lo) (F64.of_float hi)) eqn:E2;
      cbv zeta; rewrite float_double_float by assumption;
      repeat split; auto using leb_refl32.
  - destruct (SFltb (F64.of_float lo) x) eqn:E2; cbv zeta.
    + assert (Nx : is_number x = true).
      { destruct x; try reflexivity.
        unfold SFltb in E2. destruct (F64.of_float lo); discriminate. }
      split; [now apply stored_number|]. split.
      * apply of_double_ge_float; auto.
        destruct (SFltb_leb 53 1024 ltac:(lia) (F64.of_float lo) x)
          as (H1 & _ & _); auto.
      * apply of_double_le_float; auto.
        destruct (SFltb_leb 53 1024 ltac:(lia) (F64.of_float hi) x)
          as (_ & H2 & _); auto.
    + rewrite float_double_float by assumption.
      repeat split; auto using leb_refl32.
Qed.

Lemma add_value_in_range (x : double) (bar : bar_t) :
  sane bar && in_range bar = true -> F64.valid x = true ->
  sane (bar_add_value x bar) && in_range (bar_add_value x bar) = true.
Proof.
  unfold sane, in_range. intros H Vx.
  cbn [bar_add_value min_value max_value value set_value].
  apply andb_true_iff in H. destruct H as [Hs Hr].
  apply andb_true_iff in Hs. destruct Hs as [Hs _].
  apply andb_true_iff in Hs. destruct Hs as [Nlo Nhi].
  apply andb_true_iff in Hr. destruct Hr as [Hr _].
  apply andb_true_iff in Hr. destruct Hr as [Hle _].
  destruct (clamped_in_range (min_value bar) (max_value bar) x
              Nlo Nhi Hle Vx) as (N & L1 & L2).
  now rewrite Nlo, Nhi, N, Hle, L1, L2.
Qed.

End Ranges.

Section RangeTheorems.

Context {host : Host}.

(** X6. A value added to a bar whose minimum is not above its maximum is
    stored between them, whatever the number given: a NaN and a number
    below the minimum are stored as the minimum, a number above the
    maximum as the maximum. *)
Theorem data_add_clamps :
  forall (bar : bar_t) (x : double),
    a_number (min_value bar) = true -> a_number (max_value bar) = true ->
    F32.leb (min_value bar) (max_value bar) = true ->
    F64.valid x = true ->
    let bar' := bar_add_value x bar in
    min_value bar' = min_value bar /\ max_value bar' = max_value bar /\
    F32.leb (min_value bar) (value bar') = true /\
    F32.leb (value bar') (max_value bar) = true /\
    (x = S754_nan -> value bar' = min_value bar) /\
    (F64.ltb x (F64.of_float (min_value bar)) = true ->
     value bar' = min_value bar) /\
    (F32.ltb (min_value bar) (max_value bar) = true ->
     F64.ltb (F64.of_float (max_value bar)) x = true ->
     value bar' = max_value bar).
Proof.
  intros bar x Nlo Nhi Hle Vx bar'.
  destruct (clamped_in_range (min_value bar) (max_value bar) x
              Nlo Nhi Hle Vx) as (N & L1 & L2).
  destruct (a_number_inv _ Nlo) as [Vlo Ilo].
  destruct (a_number_inv _ Nhi) as [Vhi Ihi].
  destruct (promoted_number _ Nlo) as [Vdlo Ndlo].
  destruct (promoted_number _ Nhi) as [Vdhi Ndhi].
  split; [reflexivity|]. split; [reflexivity|].
  split; [exact L1|]. split; [exact L2|].
  subst bar'. cbn [bar_add_value value set_value]. unfold MAX, MIN, F64.ltb.
  split; [|split].
  - intros ->.
    assert (E1 : SFltb (F64.of_float (max_value bar)) S754_nan = false)
      by (unfold SFltb; destruct (F64.of_float (max_value bar)); reflexivity).
    assert (E2 : SFltb (F64.of_float (min_value bar)) S754_nan = false)
      by (unfold SFltb; destruct (F64.of_float (min_value bar)); reflexivity).
    rewrite E1, E2. now apply float_double_float.
  - intros E. destruct (SFltb_number _ _ E) as [Nx _].
    pose proof (of_float_leb _ _ Vlo Ilo Vhi Ihi Hle) as Hd.
    apply (SFltb_val 53 1024 ltac:(lia)) in E; auto.
    apply (SFleb_val 53 1024 ltac:(lia)) in Hd; auto.
    assert (E1 : SFltb (F64.of_float (max_value bar)) x = false)
      by (apply (SFltb_false_val 53 1024 ltac:(lia)); auto; lra).
    assert (E2 : SFltb (F64.of_float (min_value bar)) x = false)
      by (apply (SFltb_false_val 53 1024 ltac:(lia)); auto; lra).
    rewrite E1, E2. now apply float_double_float.
  - intros Hlt E. rewrite E.
    rewrite (of_float_ltb _ _ Vlo Ilo Vhi Ihi Hlt).
    now apply float_double_float.
Qed.

(** X7. A number that is a [float] above the minimum of the bar and not
    above its maximum is stored as it is. *)
Theorem data_add_stores_floats :
  forall (bar : bar_t) (f : float),
    a_number (min_value bar) = true -> a_number (max_value bar) = true ->
    F32.valid f = true ->
    F32.ltb (min_value bar) f = true ->
    F32.leb f (max_value bar) = true ->
    value (bar_add_value (F64.of_float f) bar) = f.
Proof.
  intros bar f Nlo Nhi Vf Hlt Hle.
  destruct (a_number_inv _ Nlo) as [Vlo Ilo].
  destruct (a_number_inv _ Nhi) as [Vhi Ihi].
  destruct (SFltb_number _ _ Hlt) as [_ If].
  destruct (promoted_number _ Nlo) as [Vdlo Ndlo].
  destruct (promoted_number _ Nhi) as [Vdhi Ndhi].
  destruct (of_float_number f Vf If) as (Vdf & Ndf & _).
  cbn [bar_add_value value set_value]. unfold MAX, MIN, F64.ltb.
  pose proof (of_float_leb _ _ Vf If Vhi Ihi Hle) as Hd.
  destruct (SFltb_asym 53 1024 (F64.of_float f)
              (F64.of_float (max_value bar)) ltac:(lia) Vdf Vdhi Ndf Ndhi)
    as [_ H2].
  rewrite (H2 Hd).
  rewrite (of_float_ltb _ _ Vlo Ilo Vf If Hlt).
  now apply float_double_float.
Qed.

(** X8. Whatever the numbers of a bar were, after [bar_properties_set]
    its minimum is not above its maximum and its value lies between
    them, when no number of the bar or of the table is a NaN. (The
    minimum may equal the maximum.) *)
Theorem properties_set_orders_range :
  forall (p : bar_properties) (bar : bar_t),
    sane bar = true -> table_numbers p = true ->
    let bar' := bar_apply_properties p bar in
    sane bar' = true /\
    F32.leb (min_value bar') (max_value bar') = true /\
    F32.leb (min_value bar') (value bar') = true /\
    F32.leb (value bar') (max_value bar') = true.
Proof.
  intros p bar Hs Ht bar'.
  pose proof (apply_properties_in_range p bar Hs Ht) as H.
  fold bar' in H. apply andb_true_iff in H. destruct H as [H1 H2].
  split; [exact H1|]. unfold in_range in H2.
  apply andb_true_iff in H2. destruct H2 as [H2 L3].
  apply andb_true_iff in H2. destruct H2 as [L1 L2]. auto.
Qed.

(** The calls whose numbers are numbers: no NaN in a table of
    [bar_properties_set]. *)
Definition call_numbers (c : call) : bool :=
  match c with
  | PropertiesSet _ => true
  | BarPropertiesSet _ p => table_numbers p
  | BarDataAdd _ x => F64.valid x
  end.

Definition well_ranged (b : bar_t) : bool := sane b && in_range b.

Lemma upsert_with_forall (f : bar_t -> bar_t) (d : progressbar_data_t)
    (t : string) (P : bar_t -> bool) :
  (forall b, title (f b) = title b) ->
  (forall b, P b = true -> P (f b) = true) ->
  P (new_bar t) = true ->
  forallb P (bars d) = true ->
  forallb P (bars (upsert_with f d t)) = true.
Proof.
  intros Ht Hf Hn Hd. destruct (upsert_with_bars f d t Ht) as [-> _].
  destruct (bar_find t (bars d)) as [i|].
  - revert i. induction (bars d) as [|b l IH]; intros i.
    + now destruct i.
    + cbn [forallb] in Hd. apply andb_true_iff in Hd. destruct Hd as [Hb Hl].
      destruct i as [|i]; cbn [bar_modify forallb].
      * now rewrite (Hf b Hb), Hl.
      * now rewrite Hb, (IH Hl i).
  - rewrite forallb_app, Hd. cbn [forallb]. now rewrite (Hf _ Hn).
Qed.

Lemma new_bar_well_ranged (t : string) : well_ranged (new_bar t) = true.
Proof. vm_compute. reflexivity. Qed.

Lemma run_call_ranges (d d' : progressbar_data_t) (c : call) :
  call_numbers c = true -> run_call d c = Ok d' ->
  forallb well_ranged (bars d) = true ->
  forallb well_ranged (bars d') = true.
Proof.
  destruct c as [p|t p|t x]; cbn [run_call call_numbers]; intros Hc.
  - unfold luaA_progressbar_properties_set. intros H.
    repeat (apply rbind_ok in H; destruct H as (? & _ & H)).
    injection H as <-. auto.
  - intros [= <-].
    apply (upsert_with_forall (bar_apply_properties p));
      auto using bar_apply_properties_title, new_bar_well_ranged.
    intros b Hb. unfold well_ranged in *.
    apply andb_true_iff in Hb. destruct Hb as [Hs _].
    now apply apply_properties_in_range.
  - intros [= <-].
    apply (upsert_with_forall (bar_add_value x));
      auto using bar_add_value_title, new_bar_well_ranged.
    intros b Hb. now apply add_value_in_range.
Qed.

(** X9. Every bar of a widget has [min_value <= value <= max_value]
    and [min_value <= max_value], whatever calls were made on the widget
    since it was created, when no number given to [bar_properties_set]
    was a NaN. *)
Theorem ranges_are_ordered :
  forall (cs : list call) (d : progressbar_data_t),
    forallb call_numbers cs = true ->
    run_calls progressbar_new cs = Ok d ->
    forallb (fun b => F32.leb (min_value b) (max_value b)
                      && F32.leb (min_value b) (value b)
                      && F32.leb (value b) (max_value b)) (bars d) = true.
Proof.
  intros cs.
  assert (H : forall d0 d, forallb call_numbers cs = true ->
                forallb well_ranged (bars d0) = true ->
                run_calls d0 cs = Ok d ->
                forallb well_ranged (bars d) = true).
  { induction cs as [|c cs IH]; intros d0 d Hc H0 H; cbn [run_calls] in H.
    - now injection H as <-.
    - cbn [forallb] in Hc. apply andb_true_iff in Hc.
      destruct Hc as [Hc Hcs].
      apply rbind_ok in H. destruct H as (d1 & H1 & H).
      apply (IH d1 d Hcs); [|exact H]. eapply run_call_ranges; eauto. }
  intros d Hc Hrun. specialize (H progressbar_new d Hc eq_refl Hrun).
  rewrite forallb_forall in *. intros b Hb. specialize (H b Hb).
  unfold well_ranged in H. apply andb_true_iff in H. apply H.
Qed.

End RangeTheorems.

(* ------------------------------------------------------------------ *)
(** ** Integers through [lua_Number] *)

Section ExactIntegers.

Variables prec emax : Z.
Hypothesis prec_pos : 0 < prec.
Hypothesis prec_lt_emax : prec < emax.

(** An integer of at most [prec] bits is a number of the format. *)
Lemma rounds_to_integer (k : Z) (v : R) :
  0 < k < 2 ^ prec -> rounds_to prec emax (IZR k) v -> v = IZR k.
Proof.
  intros [Hk0 Hk] (d & m & l & [L U] & Hl & ->).
  assert (Hd : d <= prec).
  { assert (d - 1 < prec); [|lia]. apply bpow_lt_inv.
    apply IZR_lt in Hk. rewrite <- bpow_IZR in Hk by lia. lra. }
  assert (Hf : SpecFloat.fexp prec emax d <= 0)
    by (unfold SpecFloat.fexp, SpecFloat.emin; lia).
  set (c := SpecFloat.fexp prec emax d) in *.
  assert (E : (IZR k * bpow (- c))%R = IZR (k * 2 ^ (- c)))
    by (rewrite mult_IZR, <- bpow_IZR by lia; reflexivity).
  rewrite E in Hl. destruct (located_IZR _ _ _ Hl) as [_ ->].
  replace c with (0 - - c) at 2 by lia.
  rewrite F2R_shift by lia. unfold F2R. rewrite bpow_0. ring.
Qed.

Lemma binary_normalize_integer (z : Z) (sz : bool) :
  Z.abs z < 2 ^ prec -> prec <= emax ->
  is_finite (binary_normalize prec emax z 0 sz) = true /\
  SF2R (binary_normalize prec emax z 0 sz) = IZR z.
Proof.
  intros Hz _. set (r := binary_normalize prec emax z 0 sz).
  destruct (binary_normalize_val prec emax prec_pos prec_lt_emax z 0 sz)
    as (N & V & v & P & Z0 & R1 & Ev). fold r in N, V, Ev.
  pose proof (bpow_gt_0 emax) as B.
  assert (Hb : (IZR (Z.abs z) < bpow emax)%R).
  { apply IZR_lt in Hz. rewrite <- bpow_IZR in Hz by lia.
    pose proof (bpow_le prec emax ltac:(lia)). lra. }
  assert (Hv : v = IZR (Z.abs z)).
  { destruct (Z.eq_dec z 0) as [->|Hn]; [now rewrite Z0|].
    specialize (R1 Hn). unfold F2R in R1. rewrite bpow_0, Rmult_1_r in R1.
    apply rounds_to_integer; [lia | exact R1]. }
  rewrite Hv, Rmin_left in Ev by lra.
  assert (Ez : val emax r = IZR z).
  { rewrite Ev. destruct (Z.ltb_spec z 0).
    - rewrite Z.abs_neq by lia. rewrite opp_IZR. ring.
    - now rewrite Z.abs_eq by lia. }
  assert (Hz' : (- bpow emax < IZR z < bpow emax)%R).
  { destruct (Z.abs_spec z) as [[_ E]|[_ E]]; rewrite E in Hb.
    - assert (0 <= IZR z)%R by (apply IZR_le; lia). lra.
    - rewrite opp_IZR in Hb.
      assert (IZR z <= 0)%R by (apply IZR_le; lia). lra. }
  destruct r as [s|[|]| |s m e]; try discriminate; cbn [val] in Ez;
    try lra; split; auto.
Qed.

End ExactIntegers.

(** The integer part of a number whose value is an integer. *)
Lemma truncate_integer (x : spec_float) (z : Z) :
  is_finite x = true -> SF2R x = IZR z -> truncate x = Some z.
Proof.
  destruct x as [s|s| |s m e]; try discriminate; intros _ H.
  - cbn [SF2R] in H. apply eq_IZR in H. now subst z.
  - assert (Hp : exists a, truncate (S754_finite false m e) = Some a /\
                           truncate (S754_finite s m e)
                           = Some (cond_Zopp s a))
      by (eexists; split; reflexivity).
    destruct Hp as (a & Ha & ->).
    pose proof (truncate_floor (S754_finite false m e) a eq_refl Ha)
      as [L U].
    cbn [SF2R cond_Zopp] in L, U, H.
    f_equal. destruct s; cbn [cond_Zopp] in *.
    + assert (E : F2R (- Zpos m) e = (- F2R (Zpos m) e)%R)
        by (unfold F2R; rewrite opp_IZR; ring).
      rewrite E in H.
      assert (a <= - z) by (apply le_IZR; rewrite opp_IZR; lra).
      assert (- z < a + 1)
        by (apply lt_IZR; rewrite plus_IZR, opp_IZR; lra).
      lia.
    + assert (a <= z) by (apply le_IZR; lra).
      assert (z < a + 1) by (apply lt_IZR; rewrite plus_IZR; lra).
      lia.
Qed.

(** An [int] converted to double and back is unchanged. *)
Lemma int_double_int (z : Z) :
  CInt.in_int z -> int_of_float (F64.of_int z) = Ok z.
Proof.
  intros Hz.
  destruct (binary_normalize_integer 53 1024 ltac:(lia) ltac:(lia) z false)
    as [F E].
  { unfold CInt.in_int, CInt.INT_MIN, CInt.INT_MAX in Hz. lia. }
  { lia. }
  unfold int_of_float.
  change (F64.of_int z) with (binary_normalize 53 1024 z 0 false).
  rewrite (truncate_integer _ z F E).
  unfold CInt.in_intb. unfold CInt.in_int in Hz.
  destruct Hz as [H1 H2].
  apply Z.leb_le in H1, H2. now rewrite H1, H2.
Qed.

Lemma int_of_float_in_int (x : spec_float) (z : Z) :
  int_of_float x = Ok z -> CInt.in_int z.
Proof.
  unfold int_of_float. destruct (truncate x) as [a|]; [|discriminate].
  destruct (CInt.in_intb a) eqn:E; [|discriminate].
  intros [= <-]. unfold CInt.in_intb in E. apply andb_true_iff in E.
  destruct E as [H1 H2]. apply Z.leb_le in H1, H2. split; assumption.
Qed.

(** ** The general properties *)

(** The [int] fields of the widget hold [int]s. *)
Definition ints_in_range `{Host} (d : progressbar_data_t) : Prop :=
  CInt.in_int (width d) /\ CInt.in_int (gap d) /\
  CInt.in_int (border_width d) /\ CInt.in_int (border_padding d) /\
  CInt.in_int (ticks_gap d) /\ CInt.in_int (ticks_count d).

(** An empty table. *)
Definition no_general_properties : properties :=
  mk_properties None None None None None None None None.

(** The keys of [q] laid over those of [p]. *)
Definition over {A} (p q : option A) : option A :=
  match q with
  | Some x => Some x
  | None => p
  end.

Definition properties_over (p q : properties) : properties :=
  {| q_gap := over (q_gap p) (q_gap q);
     q_ticks_count := over (q_ticks_count p) (q_ticks_count q);
     q_ticks_gap := over (q_ticks_gap p) (q_ticks_gap q);
     q_border_padding := over (q_border_padding p) (q_border_padding q);
     q_border_width := over (q_border_width p) (q_border_width q);
     q_width := over (q_width p) (q_width q);
     q_height := over (q_height p) (q_height q);
     q_vertical := over (q_vertical p) (q_vertical q) |}.

Section GeneralProperties.

Context {host : Host}.

Lemma getopt_int_absent (z : Z) :
  CInt.in_int z -> getopt_int None z = Ok z.
Proof. intros H. now apply int_double_int. Qed.

Lemma getopt_int_over (p q : option double) (z z1 : Z) :
  CInt.in_int z -> getopt_int p z = Ok z1 ->
  getopt_int q z1 = getopt_int (over p q) z.
Proof.
  intros Hz H1. destruct q as [y|]; cbn [over]; [reflexivity|].
  rewrite H1. apply getopt_int_absent.
  now apply (int_of_float_in_int _ _ H1).
Qed.

Lemma height_over (p q : option double) (h : float) :
  F32.valid h = true ->
  F32.of_double
    (luaA_getopt q
       (F64.of_float (F32.of_double (luaA_getopt p (F64.of_float h)))))
  = F32.of_double (luaA_getopt (over p q) (F64.of_float h)).
Proof.
  intros Vh. destruct q as [y|]; cbn [over luaA_getopt]; [reflexivity|].
  apply float_double_float.
  destruct p as [x|]; cbn [luaA_getopt].
  - destruct x as [s|s| |s m e]; try reflexivity.
    apply binary_normalize_valid. reflexivity.
  - now rewrite float_double_float.
Qed.

(** X10. A call of [properties_set] with an empty table changes nothing:
    every field read back through a number of Lua is what it was. *)
Theorem properties_set_nothing :
  forall d : progressbar_data_t,
    ints_in_range d -> F32.valid (height d) = true ->
    luaA_progressbar_properties_set d no_general_properties = Ok d.
Proof.
  intros d (Hw & Hg & Hbw & Hbp & Htg & Htc) Vh.
  unfold luaA_progressbar_properties_set. cbn [no_general_properties
    q_gap q_ticks_count q_ticks_gap q_border_padding q_border_width q_width
    q_height q_vertical].
  rewrite !getopt_int_absent by assumption. cbn [rbind luaA_getopt].
  rewrite float_double_float by assumption. now destruct d.
Qed.

(** X11. Two calls of [properties_set] in a row are one call with the
    second table laid over the first: a key of the second table wins, a
    key it lacks keeps what the first call stored, without a second
    rounding. *)
Theorem properties_set_twice :
  forall (d d1 : progressbar_data_t) (p q : properties),
    ints_in_range d -> F32.valid (height d) = true ->
    luaA_progressbar_properties_set d p = Ok d1 ->
    luaA_progressbar_properties_set d1 q
    = luaA_progressbar_properties_set d (properties_over p q).
Proof.
  intros d d1 p q (Hw & Hg & Hbw & Hbp & Htg & Htc) Vh H.
  unfold luaA_progressbar_properties_set in H.
  apply rbind_ok in H. destruct H as (g1 & E1 & H).
  apply rbind_ok in H. destruct H as (tc1 & E2 & H).
  apply rbind_ok in H. destruct H as (tg1 & E3 & H).
  apply rbind_ok in H. destruct H as (bp1 & E4 & H).
  apply rbind_ok in H. destruct H as (bw1 & E5 & H).
  apply rbind_ok in H. destruct H as (w1 & E6 & H).
  injection H as <-.
  unfold luaA_progressbar_properties_set.
  cbn [width gap border_width border_padding ticks_gap ticks_count vertical
       height bars properties_over q_gap q_ticks_count q_ticks_gap
       q_border_padding q_border_width q_width q_height q_vertical].
  rewrite (getopt_int_over _ (q_gap q) _ _ Hg E1).
  rewrite (getopt_int_over _ (q_ticks_count q) _ _ Htc E2).
  rewrite (getopt_int_over _ (q_ticks_gap q) _ _ Htg E3).
  rewrite (getopt_int_over _ (q_border_padding q) _ _ Hbp E4).
  rewrite (getopt_int_over _ (q_border_width q) _ _ Hbw E5).
  rewrite (getopt_int_over _ (q_width q) _ _ Hw E6).
  rewrite (height_over _ _ _ Vh).
  destruct (q_vertical q); reflexivity.
Qed.

End GeneralProperties.

(* ------------------------------------------------------------------ *)
(** * More of the renderer *)

Section DrawMore.

Context {host : Host}.

(** The second branch with ticks: the length of a bar is "rounded to
    match ticks", and the width of the widget is the width asked for
    less the remainder of the division by [ticks_count]. *)
Lemma layout_widths_ticks (d : progressbar_data_t) (n pb_width unit w : Z) :
  vertical d = false -> quantized d = true ->
  fits16 (width d) -> fits16 (ticks_gap d) ->
  fits16 (border_width d) -> fits16 (border_padding d) ->
  layout_widths d n = Ok (pb_width, unit, w) ->
  w = width d
      - Z.rem (width d - 2 * (border_width d + border_padding d)
               + ticks_gap d) (ticks_count d).
Proof.
  intros Hv Hq Hw Htg Hbw Hbp. unfold fits16 in *.
  unfold layout_widths. rewrite Hv, Hq.
  intros H. apply rbind_ok in H. destruct H as (u & Hu & H).
  injection H as <- <- <-.
  unfold int_div in Hu.
  destruct (Z.eqb_spec (ticks_count d) 0) as [|Hz]; [discriminate|].
  destruct (_ && _); [discriminate|]. injection Hu as <-.
  set (a := (width d - 2 * (border_width d + border_padding d)
             + ticks_gap d)%cint).
  assert (Ha : a = width d - 2 * (border_width d + border_padding d)
                   + ticks_gap d).
  { subst a. unwrap_with lia. reflexivity. }
  rewrite <- Ha. clearbody a.
  pose proof (Z.quot_rem' a (ticks_count d)) as Hqr.
  pose proof (quot_mul_abs a (ticks_count d) Hz) as Hab.
  assert (Hm : Z.quot a (ticks_count d) * ticks_count d
               = a - Z.rem a (ticks_count d)) by lia.
  assert (Hm' : Z.abs (Z.quot a (ticks_count d) * ticks_count d)
                <= Z.abs a) by (rewrite Z.mul_comm; exact Hab).
  unwrap_with lia. lia.
Qed.

(** X12. The width a draw call returns is the width asked for, up to
    the remainder of a division. In vertical mode it is
    [width - rem room n], [room] being what the borders and the gaps
    leave of the width to the [n] bars: with room it falls short of the
    width by less than one pixel a bar, and without it exceeds the width
    by less than one pixel a bar. In horizontal mode it is the width
    without ticks; with ticks it is the width less the remainder of the
    division by [ticks_count] (the bar is "rounded to match ticks"),
    which falls short by less than [ticks_count] pixels when
    [ticks_count] is positive and the bar has room, and is not below the
    width when the bar has none. The settings are in the 16-bit range of
    the X protocol and there are at most 1024 bars. *)
Theorem drawn_width_within_width :
  forall fuel ctx align d offset st r st',
    bars d <> [] ->
    Z.of_nat (List.length (bars d)) <= 1024 ->
    fits16 (width d) -> fits16 (gap d) -> fits16 (ticks_gap d) ->
    fits16 (border_width d) -> fits16 (border_padding d) ->
    progressbar_draw fuel ctx align d offset st = Ok (r, st') ->
    let n := Z.of_nat (List.length (bars d)) in
    let b := border_width d + border_padding d in
    let room := width d - 2 * n * b - gap d * (n - 1) in
    let room_of_ticks := width d - 2 * b + ticks_gap d in
    (vertical d = true ->
     r = width d - Z.rem room n /\
     (0 <= room -> width d - n < r <= width d) /\
     (room <= 0 -> width d <= r < width d + n)) /\
    (vertical d = false -> quantized d = false -> r = width d) /\
    (vertical d = false -> quantized d = true ->
     r = width d - Z.rem room_of_ticks (ticks_count d) /\
     (0 < ticks_count d -> 0 <= room_of_ticks ->
      width d - ticks_count d < r <= width d) /\
     (room_of_ticks <= 0 -> width d <= r)).
Proof.
  intros fuel ctx align d offset st r st' Hne Hn Hw Hg Htg Hbw Hbp Hrun n b
         room room_of_ticks.
  destruct (progressbar_draw_inv _ _ _ _ _ _ _ _ Hne Hrun)
    as (g & cmds & Hgeo & -> & _).
  destruct (geometry_widths _ _ _ _ _ Hgeo) as (u & Hu).
  assert (Hlen : 1 <= n <= 1024).
  { subst n. destruct (bars d); [contradiction|].
    cbn [List.length] in *. lia. }
  rewrite count_bars_length in Hu by (unfold CInt.INT_MAX; fold n; lia).
  fold n in Hu. split; [|split].
  - intros Hv.
    pose proof (layout_widths_vertical d n Hv Hw Hg Hbw Hbp Hlen) as Hl.
    cbv zeta in Hl. rewrite Hl in Hu. fold b in Hu. fold room in Hu.
    assert (Ew : g_area_width g
                 = n * (Z.quot room n + 2 * b) + gap d * (n - 1))
      by congruence.
    pose proof (Z.quot_rem' room n) as Hqr.
    assert (E : g_area_width g = width d - Z.rem room n).
    { rewrite Ew.
      replace (n * (Z.quot room n + 2 * b) + gap d * (n - 1))
        with (n * Z.quot room n + 2 * n * b + gap d * (n - 1)) by ring.
      subst room. lia. }
    split; [exact E|]. rewrite E. split.
    + intros Hroom.
      pose proof (Z.rem_bound_pos room n Hroom ltac:(lia)). lia.
    + intros Hroom.
      pose proof (Z.rem_bound_pos (- room) n ltac:(lia) ltac:(lia)) as Hb.
      rewrite Z.rem_opp_l in Hb by lia. lia.
  - intros Hv Hq. unfold layout_widths in Hu. rewrite Hv, Hq in Hu.
    assert (Ew : g_area_width g
                 = (width d - 2 * (border_width d + border_padding d)
                    + 2 * (border_width d + border_padding d))%cint)
      by congruence.
    rewrite Ew. unfold fits16 in *. unwrap_with lia. lia.
  - intros Hv Hq.
    pose proof (layout_widths_ticks d n (g_pb_width g) u (g_area_width g)
                  Hv Hq Hw Htg Hbw Hbp Hu) as E.
    fold b in E. fold room_of_ticks in E.
    split; [exact E|]. rewrite E. split.
    + intros Htc Hroom.
      pose proof (Z.rem_bound_pos room_of_ticks (ticks_count d) Hroom Htc).
      lia.
    + intros Hroom.
      assert (Z.rem room_of_ticks (ticks_count d) <= 0); [|lia].
      destruct (Z.eq_dec (ticks_count d) 0) as [E0|N0].
      * rewrite E0. destruct room_of_ticks; cbn; lia.
      * apply Z.rem_nonpos; [exact N0 | exact Hroom].
Qed.

End DrawMore.

(* ------------------------------------------------------------------ *)
(** ** A bar at its minimum *)

Section Differences.

Variables prec emax : Z.
Hypothesis prec_pos : 0 < prec.
Hypothesis prec_lt_emax : prec < emax.

(** A finite number taken from itself leaves a zero. *)
Lemma SFsub_self (x : spec_float) :
  is_finite x = true -> exists s, SFsub prec emax x x = S754_zero s.
Proof.
  destruct x as [s|s| |s m e]; try discriminate; intros _; cbn [SFsub].
  - destruct s; eauto.
  - rewrite Z.sub_diag. cbn [binary_normalize]. eauto.
Qed.

Lemma SFmul_by_zero (c : spec_float) (s : bool) :
  is_finite c = true ->
  exists s', SFmul prec emax c (S754_zero s) = S754_zero s'.
Proof.
  destruct c as [sc|sc| |sc m e]; try discriminate; intros _;
    cbn [SFmul]; eauto.
Qed.

Lemma SFdiv_of_zero (s : bool) (y : spec_float) :
  is_number y = true -> (0 < val emax y)%R ->
  exists s', SFdiv prec emax (S754_zero s) y = S754_zero s'.
Proof.
  pose proof (bpow_gt_0 emax).
  destruct y as [sy|[|]| |sy m e]; try discriminate; intros _;
    cbn [val SF2R SFdiv]; intros Hy; try lra; eauto.
Qed.

(** The smallest positive number of the format. *)
Lemma smallest_bounded :
  bounded prec emax 1 (SpecFloat.emin prec emax) = true.
Proof.
  unfold bounded, canonical_mantissa. cbn [digits2_pos].
  apply andb_true_iff. split.
  - apply Z.eqb_eq. unfold SpecFloat.fexp, SpecFloat.emin. lia.
  - apply Z.leb_le. unfold SpecFloat.emin. lia.
Qed.

(** The difference of two finite numbers of the format, the larger
    first, is positive: it is not rounded to zero. *)
Lemma SFsub_apart (x y : spec_float) :
  valid_binary prec emax x = true -> valid_binary prec emax y = true ->
  is_finite x = true -> is_finite y = true ->
  SFltb y x = true ->
  is_number (SFsub prec emax x y) = true /\
  (0 < val emax (SFsub prec emax x y))%R.
Proof.
  intros Vx Vy Fx Fy H.
  destruct x as [sx|sx| |sx mx ex]; try discriminate;
    destruct y as [sy|sy| |sy my ey]; try discriminate.
  - unfold SFltb in H. cbn [SFcompare] in H.
    destruct sy; [|discriminate]. cbn [SFsub negb].
    split; [reflexivity|]. cbn [val SF2R cond_Zopp]. apply F2R_pos.
  - unfold SFltb in H. cbn [SFcompare] in H.
    destruct sx; [discriminate|]. cbn [SFsub].
    split; [reflexivity|]. cbn [val SF2R cond_Zopp]. apply F2R_pos.
  - cbn [SFsub].
    set (ez := Z.min ex ey).
    set (D := cond_Zopp sx (Zpos (fst (shl_align mx ex ez)))
              - cond_Zopp sy (Zpos (fst (shl_align my ey ez)))).
    destruct (binary_normalize_val prec emax prec_pos prec_lt_emax D ez false)
      as (N & _ & _).
    split; [exact N|].
    apply (SFltb_val prec emax prec_pos) in H; auto.
    cbn [val] in H.
    pose proof (SF2R_scaled ez sx mx ex ltac:(subst ez; lia)) as Ex.
    pose proof (SF2R_scaled ez sy my ey ltac:(subst ez; lia)) as Ey.
    rewrite Ex, Ey in H. cbn [scaled] in H.
    assert (HD : 1 <= D).
    { subst D. rewrite !shl_align_fst by (subst ez; lia).
      assert (Hlt : cond_Zopp sy (Zpos my * 2 ^ (ey - ez))
                    < cond_Zopp sx (Zpos mx * 2 ^ (ex - ez))).
      { apply lt_IZR. unfold F2R in H.
        apply (Rmult_lt_reg_r (bpow ez)); [apply bpow_gt_0 | exact H]. }
      lia. }
    cbn [valid_binary] in Vx, Vy.
    destruct (bounded_inv _ _ _ _ Vx) as [Cx _].
    destruct (bounded_inv _ _ _ _ Vy) as [Cy _].
    destruct (canonical_digits _ _ _ _ Cx) as (_ & Emx & _).
    destruct (canonical_digits _ _ _ _ Cy) as (_ & Emy & _).
    pose proof (binary_normalize_ge prec emax prec_pos prec_lt_emax D ez false
                  (S754_finite false 1 (SpecFloat.emin prec emax))
                  smallest_bounded eq_refl) as Hge.
    cbn [val SF2R cond_Zopp] in Hge.
    pose proof (F2R_pos 1 (SpecFloat.emin prec emax)) as P.
    apply Rlt_le_trans with (1 := P). apply Hge.
    unfold F2R. rewrite Rmult_1_l.
    pose proof (bpow_le (SpecFloat.emin prec emax) ez ltac:(subst ez; lia))
      as Hb.
    pose proof (bpow_gt_0 ez) as Pz.
    apply IZR_le in HD.
    apply Rle_trans with (1 := Hb).
    rewrite <- (Rmult_1_l (bpow ez)) at 1.
    apply Rmult_le_compat_r; lra.
Qed.

End Differences.

(** An [int] converted to [float] is finite. *)
Lemma of_int_finite (z : Z) :
  CInt.in_int z -> is_finite (F32.of_int z) = true.
Proof.
  intros Hz. unfold CInt.in_int, CInt.INT_MIN, CInt.INT_MAX in Hz.
  change (F32.of_int z) with (binary_normalize 24 128 z 0 false).
  destruct (binary_normalize_val 24 128 ltac:(lia) ltac:(lia) z 0 false)
    as (N & V & _).
  assert (Ez : F2R z 0 = IZR z) by (unfold F2R; rewrite bpow_0; ring).
  assert (E31 : F2R 8388608 8 = IZR (2 ^ 31)).
  { unfold F2R. rewrite (bpow_IZR 8) by lia. rewrite <- mult_IZR.
    reflexivity. }
  pose proof (binary_normalize_le 24 128 ltac:(lia) ltac:(lia) z 0 false
                (S754_finite false 8388608 8) eq_refl eq_refl) as Hle.
  pose proof (binary_normalize_ge 24 128 ltac:(lia) ltac:(lia) z 0 false
                (S754_finite true 8388608 8) eq_refl eq_refl) as Hge.
  cbn [val SF2R cond_Zopp] in Hle, Hge.
  assert (E31' : F2R (Z.opp (Zpos 8388608)) 8 = (- IZR (2 ^ 31))%R).
  { unfold F2R in *. rewrite opp_IZR. lra. }
  rewrite Ez, E31 in Hle. rewrite Ez, E31' in Hge.
  specialize (Hle ltac:(apply IZR_le; lia)).
  specialize (Hge ltac:(rewrite <- opp_IZR; apply IZR_le; lia)).
  assert (B : (IZR (2 ^ 31) < bpow 128)%R).
  { rewrite <- (bpow_IZR 31) by lia. apply bpow_lt. lia. }
  destruct (is_finite_cases _ N) as [E | [E | F]]; [| |exact F];
    rewrite E in Hle, Hge; cbn [val] in Hle, Hge; lra.
Qed.

(** The rounded ratio of a bar whose value is its minimum. *)
Lemma ratio_at_minimum (scale : Z) (lo hi : float) :
  CInt.in_int scale ->
  F32.valid lo = true -> F32.valid hi = true ->
  is_finite lo = true -> is_finite hi = true ->
  F32.ltb lo hi = true ->
  ratio_of scale lo hi lo = Ok 0.
Proof.
  intros Hs Vlo Vhi Flo Fhi Hlt. unfold ratio_of.
  destruct (SFsub_self 24 128 lo Flo) as [s1 E1].
  change (F32.sub lo lo) with (SFsub 24 128 lo lo). rewrite E1.
  destruct (SFmul_by_zero 24 128 (F32.of_int scale) s1 (of_int_finite _ Hs))
    as [s2 E2].
  change (F32.mul (F32.of_int scale) (S754_zero s1))
    with (SFmul 24 128 (F32.of_int scale) (S754_zero s1)). rewrite E2.
  destruct (SFsub_apart 24 128 ltac:(lia) ltac:(lia) hi lo Vhi Vlo Fhi Flo Hlt)
    as [N P].
  destruct (SFdiv_of_zero 24 128 s2 _ N P) as [s3 E3].
  change (F32.div (S754_zero s2) (F32.sub hi lo))
    with (SFdiv 24 128 (S754_zero s2) (SFsub 24 128 hi lo)). rewrite E3.
  destruct s3; vm_compute; reflexivity.
Qed.

Section AtMinimum.

Context {host : Host}.

(** X13. A bar whose value is its minimum has no progress, with ticks
    or without: none of its length is filled. The range of the bar is
    finite and not empty ([min_value < max_value]). *)
Theorem bar_at_minimum_is_empty :
  forall (d : progressbar_data_t) (pb_length unit : Z) (bar : bar_t),
    F32.valid (min_value bar) = true -> F32.valid (max_value bar) = true ->
    is_finite (min_value bar) = true -> is_finite (max_value bar) = true ->
    F32.ltb (min_value bar) (max_value bar) = true ->
    value bar = min_value bar ->
    CInt.in_int pb_length -> CInt.in_int (ticks_count d) ->
    bar_progress d pb_length unit bar = Ok 0.
Proof.
  intros d L unit bar Vlo Vhi Flo Fhi Hlt Ev HL Htc.
  unfold bar_progress.
  change (values_ticks d bar)
    with (ratio_of (ticks_count d) (min_value bar) (max_value bar)
            (value bar)).
  change (int_of_float
            (F64.add
               (F64.of_float
                  (F32.div
                     (F32.mul (F32.of_int L)
                        (F32.sub (value bar) (min_value bar)))
                     (F32.sub (max_value bar) (min_value bar))))
               lit_0_5))
    with (ratio_of L (min_value bar) (max_value bar) (value bar)).
  rewrite Ev, !ratio_at_minimum by assumption.
  destruct (quantized d); reflexivity.
Qed.

End AtMinimum.

(* ------------------------------------------------------------------ *)
(** ** What a draw call never does, and how it goes through the bars *)

(** A result that is not a trap of an integer division. *)
Definition undivided {A} (r : result A) : Prop := r <> Fault DivisionFault.

Lemma rbind_undivided {A B} (r : result A) (k : A -> result B) :
  undivided r -> (forall a, r = Ok a -> undivided (k a)) ->
  undivided (rbind r k).
Proof.
  unfold undivided. destruct r as [a|f]; cbn [rbind]; intros Hr Hk.
  - now apply Hk.
  - intros [= ->]. now apply Hr.
Qed.

Lemma int_of_float_undivided (x : spec_float) : undivided (int_of_float x).
Proof.
  unfold undivided, int_of_float.
  destruct (truncate x) as [z|]; [destruct (CInt.in_intb z)|]; discriminate.
Qed.

Lemma int_div_undivided (a b : Z) :
  b <> 0 -> b <> -1 -> undivided (int_div a b).
Proof.
  intros H0 H1. rewrite int_div_ok by assumption. discriminate.
Qed.

Section DrawNever.

Context {host : Host}.

(** A computation that, from any state, ends the same way: with the
    result [a], having added the commands [l]. *)
Definition draws {A} (c : Draw A) (a : A) (l : list draw_cmd) : Prop :=
  forall st, c st = Ok (a, appended st l).

(** A computation whose result and commands do not depend on the state,
    and that never traps on a division. *)
Definition steady {A} (c : Draw A) : Prop :=
  (forall st, undivided (c st)) /\
  (forall st a st', c st = Ok (a, st') ->
     exists l, st' = appended st l /\ draws c a l).

Lemma steady_ret {A} (a : A) : steady (ret a).
Proof.
  split; [discriminate|]. intros st a' st' [= <- <-]. exists [].
  split; [now rewrite appended_nil|].
  intros s. unfold ret. now rewrite appended_nil.
Qed.

Lemma steady_lift {A} (r : result A) : undivided r -> steady (lift r).
Proof.
  intros Hr. split.
  - intros st. unfold lift, undivided in *. destruct r; congruence.
  - intros st a st'. unfold lift. destruct r as [a'|]; [|discriminate].
    intros [= <- <-]. exists []. split; [now rewrite appended_nil|].
    intros s. now rewrite appended_nil.
Qed.

Lemma steady_emits (c : Draw unit) (l : list draw_cmd) :
  emits c l -> steady c.
Proof.
  intros H. split.
  - intros st. rewrite H. discriminate.
  - intros st [] st'. rewrite H. intros [= <-]. exists l. split; auto.
Qed.

Lemma steady_bind {A B} (c : Draw A) (k : A -> Draw B) :
  steady c -> (forall a, steady (k a)) -> steady (bind c k).
Proof.
  intros [Hc1 Hc2] Hk. split.
  - intros st. unfold bind. destruct (c st) as [[a st1]|f] eqn:E.
    + apply (Hk a).
    + pose proof (Hc1 st) as H. rewrite E in H.
      intros [= ->]. now apply H.
  - intros st b st'. unfold bind.
    destruct (c st) as [[a st1]|] eqn:E; [|discriminate].
    intros H. destruct (Hc2 _ _ _ E) as (l1 & -> & D1).
    destruct (proj2 (Hk a) _ _ _ H) as (l2 & -> & D2).
    exists (l1 ++ l2). split; [apply appended_app|].
    intros s. rewrite (D1 s), (D2 (appended s l1)).
    now rewrite appended_app.
Qed.

Lemma steady_when (b : bool) (c : Draw unit) : steady c -> steady (when b c).
Proof. destruct b; [auto | intros _; apply steady_ret]. Qed.

Lemma tick_gaps_steady (fuel : nat) (rect_at : Z -> area_t)
    (limit unit : Z) (color : xcolor_t) (pos : Z) :
  steady (tick_gaps fuel rect_at limit unit color pos).
Proof.
  revert pos. induction fuel as [|fuel IH]; intros pos; cbn [tick_gaps].
  - apply steady_lift. discriminate.
  - destruct (limit >=? pos); [|apply steady_ret].
    apply steady_bind; [|intros _; apply IH].
    apply (steady_emits _ _ (emits_emit _)).
Qed.

Lemma bar_progress_undivided (d : progressbar_data_t) (len unit : Z)
    (bar : bar_t) :
  undivided (bar_progress d len unit bar).
Proof.
  unfold bar_progress. destruct (quantized d).
  - unfold values_ticks.
    match goal with
    | |- context [int_of_float ?x] =>
        pose proof (int_of_float_undivided x) as H;
        destruct (int_of_float x)
    end; [discriminate | intros [= ->]; now apply H].
  - apply int_of_float_undivided.
Qed.

Lemma draw_bar_steady (fuel : nat) (d : progressbar_data_t) (g : geometry)
    (bar : bar_t) (off : Z) :
  steady (draw_bar fuel d g bar off).
Proof.
  unfold draw_bar.
  destruct (vertical d); unfold draw_bar_vertical, draw_bar_horizontal.
  - apply steady_bind; [apply steady_lift, bar_progress_undivided|].
    intros p.
    apply steady_bind;
      [apply (steady_emits _ _ (draw_border_emits _ _ _))|]. intros _.
    apply steady_bind.
    { destruct (draw_fill_vertical_emits (g_pb_x g) (g_pb_y g)
                  (g_pb_width g) (g_pb_height g) bar off p) as [l Hl].
      apply (steady_emits _ _ Hl). }
    intros _. apply steady_bind; [|intros _; apply steady_ret].
    unfold draw_gaps_vertical. apply steady_when, tick_gaps_steady.
  - apply steady_bind; [apply steady_lift, bar_progress_undivided|].
    intros p.
    apply steady_bind;
      [apply (steady_emits _ _ (draw_border_emits _ _ _))|]. intros _.
    apply steady_bind.
    { destruct (draw_fill_horizontal_emits (g_pb_x g) (g_pb_y g)
                  (g_pb_width g) (g_pb_height g) bar off p) as [l Hl].
      apply (steady_emits _ _ Hl). }
    intros _. apply steady_bind; [|intros _; apply steady_ret].
    unfold draw_gaps_horizontal. apply steady_when, tick_gaps_steady.
Qed.

Lemma draw_bars_steady (fuel : nat) (d : progressbar_data_t) (g : geometry)
    (l : list bar_t) (off : Z) :
  steady (draw_bars (draw_bar fuel d g) l off).
Proof.
  revert off. induction l as [|bar l IH]; intros off; cbn [draw_bars].
  - apply steady_ret.
  - apply steady_bind; [apply draw_bar_steady | intros next; apply IH].
Qed.

(** The divisions of the geometry: by the number of bars, and by
    [ticks_count] where the code has tested it. *)
Lemma progressbar_geometry_undivided ctx align d offset :
  bars d <> [] ->
  Z.of_nat (List.length (bars d)) <= CInt.INT_MAX ->
  ticks_count d <> -1 ->
  undivided (progressbar_geometry ctx align d offset).
Proof.
  intros Hne Hlen Htc. unfold progressbar_geometry.
  rewrite count_bars_length by exact Hlen.
  set (n := Z.of_nat (List.length (bars d))).
  assert (Hn : 1 <= n).
  { subst n. destruct (bars d); [contradiction|].
    cbn [List.length]. lia. }
  assert (Hq : quantized d = true -> ticks_count d <> 0).
  { unfold quantized. intros H. apply andb_true_iff in H.
    destruct H as [H _]. now apply truthy_true in H. }
  assert (Hy : undivided (layout_pb_y ctx d)).
  { unfold layout_pb_y. apply rbind_undivided;
      [apply int_of_float_undivided|]. intros t _.
    rewrite int_div_ok by lia. cbn [rbind]. discriminate. }
  apply rbind_undivided.
  - unfold layout_widths. destruct (vertical d).
    + apply rbind_undivided; [apply int_div_undivided; lia|].
      intros; discriminate.
    + destruct (quantized d) eqn:Eq; [|discriminate].
      apply rbind_undivided; [apply int_div_undivided; auto|].
      intros; discriminate.
  - intros [[pbw u] ww] _. destruct (vertical d).
    + apply rbind_undivided.
      * unfold layout_height_vertical.
        apply rbind_undivided; [apply int_of_float_undivided|].
        intros h _. destruct (quantized d) eqn:Eq; [|discriminate].
        apply rbind_undivided; [apply int_div_undivided; auto|].
        intros; discriminate.
      * intros hu _. apply rbind_undivided; [exact Hy|].
        intros; discriminate.
    + apply rbind_undivided;
        [unfold layout_height_horizontal; apply int_of_float_undivided|].
      intros h _. apply rbind_undivided; [exact Hy|].
      intros; discriminate.
Qed.

(** X14. A draw call never traps on an integer division: the number of
    bars it divides by is at least one, and [ticks_count] is a divisor
    only where it was tested to be non-zero. *)
Theorem draw_never_divides_by_zero :
  forall fuel ctx align d offset st,
    Z.of_nat (List.length (bars d)) <= CInt.INT_MAX ->
    ticks_count d <> -1 ->
    progressbar_draw fuel ctx align d offset st <> Fault DivisionFault.
Proof.
  intros fuel ctx align d offset st Hlen Htc.
  unfold progressbar_draw.
  destruct (bars d) as [|b l] eqn:Hb; [discriminate|].
  assert (Hg : undivided (progressbar_geometry ctx align d offset)).
  { apply progressbar_geometry_undivided; auto; rewrite Hb;
      [discriminate | exact Hlen]. }
  unfold bind at 1. unfold lift.
  destruct (progressbar_geometry ctx align d offset) as [g|f];
    [|intros [= ->]; now apply Hg].
  unfold bind at 1. unfold get_area.
  unfold bind at 1. unfold set_area.
  unfold bind at 1.
  match goal with
  | |- context [draw_bars ?body ?l 0 ?s] =>
      change body with (draw_bar fuel d g);
      pose proof (proj1 (draw_bars_steady fuel d g l 0) s) as Hd;
      destruct (draw_bars (draw_bar fuel d g) l 0 s) as [[[] st1]|f]
  end; [discriminate | intros [= ->]; now apply Hd].
Qed.

(** The distance from a bar to the next:
    [pb_offset += thickness + d->gap + 2 * (d->border_width +
    d->border_padding)]. *)
Definition pitch (d : progressbar_data_t) (g : geometry) : Z :=
  ((if vertical d then g_pb_width g else g_pb_height g)
   + gap d + 2 * (border_width d + border_padding d))%cint.

(** The bars of a list drawn in turn, the first at [off], with the
    commands of each. *)
Fixpoint bars_in_turn (fuel : nat) (d : progressbar_data_t) (g : geometry)
    (l : list bar_t) (off : Z) (cmdss : list (list draw_cmd)) : Prop :=
  match l, cmdss with
  | [], [] => True
  | bar :: l', cmds :: cmdss' =>
      draws (draw_bar fuel d g bar off) (off + pitch d g)%cint cmds /\
      bars_in_turn fuel d g l' (off + pitch d g)%cint cmdss'
  | _, _ => False
  end.

Lemma draw_bar_next (fuel : nat) (d : progressbar_data_t) (g : geometry)
    (bar : bar_t) (off : Z) (st st' : draw_state) (next : Z) :
  draw_bar fuel d g bar off st = Ok (next, st') ->
  next = (off + pitch d g)%cint.
Proof.
  unfold draw_bar, pitch.
  destruct (vertical d); unfold draw_bar_vertical, draw_bar_horizontal;
    unfold bind, ret; intros H;
    repeat match type of H with
           | match ?c with _ => _ end = _ =>
               destruct c as [[? ?]|]; [|discriminate]
           end;
    now injection H as <- _.
Qed.

Lemma draw_bars_in_turn (fuel : nat) (d : progressbar_data_t) (g : geometry)
    (l : list bar_t) (off : Z) (st st' : draw_state) :
  draw_bars (draw_bar fuel d g) l off st = Ok (tt, st') ->
  exists cmdss,
    bars_in_turn fuel d g l off cmdss /\ st' = appended st (List.concat cmdss).
Proof.
  revert off st. induction l as [|bar l IH]; intros off st; cbn [draw_bars].
  - intros [= <-]. exists []. split; [exact I|].
    cbn [List.concat]. now rewrite appended_nil.
  - unfold bind.
    destruct (draw_bar fuel d g bar off st) as [[next st1]|] eqn:E;
      [|discriminate].
    intros H. pose proof (draw_bar_next _ _ _ _ _ _ _ _ E) as ->.
    destruct (proj2 (draw_bar_steady fuel d g bar off) _ _ _ E)
      as (l1 & -> & D1).
    destruct (IH _ _ H) as (cmdss & Hb & ->).
    exists (l1 :: cmdss). split; [split; assumption|].
    cbn [List.concat]. apply appended_app.
Qed.

(** X15. A draw call draws the bars in the order of the list, each
    with commands of its own that depend on nothing drawn before, the
    first at offset 0 and each next one further by the thickness of a
    bar, the gap and twice the border and the padding. *)
Theorem draw_goes_bar_by_bar :
  forall fuel ctx align d offset st r st',
    bars d <> [] ->
    progressbar_draw fuel ctx align d offset st = Ok (r, st') ->
    exists g cmdss,
      progressbar_geometry ctx align d offset = Ok g /\
      bars_in_turn fuel d g (bars d) 0 cmdss /\
      emitted st' = emitted st ++ List.concat cmdss.
Proof.
  intros fuel ctx align d offset st r st' Hne. unfold progressbar_draw.
  destruct (bars d) as [|b l] eqn:Hb; [contradiction|].
  unfold bind at 1. unfold lift.
  destruct (progressbar_geometry ctx align d offset) as [g|]; [|discriminate].
  unfold bind at 1. unfold get_area.
  unfold bind at 1. unfold set_area.
  unfold bind at 1.
  match goal with
  | |- context [draw_bars ?body ?l 0 ?s] =>
      change body with (draw_bar fuel d g);
      destruct (draw_bars (draw_bar fuel d g) l 0 s) as [[[] st1]|] eqn:E;
      [|discriminate]
  end.
  apply draw_bars_in_turn in E. destruct E as (cmdss & Hturn & ->).
  intros [= <- <-]. exists g, cmdss. repeat split; auto.
Qed.

End DrawNever.

(* ------------------------------------------------------------------ *)
(** ** Tables that change nothing, and numbers that are no [int] *)

Section Nothing.

Context {host : Host}.

Lemma bar_modify_same (i : nat) (f : bar_t -> bar_t) (l : list bar_t)
    (b : bar_t) :
  nth_error l i = Some b -> f b = b -> bar_modify i f l = l.
Proof.
  revert i. induction l as [|b0 l IH]; intros i Hn Hf.
  - now destruct i.
  - destruct i as [|i]; cbn [bar_modify nth_error] in *.
    + injection Hn as ->. now rewrite Hf.
    + now rewrite (IH i Hn Hf).
Qed.

Lemma apply_nothing (bar : bar_t) :
  sane bar = true ->
  F32.ltb (min_value bar) (max_value bar) = true ->
  F32.leb (min_value bar) (value bar) = true ->
  F32.leb (value bar) (max_value bar) = true ->
  bar_apply_properties no_properties bar = bar.
Proof.
  unfold sane. intros Hs Hlt H1 H2.
  apply andb_true_iff in Hs. destruct Hs as [Hs Nv].
  apply andb_true_iff in Hs. destruct Hs as [Nlo Nhi].
  destruct (a_number_inv _ Nlo) as [Vlo Ilo].
  destruct (a_number_inv _ Nhi) as [Vhi Ihi].
  destruct (a_number_inv _ Nv) as [Vv Iv].
  destruct bar as [t lo hi v rev c1 c2 c3 c4 c5 c6].
  cbn [min_value max_value value] in *.
  assert (E1 : F32.leb hi lo = false).
  { destruct (SFltb_asym 24 128 lo hi ltac:(lia) Vlo Vhi Ilo Ihi)
      as [H _]. now apply H. }
  assert (E2 : F32.ltb v lo = false).
  { destruct (SFltb_asym 24 128 lo v ltac:(lia) Vlo Vv Ilo Iv)
      as [_ H]. now apply H. }
  assert (E3 : F32.gtb v hi = false).
  { destruct (SFltb_asym 24 128 v hi ltac:(lia) Vv Vhi Iv Ihi)
      as [_ H]. now apply H. }
  cbv [bar_apply_properties bar_set_colors bar_set_range
       no_properties p_fg p_bg p_fg_off p_border_color p_fg_center p_fg_end
       p_min_value p_max_value p_reverse color_set pcolor_set luaA_getopt
       min_value max_value value reverse fg fg_off pfg_center pfg_end bg
       bordercolor title set_fg set_bg set_fg_off set_bordercolor
       set_pfg_center set_pfg_end set_min_value set_max_value set_value
       set_reverse].
  rewrite (float_double_float lo Vlo), E1, E2.
  rewrite (float_double_float hi Vhi).
  unfold F32.geb. unfold F32.leb in E1. rewrite E1, E3. reflexivity.
Qed.

(** X16. A call of [bar_properties_set] with an empty table, for a bar
    that exists and whose numbers are in order ([min_value < max_value],
    [min_value <= value <= max_value], none a NaN), changes nothing: the
    range read back through numbers of Lua is what it was, and the
    corrections of the range leave it alone. *)
Theorem bar_properties_set_nothing :
  forall (d : progressbar_data_t) (t : string) (i : nat) (bar : bar_t),
    bar_find t (bars d) = Some i ->
    nth_error (bars d) i = Some bar ->
    sane bar = true ->
    F32.ltb (min_value bar) (max_value bar) = true ->
    F32.leb (min_value bar) (value bar) = true ->
    F32.leb (value bar) (max_value bar) = true ->
    luaA_progressbar_bar_properties_set d t no_properties = d.
Proof.
  intros d t i bar Hf Hn Hs Hlt H1 H2.
  unfold luaA_progressbar_bar_properties_set, bar_upsert. rewrite Hf.
  rewrite (bar_modify_same i _ _ bar Hn (apply_nothing bar Hs Hlt H1 H2)).
  now destruct d.
Qed.

(** A number of Lua that has an [int] value. *)
Definition convertible (o : option double) : bool :=
  match o with
  | Some x => match int_of_float x with Ok _ => true | Fault _ => false end
  | None => true
  end.

Lemma getopt_int_convertible (o : option double) (z : Z) :
  CInt.in_int z ->
  match getopt_int o z with
  | Ok z' =>
      convertible o = true /\
      match o with Some x => int_of_float x = Ok z' | None => z' = z end
  | Fault f => convertible o = false /\ f = UndefinedConversion
  end.
Proof.
  intros Hz. destruct o as [x|]; cbn [convertible].
  - unfold getopt_int. cbn [luaA_getopt].
    unfold int_of_float. destruct (truncate x) as [a|]; [|auto].
    destruct (CInt.in_intb a); auto.
  - rewrite getopt_int_absent by assumption. auto.
Qed.

(** X17. A call of [properties_set] is defined exactly when every number
    given for an [int] field has an [int] value: a NaN, an infinity or a
    number beyond the range of [int] is an undefined conversion, while
    [height] takes any number. When it is defined, a key that is given
    is stored truncated towards zero, and a key that is absent leaves
    its field as it was. *)
Theorem properties_set_defined :
  forall (d : progressbar_data_t) (p : properties),
    ints_in_range d -> F32.valid (height d) = true ->
    let all :=
      convertible (q_gap p) && convertible (q_ticks_count p)
      && convertible (q_ticks_gap p) && convertible (q_border_padding p)
      && convertible (q_border_width p) && convertible (q_width p) in
    match luaA_progressbar_properties_set d p with
    | Ok d' =>
        all = true /\
        getopt_int (q_gap p) (gap d) = Ok (gap d') /\
        getopt_int (q_ticks_count p) (ticks_count d) = Ok (ticks_count d') /\
        getopt_int (q_ticks_gap p) (ticks_gap d) = Ok (ticks_gap d') /\
        getopt_int (q_border_padding p) (border_padding d)
        = Ok (border_padding d') /\
        getopt_int (q_border_width p) (border_width d)
        = Ok (border_width d') /\
        getopt_int (q_width p) (width d) = Ok (width d') /\
        (q_gap p = None -> gap d' = gap d) /\
        (q_ticks_count p = None -> ticks_count d' = ticks_count d) /\
        (q_ticks_gap p = None -> ticks_gap d' = ticks_gap d) /\
        (q_border_padding p = None -> border_padding d' = border_padding d) /\
        (q_border_width p = None -> border_width d' = border_width d) /\
        (q_width p = None -> width d' = width d) /\
        (q_height p = None -> height d' = height d) /\
        (q_vertical p = None -> vertical d' = vertical d) /\
        bars d' = bars d
    | Fault f => all = false /\ f = UndefinedConversion
    end.
Proof.
  intros d p (Hw & Hg & Hbw & Hbp & Htg & Htc) Vh all. subst all.
  unfold luaA_progressbar_properties_set.
  pose proof (getopt_int_convertible (q_gap p) _ Hg) as C1.
  pose proof (getopt_int_convertible (q_ticks_count p) _ Htc) as C2.
  pose proof (getopt_int_convertible (q_ticks_gap p) _ Htg) as C3.
  pose proof (getopt_int_convertible (q_border_padding p) _ Hbp) as C4.
  pose proof (getopt_int_convertible (q_border_width p) _ Hbw) as C5.
  pose proof (getopt_int_convertible (q_width p) _ Hw) as C6.
  destruct (getopt_int (q_gap p) (gap d)) as [z1|f1];
    [destruct C1 as [-> K1] | destruct C1 as [-> ->]; cbn; auto].
  destruct (getopt_int (q_ticks_count p) (ticks_count d)) as [z2|f2];
    [destruct C2 as [-> K2] | destruct C2 as [-> ->]; cbn; auto].
  destruct (getopt_int (q_ticks_gap p) (ticks_gap d)) as [z3|f3];
    [destruct C3 as [-> K3] | destruct C3 as [-> ->]; cbn; auto].
  destruct (getopt_int (q_border_padding p) (border_padding d)) as [z4|f4];
    [destruct C4 as [-> K4] | destruct C4 as [-> ->]; cbn; auto].
  destruct (getopt_int (q_border_width p) (border_width d)) as [z5|f5];
    [destruct C5 as [-> K5]
    | destruct C5 as [-> ->]; cbn; rewrite ?andb_false_r; auto].
  destruct (getopt_int (q_width p) (width d)) as [z6|f6];
    [destruct C6 as [-> K6]
    | destruct C6 as [-> ->]; cbn; rewrite ?andb_false_r; auto].
  cbn [rbind width gap border_width border_padding ticks_gap ticks_count
       vertical height bars andb].
  repeat split; try reflexivity.
  - intros E. now rewrite E in K1.
  - intros E. now rewrite E in K2.
  - intros E. now rewrite E in K3.
  - intros E. now rewrite E in K4.
  - intros E. now rewrite E in K5.
  - intros E. now rewrite E in K6.
  - intros ->. cbn [luaA_getopt]. now apply float_double_float.
  - now intros ->.
Qed.

End Nothing.

(* ------------------------------------------------------------------ *)
(** ** Sample runs *)

(** Calls made on a new widget: two bars, a maximum given below the
    minimum, a value beyond the range, and general properties. *)
Definition sample_calls : list call :=
  [ BarDataAdd "a" (F64.of_int 50);
    BarPropertiesSet "b" max_five;
    BarDataAdd "b" (F64.of_int 70);
    BarPropertiesSet "a"
      (mk_bar_properties None None None None None None None
         (Some (F64.of_int (-4096))) None);
    PropertiesSet
      (mk_properties (Some (lit 29 10)) None None None None
         (Some (F64.of_int 120)) None (Some true));
    BarDataAdd "a" (F64.of_int 20) ].

Definition after_sample_calls : progressbar_data_t :=
  match run_calls progressbar_new sample_calls with
  | Ok d => d
  | Fault _ => progressbar_new
  end.

Lemma sample_calls_run :
  run_calls progressbar_new sample_calls = Ok after_sample_calls.
Proof. vm_compute. reflexivity. Qed.

(** A table that gives [gap = 2.9] and [width = 120], and one that gives
    a NaN for [ticks_count]. *)
Definition gap_and_width : properties :=
  mk_properties (Some (lit 29 10)) None None None None
    (Some (F64.of_int 120)) None None.

Definition ticks_nan : properties :=
  mk_properties None (Some S754_nan) None None None None None None.

Lemma progressbar_new_ints : ints_in_range progressbar_new.
Proof. repeat split; vm_compute; discriminate. Qed.

Lemma other_bars_untouched_witness :
  nth_error (bars (luaA_progressbar_bar_data_add two_bars "b"
                     (F64.of_int 70))) 0
  = Some (first_bar two_bars).
Proof.
  refine (proj1 (proj1 (other_bars_untouched two_bars "b" 0
                          (first_bar two_bars) _ _) (F64.of_int 70))).
  - vm_compute. reflexivity.
  - vm_compute. discriminate.
Defined.

Lemma titles_are_unique_witness :
  NoDup (map title (bars after_sample_calls)).
Proof.
  exact (titles_are_unique sample_calls after_sample_calls sample_calls_run).
Defined.

Lemma data_add_clamps_witness :
  value (bar_add_value (F64.of_int 120) (first_bar two_bars))
  = max_value (first_bar two_bars).
Proof.
  refine (proj2 (proj2 (proj2 (proj2 (proj2 (proj2
            (data_add_clamps (first_bar two_bars) (F64.of_int 120)
               _ _ _ _)))))) _ _);
    vm_compute; reflexivity.
Defined.

Lemma data_add_stores_floats_witness :
  value (bar_add_value (F64.of_float (F32.of_int 30)) (first_bar two_bars))
  = F32.of_int 30.
Proof.
  refine (data_add_stores_floats (first_bar two_bars) (F32.of_int 30)
            _ _ _ _ _);
    vm_compute; reflexivity.
Defined.

Lemma properties_set_orders_range_witness :
  F32.leb (min_value (bar_apply_properties max_five (first_bar from_ten)))
          (max_value (bar_apply_properties max_five (first_bar from_ten)))
  = true.
Proof.
  refine (proj1 (proj2 (properties_set_orders_range max_five
                          (first_bar from_ten) _ _)));
    vm_compute; reflexivity.
Defined.

Lemma ranges_are_ordered_witness :
  forallb (fun b => F32.leb (min_value b) (max_value b)
                    && F32.leb (min_value b) (value b)
                    && F32.leb (value b) (max_value b))
    (bars after_sample_calls) = true.
Proof.
  refine (ranges_are_ordered sample_calls after_sample_calls _
            sample_calls_run).
  vm_compute. reflexivity.
Defined.

Lemma properties_set_nothing_witness :
  luaA_progressbar_properties_set progressbar_new no_general_properties
  = Ok progressbar_new.
Proof.
  refine (properties_set_nothing progressbar_new progressbar_new_ints _).
  vm_compute. reflexivity.
Defined.

Lemma gap_and_width_set :
  luaA_progressbar_properties_set progressbar_new gap_and_width
  = Ok (with_layout progressbar_new 120 2 1 0 1 0 false).
Proof. vm_compute. reflexivity. Qed.

Lemma properties_set_twice_witness :
  luaA_progressbar_properties_set
    (with_layout progressbar_new 120 2 1 0 1 0 false) ticks_nan
  = luaA_progressbar_properties_set progressbar_new
      (properties_over gap_and_width ticks_nan).
Proof.
  refine (properties_set_twice progressbar_new _ gap_and_width ticks_nan
            progressbar_new_ints _ gap_and_width_set).
  vm_compute. reflexivity.
Defined.

Lemma two_bars_vertical_drawn :
  progressbar_draw 100 sample_ctx true two_bars_vertical 0 fresh_state
  = Ok (50, state_after (progressbar_draw 100 sample_ctx true
                           two_bars_vertical 0 fresh_state)).
Proof. vm_compute. reflexivity. Qed.

Lemma two_bars_vertical_has_bars : bars two_bars_vertical <> [].
Proof. vm_compute. discriminate. Qed.

(** The two bars side by side in a width of one pixel, which leaves them
    no room: [width=1, gap=2, border_width=1]. *)
Definition two_bars_narrow : progressbar_data_t :=
  with_layout two_bars 1 2 1 0 1 0 true.

Lemma two_bars_narrow_drawn :
  progressbar_draw 100 sample_ctx true two_bars_narrow 0 fresh_state
  = Ok (2, state_after (progressbar_draw 100 sample_ctx true
                          two_bars_narrow 0 fresh_state)).
Proof. vm_compute. reflexivity. Qed.

Lemma drawn_width_within_width_witness :
  (width two_bars_vertical - 2 < 50 <= width two_bars_vertical) /\
  (width two_bars_narrow <= 2 < width two_bars_narrow + 2).
Proof.
  split.
  - refine (proj1 (proj2 (proj1 (drawn_width_within_width 100 sample_ctx
                     true two_bars_vertical 0 fresh_state 50 _
                     two_bars_vertical_has_bars _ _ _ _ _ _
                     two_bars_vertical_drawn) _)) _);
      vm_compute; try split; try reflexivity; discriminate.
  - refine (proj2 (proj2 (proj1 (drawn_width_within_width 100 sample_ctx
                     true two_bars_narrow 0 fresh_state 2 _
                     _ _ _ _ _ _ _
                     two_bars_narrow_drawn) _)) _);
      vm_compute; try split; try reflexivity; discriminate.
Defined.

Lemma bar_at_minimum_is_empty_witness :
  bar_progress ten_ticks 69 7 (first_bar (one_bar 0)) = Ok 0.
Proof.
  refine (bar_at_minimum_is_empty ten_ticks 69 7 (first_bar (one_bar 0))
            _ _ _ _ _ _ _ _);
    vm_compute; try split; try reflexivity; discriminate.
Defined.

Lemma draw_never_divides_by_zero_witness :
  progressbar_draw 100 sample_ctx true two_bars_vertical 0 fresh_state
  <> Fault DivisionFault.
Proof.
  refine (draw_never_divides_by_zero 100 sample_ctx true two_bars_vertical
            0 fresh_state _ _); vm_compute; discriminate.
Defined.

Lemma draw_goes_bar_by_bar_witness :
  exists g cmdss,
    progressbar_geometry sample_ctx true two_bars_vertical 0 = Ok g /\
    bars_in_turn 100 two_bars_vertical g (bars two_bars_vertical) 0 cmdss /\
    emitted (state_after (progressbar_draw 100 sample_ctx true
                            two_bars_vertical 0 fresh_state))
    = emitted fresh_state ++ List.concat cmdss.
Proof.
  exact (draw_goes_bar_by_bar 100 sample_ctx true two_bars_vertical 0
           fresh_state 50 _ two_bars_vertical_has_bars
           two_bars_vertical_drawn).
Defined.

Lemma bar_properties_set_nothing_witness :
  luaA_progressbar_bar_properties_set two_bars "a" no_properties = two_bars.
Proof.
  refine (bar_properties_set_nothing two_bars "a" 0 (first_bar two_bars)
            _ _ _ _ _ _);
    vm_compute; reflexivity.
Defined.

Lemma properties_set_defined_witness :
  luaA_progressbar_properties_set progressbar_new ticks_nan
  = Fault UndefinedConversion.
Proof.
  pose proof (properties_set_defined progressbar_new ticks_nan
                progressbar_new_ints ltac:(vm_compute; reflexivity)) as H.
  cbv zeta in H.
  destruct (luaA_progressbar_properties_set progressbar_new ticks_nan)
    as [d'|f].
  - destruct H as [H _]. vm_compute in H. discriminate.
  - destruct H as [_ ->]. reflexivity.
Defined.
